(** * chatapp: conversation lifecycle, message ledger and realtime gateway

    A shallow embedding of the server side of the chat application:

    - [server/db/schema.ts]: the rows of the [users], [conversations],
      [messages] and [protocols] tables;
    - [server/utils/helpers.ts]: [generateProtocol];
    - [server/routes/conversations.ts]: list, create, assign, close;
    - [server/routes/messages.ts]: the message send handler;
    - [server/middleware/auth.ts]: [generateToken] and [authenticate];
    - [server/socket]: the socket.io gateway, its handshake middleware, its
      event handlers and the [emitTo...] helpers.

    Conventions.  Tables are lists of rows in insertion order.  A handler is
    a function from the state of the system to an answer and a new state;
    the section on requests that overlap resumes the same handlers one
    query at a time, so that the queries of several requests interleave.
    What JavaScript draws from outside (the clock, [Math.random], the keys
    that the store generates with [defaultRandom()]) is passed in an [Env].
    The store is taken to accept every write a handler issues; named
    constraint violations are not part of the model, but for the unique
    protocol code, which overlapping creates can violate.  [triggerWebhook] is
    modelled by the list of domain events handed to the dispatcher. *)

From stdpp Require Import base decidable option list strings sorting.
From Stdlib Require Import Lia.

Open Scope string_scope.
Open Scope nat_scope.
Open Scope list_scope.

(** ** Data model *)

Definition uuid := string.
Definition Time := N.
Bind Scope N_scope with Time.

Inductive Role := client | attendant | admin.
Inductive ConvStatus := pending | active | closed.

#[global] Instance Role_eq_dec : EqDecision Role.
Proof. solve_decision. Defined.
#[global] Instance ConvStatus_eq_dec : EqDecision ConvStatus.
Proof. solve_decision. Defined.

(** The principal that [authenticate] stores in [req.user] and that the
    socket middleware stores in [socket.user]; also a row of [users]
    (password and the other columns are not read by the handlers below). *)
Record User := mkUser {
  user_id : uuid;
  user_email : string;
  user_role : Role;
  user_name : string
}.

Record Conversation := mkConversation {
  conv_id : uuid;
  conv_protocol : string;
  conv_channelId : option uuid;
  conv_clientId : uuid;
  conv_attendantId : option uuid;
  conv_status : ConvStatus;
  conv_createdAt : Time;
  conv_updatedAt : Time
}.

Record Message := mkMessage {
  msg_id : uuid;
  msg_conversationId : uuid;
  msg_senderId : uuid;
  msg_content : string;
  msg_createdAt : Time
}.

Record Protocol := mkProtocol {
  prot_id : uuid;
  prot_protocol : string;
  prot_conversationId : uuid;
  prot_createdAt : Time
}.

#[global] Instance User_eq_dec : EqDecision User.
Proof. solve_decision. Defined.
#[global] Instance Conversation_eq_dec : EqDecision Conversation.
Proof. solve_decision. Defined.
#[global] Instance Message_eq_dec : EqDecision Message.
Proof. solve_decision. Defined.

Record Store := mkStore {
  users : list User;
  conversations : list Conversation;
  messages : list Message;
  protocols : list Protocol
}.

(** ** Domain events given to [triggerWebhook] *)

Inductive WebhookEvent :=
| conversation_created (c : Conversation)
| conversation_assigned (conversationId attendantId : uuid)
| conversation_closed (conversationId : uuid)
| message_created (messageId conversationId senderId : uuid).

(** ** Realtime gateway *)

(** Events a connection receives. *)
Inductive ServerEvent :=
| message_new (conversationId : uuid) (content : string)
              (sender_id : uuid) (sender_name : string) (createdAt : Time)
| typing_user (conversationId : uuid) (id : uuid) (name : string)
| typing_stop (conversationId : uuid) (userId : uuid).

#[global] Instance ServerEvent_eq_dec : EqDecision ServerEvent.
Proof. solve_decision. Defined.

(** One connection: its principal, whether it is open, the rooms it is in
    (socket.io keeps a set of room names; the room of the connection's own
    id is left out) and what has been delivered to it so far. *)
Record Socket := mkSocket {
  sock_user : User;
  sock_connected : bool;
  sock_rooms : list string;
  sock_received : list ServerEvent
}.

(** [let io: Server]: the connections of the server, by connection number. *)
Definition Server := list Socket.

(** The variables of [process.env] that the two JWT modules read. *)
Record ProcessEnv := mkProcessEnv {
  JWT_SECRET : option string;
  JWT_EXPIRES_IN : option N
}.

Record System := mkSystem {
  process_env : ProcessEnv;
  db : Store;
  io : option Server;
  dispatched : list WebhookEvent
}.

Definition set_db (f : Store → Store) (s : System) : System :=
  mkSystem (process_env s) (f (db s)) (io s) (dispatched s).

Definition set_io (f : option Server → option Server) (s : System) : System :=
  mkSystem (process_env s) (db s) (f (io s)) (dispatched s).

Definition triggerWebhook (e : WebhookEvent) (s : System) : System :=
  mkSystem (process_env s) (db s) (io s) (dispatched s ++ [e]).

(** ** What a handler draws from outside *)

(** A value of [Math.random()]: the fraction [rnd_num / rnd_den], which
    JavaScript promises to lie in [0, 1). *)
Record Fraction := mkFraction { rnd_num : nat; rnd_den : nat }.

Definition unit_interval (x : Fraction) : Prop := rnd_num x < rnd_den x.

Record Env := mkEnv {
  now : Time;                       (* new Date(), defaultNow() *)
  Math_random : nat → Fraction;     (* the n-th call of Math.random() *)
  defaultRandom : nat → uuid        (* the n-th key the store generates *)
}.

(** ** JavaScript helpers *)

(** Truthiness of an optional string: [undefined] and [''] are falsy. *)
Definition truthy (x : option string) : bool :=
  match x with
  | Some s => negb (bool_decide (s = ""))
  | None => false
  end.

(** [s.charAt(i)]: the empty string out of range. *)
Definition charAt (s : string) (i : nat) : string :=
  match String.get i s with
  | Some c => String c ""
  | None => ""
  end.

(** [Math.floor(x * n)] for a fraction [x]. *)
Definition floor_mul (x : Fraction) (n : nat) : nat :=
  (rnd_num x * n) `div` rnd_den x.

(** ** server/utils/helpers.ts *)

Definition chars : string := "0123456789ABCDEF".

(** The body of the [for] loop of [generateProtocol], run [n] times from
    the [pos]-th random draw. *)
Fixpoint generateProtocol_from (n : nat) (rnd : nat → Fraction) (pos : nat)
    (protocol : string) : string :=
  match n with
  | 0 => protocol
  | S n' =>
      generateProtocol_from n' rnd (S pos)
        (protocol +:+ charAt chars (floor_mul (rnd pos) (String.length chars)))
  end.

Definition generateProtocol (rnd : nat → Fraction) (pos : nat) : string :=
  generateProtocol_from 13 rnd pos "".

(** ** Queries on the tables *)

Definition where_id (id : uuid) (cs : list Conversation) : list Conversation :=
  filter (λ c, conv_id c = id) cs.

Definition where_protocol (p : string) (cs : list Conversation)
    : list Conversation :=
  filter (λ c, conv_protocol c = p) cs.

Definition where_user (id : uuid) (us : list User) : list User :=
  filter (λ u, user_id u = id) us.

(** [db.update(conversations).set(...).where(eq(conversations.id, id))] *)
Definition update_where_id (id : uuid) (f : Conversation → Conversation)
    (cs : list Conversation) : list Conversation :=
  (λ c, if decide (conv_id c = id) then f c else c) <$> cs.

(** [.set({ attendantId: user.id, status: 'active', updatedAt: new Date() })] *)
Definition assigned_to (attendant : uuid) (t : Time) (c : Conversation)
    : Conversation :=
  mkConversation (conv_id c) (conv_protocol c) (conv_channelId c)
    (conv_clientId c) (Some attendant) active (conv_createdAt c) t.

(** [.set({ status: 'closed', updatedAt: new Date() })] *)
Definition closed_at (t : Time) (c : Conversation) : Conversation :=
  mkConversation (conv_id c) (conv_protocol c) (conv_channelId c)
    (conv_clientId c) (conv_attendantId c) closed (conv_createdAt c) t.

(** [.set({ updatedAt: new Date() })] *)
Definition touched_at (t : Time) (c : Conversation) : Conversation :=
  mkConversation (conv_id c) (conv_protocol c) (conv_channelId c)
    (conv_clientId c) (conv_attendantId c) (conv_status c)
    (conv_createdAt c) t.

Definition set_conversations (f : list Conversation → list Conversation)
    (st : Store) : Store :=
  mkStore (users st) (f (conversations st)) (messages st) (protocols st).

Definition insert_message (m : Message) (st : Store) : Store :=
  mkStore (users st) (conversations st) (messages st ++ [m]) (protocols st).

Definition insert_protocol (p : Protocol) (st : Store) : Store :=
  mkStore (users st) (conversations st) (messages st) (protocols st ++ [p]).

(** ** Answers *)

Record UserInfo := mkUserInfo {
  info_id : uuid; info_name : string; info_email : string
}.

Record ConversationWithUsers := mkConversationWithUsers {
  cwu_conv : Conversation;
  cwu_client : option UserInfo;
  cwu_attendant : option UserInfo;
  cwu_lastMessage : option Message
}.

Inductive Body :=
| json_error (error : string)
| json_conversation (c : Conversation)
| json_conversations (cs : list ConversationWithUsers)
| json_message (m : Message) (sender_id : uuid) (sender_name : string).

Record Response := mkResponse { res_status : nat; res_body : Body }.

Definition reply {S : Type} (code : nat) (b : Body) (s : S) : Response * S :=
  (mkResponse code b, s).

(** ** server/routes/conversations.ts *)

(** *** GET /  (list, filtered by role) *)

Definition eq_clientId (id : uuid) (c : Conversation) : bool :=
  bool_decide (conv_clientId c = id).
Definition eq_attendantId (id : uuid) (c : Conversation) : bool :=
  bool_decide (conv_attendantId c = Some id).
Definition eq_status (st : ConvStatus) (c : Conversation) : bool :=
  bool_decide (conv_status c = st).

(** [let whereCondition]: left undefined for an admin. *)
Definition whereCondition (user : User) : option (Conversation → bool) :=
  match user_role user with
  | client => Some (eq_clientId (user_id user))
  | attendant =>
      Some (λ c, eq_status pending c || eq_attendantId (user_id user) c)
  | admin => None
  end.

(** The condition of the query that is finally awaited: a later [.where]
    replaces an earlier one. *)
Definition listCondition (user : User) (status : option ConvStatus)
    : Conversation → bool :=
  match status, whereCondition user with
  | Some st, Some w => λ c, w c && eq_status st c
  | Some st, None => eq_status st
  | None, Some w => w
  | None, None => λ _, true
  end.

Definition createdAt_desc (a b : Conversation) : Prop :=
  (conv_createdAt b ≤ conv_createdAt a)%N.
Definition msg_createdAt_desc (a b : Message) : Prop :=
  (msg_createdAt b ≤ msg_createdAt a)%N.

#[global] Instance createdAt_desc_dec a b : Decision (createdAt_desc a b).
Proof. unfold createdAt_desc. apply _. Defined.
#[global] Instance msg_createdAt_desc_dec a b : Decision (msg_createdAt_desc a b).
Proof. unfold msg_createdAt_desc. apply _. Defined.

Definition select_conversations (cond : Conversation → bool) (st : Store)
    : list Conversation :=
  merge_sort createdAt_desc (filter (λ c, cond c = true) (conversations st)).

Definition userInfo (u : User) : UserInfo :=
  mkUserInfo (user_id u) (user_name u) (user_email u).

Definition select_userInfo (id : uuid) (st : Store) : option UserInfo :=
  userInfo <$> head (where_user id (users st)).

Definition lastMessage (id : uuid) (st : Store) : option Message :=
  head (merge_sort msg_createdAt_desc
          (filter (λ m, msg_conversationId m = id) (messages st))).

Definition withUsers (st : Store) (conv : Conversation)
    : ConversationWithUsers :=
  mkConversationWithUsers conv
    (select_userInfo (conv_clientId conv) st)
    (match conv_attendantId conv with
     | Some a => select_userInfo a st
     | None => None
     end)
    (lastMessage (conv_id conv) st).

(** [status] is the query parameter at the type the handler casts it to;
    an absent or empty parameter is [None]. *)
Definition getConversations (user : User) (status : option ConvStatus)
    (s : System) : Response * System :=
  let result := select_conversations (listCondition user status) (db s) in
  reply 200 (json_conversations (withUsers (db s) <$> result)) s.

(** *** POST /  (create, clients only) *)

(** The loop that draws a protocol until no conversation carries it.  One
    unit of [fuel] pays for one draw and one lookup; [None] stands for a
    loop that is still running when the fuel is spent. *)
Fixpoint uniqueProtocol (fuel : nat) (rnd : nat → Fraction) (pos : nat)
    (cs : list Conversation) : option string :=
  match fuel with
  | 0 => None
  | S fuel' =>
      let protocol := generateProtocol rnd pos in
      let existing := where_protocol protocol cs in
      if decide (0 < length existing)
      then uniqueProtocol fuel' rnd (pos + 13) cs
      else Some protocol
  end.

Definition postConversation (fuel : nat) (env : Env) (user : User)
    (channelId : option uuid) (initialMessage : option string)
    (s : System) : option (Response * System) :=
  if decide (user_role user ≠ client)
  then Some (reply 403 (json_error "Only clients can create conversations") s)
  else
    protocol ← uniqueProtocol fuel (Math_random env) 0 (conversations (db s));
    let conversation :=
      mkConversation (defaultRandom env 0) protocol channelId (user_id user)
        None pending (now env) (now env) in
    let s1 := set_db (set_conversations (λ cs, cs ++ [conversation])) s in
    let s2 :=
      set_db (insert_protocol
                (mkProtocol (defaultRandom env 1) protocol
                   (conv_id conversation) (now env))) s1 in
    let s3 :=
      if truthy initialMessage
      then set_db (insert_message
                     (mkMessage (defaultRandom env 2) (conv_id conversation)
                        (user_id user) (default "" initialMessage) (now env)))
             s2
      else s2 in
    let s4 := triggerWebhook (conversation_created conversation) s3 in
    Some (reply 201 (json_conversation conversation) s4).

(** *** POST /:id/assign *)

Definition postAssign (env : Env) (user : User) (id : uuid) (s : System)
    : Response * System :=
  if decide (user_role user ≠ attendant ∧ user_role user ≠ admin)
  then reply 403
         (json_error "Only attendants and admins can assign conversations") s
  else
    match head (where_id id (conversations (db s))) with
    | None => reply 404 (json_error "Conversation not found") s
    | Some conversation =>
        if decide (conv_status conversation ≠ pending)
        then reply 400 (json_error "Conversation is not pending") s
        else
          let s1 :=
            set_db (set_conversations
                      (update_where_id id
                         (assigned_to (user_id user) (now env)))) s in
          match head (where_id id (conversations (db s1))) with
          | None => reply 500 (json_error "Failed to assign conversation") s1
          | Some updated =>
              let s2 :=
                triggerWebhook
                  (conversation_assigned (conv_id updated) (user_id user)) s1 in
              reply 200 (json_conversation updated) s2
          end
    end.

(** *** POST /:id/close *)

Definition postClose (env : Env) (user : User) (id : uuid) (s : System)
    : Response * System :=
  match head (where_id id (conversations (db s))) with
  | None => reply 404 (json_error "Conversation not found") s
  | Some conversation =>
      if decide (user_role user = client
                 ∧ conv_clientId conversation ≠ user_id user)
      then reply 403 (json_error "Access denied") s
      else if decide (user_role user = attendant
                      ∧ conv_attendantId conversation ≠ Some (user_id user))
      then reply 403 (json_error "Access denied") s
      else
        let s1 :=
          set_db (set_conversations
                    (update_where_id id (closed_at (now env)))) s in
        match head (where_id id (conversations (db s1))) with
        | None => reply 500 (json_error "Failed to close conversation") s1
        | Some updated =>
            let s2 := triggerWebhook (conversation_closed (conv_id updated)) s1 in
            reply 200 (json_conversation updated) s2
        end
  end.

(** ** server/routes/messages.ts *)

(** *** POST /  (send message to conversation) *)

Definition postMessage (env : Env) (user : User)
    (conversationId content : option string) (s : System)
    : Response * System :=
  if negb (truthy conversationId) || negb (truthy content)
  then reply 400 (json_error "Conversation ID and content are required") s
  else
    let conversationId := default "" conversationId in
    let content := default "" content in
    match head (where_id conversationId (conversations (db s))) with
    | None => reply 404 (json_error "Conversation not found") s
    | Some conversation =>
        if decide (user_role user = client
                   ∧ conv_clientId conversation ≠ user_id user)
        then reply 403 (json_error "Access denied") s
        else if decide (user_role user = client
                        ∧ conv_status conversation ≠ active)
        then reply 400 (json_error "Conversation is not active yet") s
        else if decide (user_role user = attendant
                        ∧ conv_attendantId conversation ≠ Some (user_id user))
        then reply 403 (json_error "Access denied") s
        else
          let message :=
            mkMessage (defaultRandom env 0) conversationId (user_id user)
              content (now env) in
          let s1 := set_db (insert_message message) s in
          let s2 :=
            set_db (set_conversations
                      (update_where_id conversationId (touched_at (now env))))
              s1 in
          let s3 :=
            triggerWebhook
              (message_created (msg_id message) conversationId (user_id user))
              s2 in
          reply 201 (json_message message (user_id user) (user_name user)) s3
    end.

(** ** JSON web tokens *)

(** The payload the handlers read from a decoded token. *)
Record Claims := mkClaims {
  userId : uuid;
  email : option string;
  role : option Role;
  name : option string
}.

(** A token is a payload together with the key it was signed with and the
    instant it expires at. *)
Record Token := mkToken {
  tok_claims : Claims;
  tok_key : string;
  tok_exp : Time
}.

Definition jwt_sign (payload : Claims) (secret : string) (expiresIn : N)
    (t : Time) : Token :=
  mkToken payload secret (t + expiresIn)%N.

(** [jwt.verify] throws (here: [None]) on a foreign signature and on an
    expired token. *)
Definition jwt_verify (token : Token) (secret : string) (t : Time)
    : option Claims :=
  if decide (tok_key token = secret ∧ (t < tok_exp token)%N)
  then Some (tok_claims token)
  else None.

(** [x || d] on an environment variable. *)
Definition or_else (x : option string) (d : string) : string :=
  if truthy x then default d x else d.

(** ** server/middleware/auth.ts *)

Definition jwtSecret (e : ProcessEnv) : string :=
  or_else (JWT_SECRET e) "development-only-secret-do-not-use-in-production".

Definition seven_days : N := 7 * 24 * 60 * 60.

Definition generateToken (e : ProcessEnv) (t : Time) (userId : uuid) : Token :=
  jwt_sign (mkClaims userId None None None) (jwtSecret e)
    (default seven_days (JWT_EXPIRES_IN e)) t.

(** [authenticate]: the bearer token of the request, if any, is verified
    and the user row is read back from the store. *)
Definition authenticate (t : Time) (bearer : option Token) (s : System)
    : Response + User :=
  match bearer with
  | None => inl (mkResponse 401 (json_error "No token provided"))
  | Some token =>
      match jwt_verify token (jwtSecret (process_env s)) t with
      | None => inl (mkResponse 401 (json_error "Invalid token"))
      | Some decoded =>
          match head (where_user (userId decoded) (users (db s))) with
          | None => inl (mkResponse 401 (json_error "User not found"))
          | Some user => inr user
          end
      end
  end.

(** ** server/socket *)

Definition socket_JWT_SECRET (e : ProcessEnv) : string :=
  or_else (JWT_SECRET e) "your-super-secret-jwt-key".

Definition role_name (r : Role) : string :=
  match r with
  | client => "client"
  | attendant => "attendant"
  | admin => "admin"
  end.

Definition room_user (id : uuid) : string := "user:" +:+ id.
Definition room_role (r : Role) : string := "role:" +:+ role_name r.
Definition room_conversation (id : uuid) : string := "conversation:" +:+ id.

(** The authentication middleware [io.use]: an error message for [next], or
    the principal stored in [socket.user]. *)
Definition socket_auth (e : ProcessEnv) (t : Time) (token : option Token)
    : string + User :=
  match token with
  | None => inl "Authentication required"
  | Some token =>
      match jwt_verify token (socket_JWT_SECRET e) t with
      | Some decoded =>
          inr (mkUser (userId decoded)
                 (default "" (email decoded))
                 (default client (role decoded))
                 (default "" (name decoded)))
      | None => inl "Invalid token"
      end
  end.

(** [socket.join] and [socket.leave] on the set of rooms of a connection. *)
Definition join (room : string) (sk : Socket) : Socket :=
  mkSocket (sock_user sk) (sock_connected sk)
    (if decide (room ∈ sock_rooms sk) then sock_rooms sk
     else sock_rooms sk ++ [room])
    (sock_received sk).

Definition leave (room : string) (sk : Socket) : Socket :=
  mkSocket (sock_user sk) (sock_connected sk)
    (filter (λ r, r ≠ room) (sock_rooms sk)) (sock_received sk).

Definition deliver (ev : ServerEvent) (sk : Socket) : Socket :=
  mkSocket (sock_user sk) (sock_connected sk) (sock_rooms sk)
    (sock_received sk ++ [ev]).

(** [io.to(room).emit(ev)] when [except] is [None], and
    [socket.to(room).emit(ev)] from connection [i] when it is [Some i]: the
    sender of a broadcast is left out. *)
Definition emit_to (room : string) (except : option nat) (ev : ServerEvent)
    (srv : Server) : Server :=
  imap (λ i sk,
          if decide (room ∈ sock_rooms sk ∧ except ≠ Some i)
          then deliver ev sk else sk) srv.

(** [io.on('connection')] behind the middleware: a refused handshake
    leaves the server as it is, an accepted one adds a connection that is
    in its personal room and in the room of its role. *)
Definition connect (t : Time) (token : option Token) (s : System) : System :=
  match io s with
  | None => s
  | Some srv =>
      match socket_auth (process_env s) t token with
      | inl _ => s
      | inr user =>
          let sk :=
            join (room_role (user_role user))
              (join (room_user (user_id user)) (mkSocket user true [] [])) in
          set_io (λ _, Some (srv ++ [sk])) s
      end
  end.

(** Events a connection sends. *)
Inductive ClientEvent :=
| on_join_conversation (conversationId : string)
| on_leave_conversation (conversationId : string)
| on_message_send (conversationId content : string)
| on_typing_start (conversationId : string)
| on_typing_stop (conversationId : string)
| on_disconnect.

Definition socket_handler (t : Time) (i : nat) (user : User)
    (ev : ClientEvent) (srv : Server) : Server :=
  match ev with
  | on_join_conversation conversationId =>
      alter (join (room_conversation conversationId)) i srv
  | on_leave_conversation conversationId =>
      alter (leave (room_conversation conversationId)) i srv
  | on_message_send conversationId content =>
      emit_to (room_conversation conversationId) (Some i)
        (message_new conversationId content (user_id user) (user_name user) t)
        srv
  | on_typing_start conversationId =>
      emit_to (room_conversation conversationId) (Some i)
        (typing_user conversationId (user_id user) (user_name user)) srv
  | on_typing_stop conversationId =>
      emit_to (room_conversation conversationId) (Some i)
        (typing_stop conversationId (user_id user)) srv
  | on_disconnect =>
      alter (λ sk, mkSocket (sock_user sk) false [] (sock_received sk)) i srv
  end.

(** An event from connection [i]; the handlers exist for open connections
    only. *)
Definition socket_on (t : Time) (i : nat) (ev : ClientEvent) (s : System)
    : System :=
  match io s with
  | None => s
  | Some srv =>
      match srv !! i with
      | Some sk =>
          if sock_connected sk
          then set_io (λ _, Some (socket_handler t i (sock_user sk) ev srv)) s
          else s
      | None => s
      end
  end.

(** The helpers that let the rest of the application emit events. *)
Definition emitToUser (userId : uuid) (ev : ServerEvent) (s : System)
    : System :=
  set_io (fmap (emit_to (room_user userId) None ev)) s.

Definition emitToConversation (conversationId : uuid) (ev : ServerEvent)
    (s : System) : System :=
  set_io (fmap (emit_to (room_conversation conversationId) None ev)) s.

Definition emitToRole (r : Role) (ev : ServerEvent) (s : System) : System :=
  set_io (fmap (emit_to (room_role r) None ev)) s.

Definition emitToAll (ev : ServerEvent) (s : System) : System :=
  set_io (fmap (M:=option)
            (λ srv : Server,
               (λ sk, if sock_connected sk then deliver ev sk else sk)
                 <$> srv)) s.

(** ** The system as a whole *)

Inductive Request :=
| GET_conversations (status : option ConvStatus)
| POST_conversations (channelId : option uuid) (initialMessage : option string)
| POST_assign (id : uuid)
| POST_close (id : uuid)
| POST_messages (conversationId content : option string).

(** The router: the handler of a request, run for the principal that
    [authenticate] has put in [req.user]. *)
Definition handle (fuel : nat) (env : Env) (user : User) (req : Request)
    (s : System) : option (Response * System) :=
  match req with
  | GET_conversations status => Some (getConversations user status s)
  | POST_conversations channelId initialMessage =>
      postConversation fuel env user channelId initialMessage s
  | POST_assign id => Some (postAssign env user id s)
  | POST_close id => Some (postClose env user id s)
  | POST_messages conversationId content =>
      Some (postMessage env user conversationId content s)
  end.

Inductive Action :=
| request (env : Env) (user : User) (req : Request)
| connection (t : Time) (token : option Token)
| socket_event (t : Time) (i : nat) (ev : ClientEvent).

Definition perform (fuel : nat) (a : Action) (s : System) : option System :=
  match a with
  | request env user req => snd <$> handle fuel env user req s
  | connection t token => Some (connect t token s)
  | socket_event t i ev => Some (socket_on t i ev s)
  end.

(** The states a sequence of actions goes through, one after each action. *)
Fixpoint run (fuel : nat) (acts : list Action) (s : System)
    : option (list System) :=
  match acts with
  | [] => Some []
  | a :: acts' =>
      s' ← perform fuel a s;
      tr ← run fuel acts' s';
      Some (s' :: tr)
  end.

(** The server after start-up: [initializeSocket] has run, no conversation
    has been opened yet. *)
Definition startup (e : ProcessEnv) (us : list User) : System :=
  mkSystem e (mkStore us [] [] []) (Some []) [].

(** *** Observations *)

Definition find_conversation (id : uuid) (s : System) : option Conversation :=
  head (where_id id (conversations (db s))).

Definition status_of (id : uuid) (s : System) : option ConvStatus :=
  conv_status <$> find_conversation id s.

(** The statuses a conversation shows along a run, while it exists. *)
Definition history (id : uuid) (tr : list System) : list ConvStatus :=
  omap (status_of id) tr.

(** The status transition sequence: a history without its repetitions. *)
Fixpoint transitions (h : list ConvStatus) : list ConvStatus :=
  match h with
  | [] => []
  | x :: h' =>
      match transitions h' with
      | y :: t => if decide (x = y) then y :: t else x :: y :: t
      | [] => [x]
      end
  end.

(** The invariant of the lifecycle: a pending conversation has no
    attendant. *)
Definition pending_unassigned (st : Store) : Prop :=
  Forall (λ c, conv_status c = pending → conv_attendantId c = None)
    (conversations st).

(** The messages of a conversation, as the ledger holds them. *)
Definition ledger (id : uuid) (s : System) : list Message :=
  filter (λ m, msg_conversationId m = id) (messages (db s)).

(** The [message:new] events a connection has received. *)
Definition is_message_new (ev : ServerEvent) : bool :=
  match ev with
  | message_new _ _ _ _ _ => true
  | _ => false
  end.

Definition received_message_new (sk : Socket) : list ServerEvent :=
  filter (λ ev, is_message_new ev = true) (sock_received sk).

(** ** Predicates of the specification *)

(** A protocol code: thirteen characters among 0-9 and A-F. *)
Definition is_hex_digit (a : Ascii.ascii) : bool :=
  let n := Ascii.nat_of_ascii a in
  (48 <=? n) && (n <=? 57) || (65 <=? n) && (n <=? 70).

Fixpoint all_chars (p : Ascii.ascii → bool) (s : string) : bool :=
  match s with
  | EmptyString => true
  | String a s' => p a && all_chars p s'
  end.

Definition matches_hex13 (s : string) : bool :=
  bool_decide (String.length s = 13) && all_chars is_hex_digit s.

(** The steps of the lifecycle: a status stays, or moves forward. *)
Definition allowed_step (a b : ConvStatus) : bool :=
  match a, b with
  | pending, _ => true
  | active, active | active, closed => true
  | closed, closed => true
  | _, _ => false
  end.

(** The transition sequences of a conversation that is at status [o]
    ([None]: not created yet). *)
Definition continuations (o : option ConvStatus) : list (list ConvStatus) :=
  match o with
  | None =>
      [[]; [pending]; [pending; active]; [pending; closed];
       [pending; active; closed]]
  | Some pending =>
      [[pending]; [pending; active]; [pending; closed];
       [pending; active; closed]]
  | Some active => [[active]; [active; closed]]
  | Some closed => [[closed]]
  end.

(** What one action may do to the table of conversations. *)
Inductive ConvEffect (cs : list Conversation) : list Conversation → Prop :=
| effect_none : ConvEffect cs cs
| effect_create c :
    conv_status c = pending → conv_attendantId c = None →
    ConvEffect cs (cs ++ [c])
| effect_assign id a t c :
    head (where_id id cs) = Some c → conv_status c = pending →
    ConvEffect cs (update_where_id id (assigned_to a t) cs)
| effect_close id t : ConvEffect cs (update_where_id id (closed_at t) cs)
| effect_touch id t : ConvEffect cs (update_where_id id (touched_at t) cs).

(** Who may close a conversation. *)
Definition may_close (user : User) (c : Conversation) : Prop :=
  (user_role user = client → conv_clientId c = user_id user)
  ∧ (user_role user = attendant → conv_attendantId c = Some (user_id user)).

(** Who may append to the ledger of a conversation. *)
Definition may_write (user : User) (c : Conversation) : Prop :=
  (user_role user = client →
   conv_clientId c = user_id user ∧ conv_status c = active)
  ∧ (user_role user = attendant →
     conv_attendantId c = Some (user_id user)).

(** Which conversations a requester sees in the list. *)
Definition visible_to (user : User) (c : Conversation) : Prop :=
  match user_role user with
  | client => conv_clientId c = user_id user
  | attendant =>
      conv_status c = pending ∨ conv_attendantId c = Some (user_id user)
  | admin => True
  end.

Definition passes_filter (status : option ConvStatus) (c : Conversation)
    : Prop :=
  match status with
  | Some st => conv_status c = st
  | None => True
  end.

#[global] Instance visible_to_dec user c : Decision (visible_to user c).
Proof. unfold visible_to. destruct (user_role user); apply _. Defined.
#[global] Instance passes_filter_dec status c : Decision (passes_filter status c).
Proof. unfold passes_filter. destruct status; apply _. Defined.

(** ** The read routes of a single conversation *)

(** [GET /conversations/:id] in server/routes/conversations.ts and
    [GET /messages/conversation/:conversationId] in
    server/routes/messages.ts.  Neither writes; each is a function of the
    state to an answer. *)

Record SenderInfo := mkSenderInfo { snd_id : uuid; snd_name : string }.

(** The columns of a message that [GET /conversations/:id] selects. *)
Record MessageRow := mkMessageRow {
  row_id : uuid;
  row_content : string;
  row_senderId : uuid;
  row_createdAt : Time
}.

Definition message_row (m : Message) : MessageRow :=
  mkMessageRow (msg_id m) (msg_content m) (msg_senderId m) (msg_createdAt m).

Record ConversationDetail := mkConversationDetail {
  cd_conv : Conversation;
  cd_client : option UserInfo;
  cd_attendant : option UserInfo;
  cd_messages : list (MessageRow * option SenderInfo)
}.

Inductive ReadBody :=
| read_error (error : string)
| read_conversation (d : ConversationDetail)
| read_messages (ms : list (Message * option SenderInfo)).

Record ReadResponse := mkReadResponse {
  read_status : nat;
  read_body : ReadBody
}.

Definition createdAt_asc (a b : Message) : Prop :=
  (msg_createdAt a ≤ msg_createdAt b)%N.

#[global] Instance createdAt_asc_dec a b : Decision (createdAt_asc a b).
Proof. unfold createdAt_asc. apply _. Defined.

(** [.from(messages).where(eq(messages.conversationId, id))
     .orderBy(messages.createdAt)] *)
Definition select_messages (id : uuid) (st : Store) : list Message :=
  merge_sort createdAt_asc
    (filter (λ m, msg_conversationId m = id) (messages st)).

Definition select_sender (id : uuid) (st : Store) : option SenderInfo :=
  (λ u, mkSenderInfo (user_id u) (user_name u))
    <$> head (where_user id (users st)).

Definition withSender (st : Store) (m : Message)
    : Message * option SenderInfo :=
  (m, select_sender (msg_senderId m) st).

Definition getConversation (user : User) (id : uuid) (s : System)
    : ReadResponse :=
  match head (where_id id (conversations (db s))) with
  | None => mkReadResponse 404 (read_error "Conversation not found")
  | Some conversation =>
      if decide (user_role user = client
                 ∧ conv_clientId conversation ≠ user_id user)
      then mkReadResponse 403 (read_error "Access denied")
      else if decide (user_role user = attendant
                      ∧ conv_attendantId conversation ≠ Some (user_id user)
                      ∧ conv_status conversation ≠ pending)
      then mkReadResponse 403 (read_error "Access denied")
      else
        let client := select_userInfo (conv_clientId conversation) (db s) in
        let attendant :=
          match conv_attendantId conversation with
          | Some a => select_userInfo a (db s)
          | None => None
          end in
        let conversationMessages := select_messages id (db s) in
        let messagesWithSenders :=
          (λ msg, (message_row msg, select_sender (msg_senderId msg) (db s)))
            <$> conversationMessages in
        mkReadResponse 200
          (read_conversation
             (mkConversationDetail conversation client attendant
                messagesWithSenders))
  end.

Definition getMessages (user : User) (conversationId : uuid) (s : System)
    : ReadResponse :=
  match head (where_id conversationId (conversations (db s))) with
  | None => mkReadResponse 404 (read_error "Conversation not found")
  | Some conversation =>
      if decide (user_role user = client
                 ∧ conv_clientId conversation ≠ user_id user)
      then mkReadResponse 403 (read_error "Access denied")
      else if decide (user_role user = attendant
                      ∧ conv_attendantId conversation ≠ Some (user_id user)
                      ∧ conv_status conversation ≠ pending)
      then mkReadResponse 403 (read_error "Access denied")
      else
        let conversationMessages := select_messages conversationId (db s) in
        mkReadResponse 200
          (read_messages (withSender (db s) <$> conversationMessages))
  end.

(** ** More of server/utils/helpers.ts *)

(** [generateRandomString(length = 32)]: [length] draws from the letters
    and digits.  A length is a natural number here. *)
Definition chars62 : string :=
  "ABCDEFGHIJKLMNOPQRSTUVWXYZabcdefghijklmnopqrstuvwxyz0123456789".

Fixpoint generateRandomString_from (n : nat) (rnd : nat → Fraction)
    (pos : nat) (result : string) : string :=
  match n with
  | 0 => result
  | S n' =>
      generateRandomString_from n' rnd (S pos)
        (result
         +:+ charAt chars62 (floor_mul (rnd pos) (String.length chars62)))
  end.

Definition generateRandomString (length : option nat) (rnd : nat → Fraction)
    (pos : nat) : string :=
  generateRandomString_from (default 32 length) rnd pos "".

Definition is_alphanumeric (a : Ascii.ascii) : bool :=
  let n := Ascii.nat_of_ascii a in
  (48 <=? n) && (n <=? 57) || (65 <=? n) && (n <=? 90)
  || (97 <=? n) && (n <=? 122).

(** [sanitizeInput] in the revision of the helpers that escapes HTML
    entities.  Here the characters matter, so a string is the list of its
    UTF-16 code units. *)
Definition code_units := list N.

Definition units (s : string) : code_units :=
  (λ a, N.of_nat (Ascii.nat_of_ascii a)) <$> String.list_ascii_of_string s.

(** White space and line terminators of ECMAScript, which [trim]
    strips. *)
Definition isWhiteSpace (c : N) : bool :=
  bool_decide (c ∈ [9; 10; 11; 12; 13; 32; 160; 5760; 8232; 8233; 8239;
                    8287; 12288; 65279]%N)
  || ((8192 <=? c) && (c <=? 8202))%N.

Fixpoint trimStart (s : code_units) : code_units :=
  match s with
  | [] => []
  | c :: s' => if isWhiteSpace c then trimStart s' else s
  end.

Definition trim (s : code_units) : code_units :=
  reverse (trimStart (reverse (trimStart s))).

(** [s.replace(/c/g, by)] for a single character [c]. *)
Fixpoint replace_char (c : N) (by_ : code_units) (s : code_units)
    : code_units :=
  match s with
  | [] => []
  | x :: s' => (if decide (x = c) then by_ else [x]) ++ replace_char c by_ s'
  end.

Module escaping.
Definition sanitizeInput (input : code_units) : code_units :=
  replace_char 39 (units "&#039;")
    (replace_char 34 (units "&quot;")
       (replace_char 62 (units "&gt;")
          (replace_char 60 (units "&lt;")
             (replace_char 38 (units "&amp;") (trim input))))).
End escaping.

(** The entity that stands for a character in escaped text. *)
Definition escape (c : N) : code_units :=
  if decide (c = 38%N) then units "&amp;"
  else if decide (c = 60%N) then units "&lt;"
  else if decide (c = 62%N) then units "&gt;"
  else if decide (c = 34%N) then units "&quot;"
  else if decide (c = 39%N) then units "&#039;"
  else [c].

(** ** The conversation page of the client *)

(** [canSendMessage] of the conversation page: [user] is the logged-in
    user, if any, [conversation] the detail the page has loaded, if
    any. *)
Definition canSendMessage (user : option User)
    (conversation : option Conversation) : bool :=
  match conversation with
  | None => false
  | Some conversation =>
      if decide (conv_status conversation = closed) then false
      else if decide (user_role <$> user = Some client
                      ∧ conv_status conversation = pending) then false
      else if decide (user_role <$> user = Some attendant
                      ∧ conv_attendantId conversation ≠ user_id <$> user)
      then false
      else true
  end.

(** ** The socket module of the client *)

(** client/lib/socket.ts keeps one module variable [socket].  A socket of
    the client is modelled by whether the module has left it open and by
    the events the module has emitted on it. *)
Record ClientSocket := mkClientSocket {
  cs_open : bool;
  cs_emitted : list ClientEvent
}.

Record SocketModule := mkSocketModule {
  created : list ClientSocket;   (* every socket [io()] has returned *)
  socket : option nat            (* [let socket: Socket | null] *)
}.

Definition cs_disconnect (sk : ClientSocket) : ClientSocket :=
  mkClientSocket false (cs_emitted sk).

Definition cs_emit (ev : ClientEvent) (sk : ClientSocket) : ClientSocket :=
  mkClientSocket (cs_open sk) (cs_emitted sk ++ [ev]).

Inductive ModuleCall :=
| call_initializeSocket
| call_disconnectSocket
| call_joinConversation (conversationId : string)
| call_leaveConversation (conversationId : string)
| call_sendMessage (conversationId content : string)
| call_startTyping (conversationId : string)
| call_stopTyping (conversationId : string).

Definition emit_if_socket (ev : ClientEvent) (m : SocketModule)
    : SocketModule :=
  match socket m with
  | Some i => mkSocketModule (alter (cs_emit ev) i (created m)) (socket m)
  | None => m
  end.

Definition module_call (c : ModuleCall) (m : SocketModule) : SocketModule :=
  match c with
  | call_initializeSocket =>
      let old :=
        match socket m with
        | Some i => alter cs_disconnect i (created m)
        | None => created m
        end in
      mkSocketModule (old ++ [mkClientSocket true []]) (Some (length old))
  | call_disconnectSocket =>
      match socket m with
      | Some i => mkSocketModule (alter cs_disconnect i (created m)) None
      | None => m
      end
  | call_joinConversation id => emit_if_socket (on_join_conversation id) m
  | call_leaveConversation id => emit_if_socket (on_leave_conversation id) m
  | call_sendMessage id content => emit_if_socket (on_message_send id content) m
  | call_startTyping id => emit_if_socket (on_typing_start id) m
  | call_stopTyping id => emit_if_socket (on_typing_stop id) m
  end.

Definition module_calls (cs : list ModuleCall) (m : SocketModule)
    : SocketModule :=
  foldl (λ m c, module_call c m) m cs.

(** The module as loaded: [let socket: Socket | null = null]. *)
Definition module_loaded : SocketModule := mkSocketModule [] None.

(** A socket of the client is open exactly if it is the current one. *)
Definition module_wf (m : SocketModule) : Prop :=
  ∀ i sk, created m !! i = Some sk →
          (cs_open sk = true ↔ socket m = Some i).

(** ** server/routes/auth.ts and [requireRole] *)

(** [requireRole(...roles)]: the answer that ends the request, or [None]
    for [next()]. *)
Definition requireRole (roles : list Role) (user : option User)
    : option Response :=
  match user with
  | None => Some (mkResponse 401 (json_error "Not authenticated"))
  | Some user =>
      if decide (user_role user ∈ roles) then None
      else Some (mkResponse 403 (json_error "Insufficient permissions"))
  end.

(** A row of [users] with the column the other handlers do not read. *)
Record Account := mkAccount { acc_user : User; acc_password : string }.

Inductive AuthBody :=
| auth_error (error : string)
| auth_ok (user : User) (token : Token).

Record AuthResponse := mkAuthResponse {
  auth_status : nat;
  auth_body : AuthBody
}.

Inductive AuthEvent :=
| auth_register (userId : uuid) (email : string)
| auth_login (userId : uuid) (email : string).

Definition where_email (email : string) (accounts : list Account)
    : list Account :=
  filter (λ a, user_email (acc_user a) = email) accounts.

Section auth_routes.
(** [bcrypt.hash(password, 10)], with the salt it draws, and
    [bcrypt.compare]. *)
Variable bcrypt_hash : string → string → string.
Variable bcrypt_compare : string → string → bool.

(** [POST /register]: the answer, the table and the events dispatched. *)
Definition postRegister (e : ProcessEnv) (env : Env) (salt : string)
    (name email password : option string) (role : option Role)
    (accounts : list Account)
    : AuthResponse * list Account * list AuthEvent :=
  let role := default client role in
  if negb (truthy name) || negb (truthy email) || negb (truthy password)
  then (mkAuthResponse 400
          (auth_error "Name, email and password are required"),
        accounts, [])
  else
    let name := default "" name in
    let email := default "" email in
    let password := default "" password in
    let existing := where_email email accounts in
    if decide (0 < length existing)
    then (mkAuthResponse 400 (auth_error "Email already registered"),
          accounts, [])
    else
      let hashedPassword := bcrypt_hash password salt in
      let user := mkUser (defaultRandom env 0) email role name in
      let token := generateToken e (now env) (user_id user) in
      (mkAuthResponse 201 (auth_ok user token),
       accounts ++ [mkAccount user hashedPassword],
       [auth_register (user_id user) (user_email user)]).

(** [POST /login] *)
Definition postLogin (e : ProcessEnv) (env : Env)
    (email password : option string) (accounts : list Account)
    : AuthResponse * list AuthEvent :=
  if negb (truthy email) || negb (truthy password)
  then (mkAuthResponse 400 (auth_error "Email and password are required"), [])
  else
    let email := default "" email in
    let password := default "" password in
    match head (where_email email accounts) with
    | None => (mkAuthResponse 401 (auth_error "Invalid credentials"), [])
    | Some account =>
        if bcrypt_compare password (acc_password account)
        then
          let user := acc_user account in
          let token := generateToken e (now env) (user_id user) in
          (mkAuthResponse 200 (auth_ok user token),
           [auth_login (user_id user) (user_email user)])
        else (mkAuthResponse 401 (auth_error "Invalid credentials"), [])
    end.
End auth_routes.

(** ** The outcomes of a request *)

(** What a request may answer and do: a read, a refusal that changes
    nothing, or one of the four writes. *)
Inductive Outcome (env : Env) (user : User) (s : System)
    : Request → Response → System → Prop :=
| outcome_list status cs :
    Outcome env user s (GET_conversations status)
      (mkResponse 200 (json_conversations cs)) s
| outcome_refused req code error :
    code ∈ [400; 403; 404] →
    Outcome env user s req (mkResponse code (json_error error)) s
| outcome_created channelId initialMessage protocol s' :
    user_role user = client →
    where_protocol protocol (conversations (db s)) = [] →
    (∃ pos, protocol = generateProtocol (Math_random env) pos) →
    let c :=
      mkConversation (defaultRandom env 0) protocol channelId (user_id user)
        None pending (now env) (now env) in
    db s'
    = mkStore (users (db s)) (conversations (db s) ++ [c])
        (messages (db s)
         ++ (if truthy initialMessage
             then [mkMessage (defaultRandom env 2) (defaultRandom env 0)
                     (user_id user) (default "" initialMessage) (now env)]
             else []))
        (protocols (db s)
         ++ [mkProtocol (defaultRandom env 1) protocol (defaultRandom env 0)
               (now env)]) →
    dispatched s' = dispatched s ++ [conversation_created c] →
    io s' = io s → process_env s' = process_env s →
    Outcome env user s (POST_conversations channelId initialMessage)
      (mkResponse 201 (json_conversation c)) s'
| outcome_assigned id c s' :
    user_role user = attendant ∨ user_role user = admin →
    find_conversation id s = Some c →
    conv_status c = pending →
    db s'
    = set_conversations
        (update_where_id id (assigned_to (user_id user) (now env))) (db s) →
    dispatched s' = dispatched s ++ [conversation_assigned id (user_id user)] →
    io s' = io s → process_env s' = process_env s →
    Outcome env user s (POST_assign id)
      (mkResponse 200
         (json_conversation (assigned_to (user_id user) (now env) c))) s'
| outcome_closed id c s' :
    find_conversation id s = Some c →
    may_close user c →
    db s' = set_conversations (update_where_id id (closed_at (now env))) (db s) →
    dispatched s' = dispatched s ++ [conversation_closed id] →
    io s' = io s → process_env s' = process_env s →
    Outcome env user s (POST_close id)
      (mkResponse 200 (json_conversation (closed_at (now env) c))) s'
| outcome_appended cid text c s' :
    cid ≠ "" → text ≠ "" →
    find_conversation cid s = Some c →
    may_write user c →
    let m := mkMessage (defaultRandom env 0) cid (user_id user) text (now env) in
    db s'
    = set_conversations (update_where_id cid (touched_at (now env)))
        (insert_message m (db s)) →
    dispatched s'
    = dispatched s ++ [message_created (defaultRandom env 0) cid (user_id user)] →
    io s' = io s → process_env s' = process_env s →
    Outcome env user s (POST_messages (Some cid) (Some text))
      (mkResponse 201 (json_message m (user_id user) (user_name user))) s'.

(** An action whose draws of [Math.random] lie in [0, 1). *)
Definition well_drawn (a : Action) : Prop :=
  match a with
  | request env _ _ => ∀ n, unit_interval (Math_random env n)
  | _ => True
  end.

(** The columns of a conversation that no handler writes after creation. *)
Definition identity (c : Conversation)
    : uuid * string * option uuid * uuid * Time :=
  (conv_id c, conv_protocol c, conv_channelId c, conv_clientId c,
   conv_createdAt c).


(** The rooms of a connection: an open one is in its personal room and in
    the room of its role, and beside these in rooms of conversations only;
    a closed one is in no room. *)
Definition socket_wf (sk : Socket) : Prop :=
  if sock_connected sk
  then room_user (user_id (sock_user sk)) ∈ sock_rooms sk
       ∧ room_role (user_role (sock_user sk)) ∈ sock_rooms sk
       ∧ ∀ r, r ∈ sock_rooms sk →
              r = room_user (user_id (sock_user sk))
              ∨ r = room_role (user_role (sock_user sk))
              ∨ ∃ c, r = room_conversation c
  else sock_rooms sk = [].

Definition gateway_wf (s : System) : Prop :=
  match io s with
  | Some srv => Forall socket_wf srv
  | None => True
  end.

(** A handshake that carries no token or a token of the application. *)
Definition app_issued (a : Action) : Prop :=
  match a with
  | connection _ (Some token) => ∃ e t0 uid, token = generateToken e t0 uid
  | _ => True
  end.

(** ** Requests that overlap *)

(** A route handler is an [async] function.  At each [await] it gives way
    and the handlers of other requests go on before it is resumed: the
    store is read and written one query at a time, not one request at a
    time, and no handler opens a transaction.  A [Stage] is where a
    handler stands: the [await] it is suspended at, with the local
    variables that the rest of the handler reads.  [handle] above is the
    case in which a handler is resumed until it has answered before
    anything else happens. *)
Inductive Stage :=
| answered (r : Response)
(* GET / *)
| list_select (user : User) (status : option ConvStatus)
(* POST / *)
| create_select (env : Env) (user : User) (channelId : option uuid)
    (initialMessage : option string) (pos : nat)
| create_conversation (env : Env) (user : User) (channelId : option uuid)
    (initialMessage : option string) (protocol : string)
| create_protocol (env : Env) (user : User) (initialMessage : option string)
    (conversation : Conversation)
| create_message (env : Env) (user : User) (initialMessage : option string)
    (conversation : Conversation)
| create_webhook (conversation : Conversation)
(* POST /:id/assign *)
| assign_select (user : User) (id : uuid)
| assign_update (user : User) (id : uuid) (updatedAt : Time)
| assign_webhook (user : User) (updated : Conversation)
(* POST /:id/close *)
| close_select (user : User) (id : uuid)
| close_update (id : uuid) (updatedAt : Time)
| close_webhook (updated : Conversation)
(* POST /messages *)
| message_select (env : Env) (user : User) (conversationId content : string)
| message_insert (env : Env) (user : User) (conversationId content : string)
| message_update (user : User) (message : Message) (updatedAt : Time)
| message_webhook (user : User) (message : Message).

(** The handler of a request from its call to its first [await]. *)
Definition arrive (env : Env) (user : User) (req : Request) : Stage :=
  match req with
  | GET_conversations status => list_select user status
  | POST_conversations channelId initialMessage =>
      if decide (user_role user ≠ client)
      then answered
             (mkResponse 403
                (json_error "Only clients can create conversations"))
      else create_select env user channelId initialMessage 0
  | POST_assign id =>
      if decide (user_role user ≠ attendant ∧ user_role user ≠ admin)
      then answered
             (mkResponse 403
                (json_error
                   "Only attendants and admins can assign conversations"))
      else assign_select user id
  | POST_close id => close_select user id
  | POST_messages conversationId content =>
      if negb (truthy conversationId) || negb (truthy content)
      then answered
             (mkResponse 400
                (json_error "Conversation ID and content are required"))
      else message_select env user (default "" conversationId)
             (default "" content)
  end.

(** One resumption at time [t]: the store performs the query the handler
    awaits, and the handler runs on to its next [await] or to its answer.
    A [new Date()] of the handler and a [defaultNow()] of the store are
    both read at [t]; an [updatedAt] is computed when the update is
    issued, one resumption before the store performs it.  The list only
    reads, and its selects are taken together.  The store refuses a
    second conversation with a protocol code it already holds
    ([protocol ... unique()] in the schema), which an overlapping create
    can bring about; the refused insert ends in the [catch] of the
    handler. *)
Definition resume (t : Time) (h : Stage) (s : System) : Stage * System :=
  match h with
  | answered r => (answered r, s)
  | list_select user status =>
      (answered (getConversations user status s).1, s)
  | create_select env user channelId initialMessage pos =>
      let protocol := generateProtocol (Math_random env) pos in
      let existing := where_protocol protocol (conversations (db s)) in
      if decide (0 < length existing)
      then (create_select env user channelId initialMessage (pos + 13), s)
      else (create_conversation env user channelId initialMessage protocol, s)
  | create_conversation env user channelId initialMessage protocol =>
      if decide (0 < length (where_protocol protocol (conversations (db s))))
      then (answered
              (mkResponse 500 (json_error "Failed to create conversation")),
            s)
      else
        let conversation :=
          mkConversation (defaultRandom env 0) protocol channelId
            (user_id user) None pending t t in
        (create_protocol env user initialMessage conversation,
         set_db (set_conversations (λ cs, cs ++ [conversation])) s)
  | create_protocol env user initialMessage conversation =>
      (if truthy initialMessage
       then create_message env user initialMessage conversation
       else create_webhook conversation,
       set_db (insert_protocol
                 (mkProtocol (defaultRandom env 1) (conv_protocol conversation)
                    (conv_id conversation) t)) s)
  | create_message env user initialMessage conversation =>
      (create_webhook conversation,
       set_db (insert_message
                 (mkMessage (defaultRandom env 2) (conv_id conversation)
                    (user_id user) (default "" initialMessage) t)) s)
  | create_webhook conversation =>
      (answered (mkResponse 201 (json_conversation conversation)),
       triggerWebhook (conversation_created conversation) s)
  | assign_select user id =>
      match head (where_id id (conversations (db s))) with
      | None =>
          (answered (mkResponse 404 (json_error "Conversation not found")), s)
      | Some conversation =>
          if decide (conv_status conversation ≠ pending)
          then (answered
                  (mkResponse 400 (json_error "Conversation is not pending")),
                s)
          else (assign_update user id t, s)
      end
  | assign_update user id updatedAt =>
      let s1 :=
        set_db (set_conversations
                  (update_where_id id (assigned_to (user_id user) updatedAt)))
          s in
      match head (where_id id (conversations (db s1))) with
      | None =>
          (answered
             (mkResponse 500 (json_error "Failed to assign conversation")),
           s1)
      | Some updated => (assign_webhook user updated, s1)
      end
  | assign_webhook user updated =>
      (answered (mkResponse 200 (json_conversation updated)),
       triggerWebhook (conversation_assigned (conv_id updated) (user_id user))
         s)
  | close_select user id =>
      match head (where_id id (conversations (db s))) with
      | None =>
          (answered (mkResponse 404 (json_error "Conversation not found")), s)
      | Some conversation =>
          if decide (user_role user = client
                     ∧ conv_clientId conversation ≠ user_id user)
          then (answered (mkResponse 403 (json_error "Access denied")), s)
          else if decide (user_role user = attendant
                          ∧ conv_attendantId conversation
                            ≠ Some (user_id user))
          then (answered (mkResponse 403 (json_error "Access denied")), s)
          else (close_update id t, s)
      end
  | close_update id updatedAt =>
      let s1 :=
        set_db (set_conversations (update_where_id id (closed_at updatedAt)))
          s in
      match head (where_id id (conversations (db s1))) with
      | None =>
          (answered
             (mkResponse 500 (json_error "Failed to close conversation")),
           s1)
      | Some updated => (close_webhook updated, s1)
      end
  | close_webhook updated =>
      (answered (mkResponse 200 (json_conversation updated)),
       triggerWebhook (conversation_closed (conv_id updated)) s)
  | message_select env user conversationId content =>
      match head (where_id conversationId (conversations (db s))) with
      | None =>
          (answered (mkResponse 404 (json_error "Conversation not found")), s)
      | Some conversation =>
          if decide (user_role user = client
                     ∧ conv_clientId conversation ≠ user_id user)
          then (answered (mkResponse 403 (json_error "Access denied")), s)
          else if decide (user_role user = client
                          ∧ conv_status conversation ≠ active)
          then (answered
                  (mkResponse 400
                     (json_error "Conversation is not active yet")),
                s)
          else if decide (user_role user = attendant
                          ∧ conv_attendantId conversation
                            ≠ Some (user_id user))
          then (answered (mkResponse 403 (json_error "Access denied")), s)
          else (message_insert env user conversationId content, s)
      end
  | message_insert env user conversationId content =>
      let message :=
        mkMessage (defaultRandom env 0) conversationId (user_id user) content
          t in
      (message_update user message t, set_db (insert_message message) s)
  | message_update user message updatedAt =>
      (message_webhook user message,
       set_db (set_conversations
                 (update_where_id (msg_conversationId message)
                    (touched_at updatedAt))) s)
  | message_webhook user message =>
      (answered
         (mkResponse 201
            (json_message message (user_id user) (user_name user))),
       triggerWebhook
         (message_created (msg_id message) (msg_conversationId message)
            (user_id user)) s)
  end.

(** A handler resumed [k] times in a row, the clock standing at [t]. *)
Fixpoint uninterrupted (k : nat) (t : Time) (h : Stage) (s : System)
    : Stage * System :=
  match k with
  | 0 => (h, s)
  | S k' => let '(h', s') := resume t h s in uninterrupted k' t h' s'
  end.

(** The server process: the system and the handlers in flight, by number
    of arrival. *)
Record Process := mkProcess {
  sys : System;
  in_flight : list Stage
}.

(** What the event loop takes up next: a request that has passed
    [authenticate], the result of the query that handler [i] awaits, a
    handshake or an event from a connection. *)
Inductive Event :=
| arrival (env : Env) (user : User) (req : Request)
| resumption (i : nat) (t : Time)
| handshake (t : Time) (token : option Token)
| from_socket (t : Time) (i : nat) (ev : ClientEvent).

Definition occur (e : Event) (p : Process) : Process :=
  match e with
  | arrival env user req =>
      mkProcess (sys p) (in_flight p ++ [arrive env user req])
  | resumption i t =>
      match in_flight p !! i with
      | Some h =>
          let '(h', s') := resume t h (sys p) in
          mkProcess s' (<[i := h']> (in_flight p))
      | None => p
      end
  | handshake t token => mkProcess (connect t token (sys p)) (in_flight p)
  | from_socket t i ev => mkProcess (socket_on t i ev (sys p)) (in_flight p)
  end.

(** The processes a sequence of events goes through, one after each
    event. *)
Fixpoint overlapped (evs : list Event) (p : Process) : list Process :=
  match evs with
  | [] => []
  | e :: evs' => let p' := occur e p in p' :: overlapped evs' p'
  end.

(** The process a sequence of events ends in. *)
Definition finally (evs : list Event) (p : Process) : Process :=
  default p (last (overlapped evs p)).

(** The handler has passed the guard of assign for conversation [id] and
    awaits its update. *)
Definition about_to_assign (id : uuid) (h : Stage) : bool :=
  match h with
  | assign_update _ id' _ => bool_decide (id' = id)
  | _ => false
  end.

(** The conversation has left pending, with the attendant of [c] and a
    status that the status of [c] may step to, and no handler in flight
    is about to assign it. *)
Definition settled (id : uuid) (c : Conversation) (p : Process) : Prop :=
  Forall (λ h, about_to_assign id h = false) (in_flight p)
  ∧ ∃ c',
      find_conversation id (sys p) = Some c'
      ∧ conv_attendantId c' = conv_attendantId c
      ∧ conv_status c' ≠ pending
      ∧ allowed_step (conv_status c) (conv_status c') = true.

(** What one query may do to the table of conversations. *)
Inductive ConvWrite (cs : list Conversation) : list Conversation → Prop :=
| write_none : ConvWrite cs cs
| write_insert c :
    conv_status c = pending → conv_attendantId c = None →
    ConvWrite cs (cs ++ [c])
| write_assign id a t : ConvWrite cs (update_where_id id (assigned_to a t) cs)
| write_close id t : ConvWrite cs (update_where_id id (closed_at t) cs)
| write_touch id t : ConvWrite cs (update_where_id id (touched_at t) cs).

(** The transition sequences that begin at status [o] ([None]: not created
    yet) and never come back to pending. *)
Definition leaves_pending_for_good (o : option ConvStatus)
    (T : list ConvStatus) : Prop :=
  match o with
  | None => T = [] ∨ ∃ T', T = pending :: T' ∧ pending ∉ T'
  | Some st => ∃ T', T = st :: T' ∧ pending ∉ T'
  end.

(** ** Sample data *)

Module sample.
Definition alice : User := mkUser "u-alice" "alice@example.org" client "Alice".
Definition carol : User := mkUser "u-carol" "carol@example.org" client "Carol".
Definition bob : User := mkUser "u-bob" "bob@example.org" attendant "Bob".
Definition dave : User := mkUser "u-dave" "dave@example.org" attendant "Dave".
Definition root : User := mkUser "u-root" "root@example.org" admin "Root".

Definition penv : ProcessEnv := mkProcessEnv (Some "s3cret") None.

(** Draws 0/16, 1/16, 2/16, ... of [Math.random]. *)
Definition rnd (n : nat) : Fraction := mkFraction (n `mod` 16) 16.

Definition env (t : Time) (key : string) : Env :=
  mkEnv t rnd (λ n, key +:+ charAt chars n).

Definition s0 : System := startup penv [alice; carol; bob; dave; root].

(** The state a sequence of actions ends in. *)
Definition after (acts : list Action) (s : System) : System :=
  default s (run 4 acts s ≫= last).

Definition create : Action :=
  request (env 10 "c") alice (POST_conversations None (Some "hello")).
Definition assign : Action := request (env 20 "a") bob (POST_assign "c0").
Definition close : Action := request (env 30 "x") bob (POST_close "c0").
Definition close_early : Action :=
  request (env 15 "x") alice (POST_close "c0").
Definition say (t : Time) (u : User) (text : string) : Action :=
  request (env t "m") u (POST_messages (Some "c0") (Some text)).
Definition listen (t : Time) (u : User) : list Action :=
  [connection t (Some (generateToken penv 0 (user_id u)));
   socket_event t 0 (on_join_conversation "c0")].

Definition s_pending : System := after [create] s0.
Definition s_active : System := after [create; assign] s0.
Definition s_closed : System := after [create; assign; close] s0.
Definition s_listening : System := after (create :: assign :: listen 25 bob) s0.
(** Overlapping requests.  The conversation "c0" is created; bob's assign
    reads it as pending; alice closes it; bob's assign, resumed, writes. *)
Definition opened : list Event :=
  [arrival (env 10 "c") alice (POST_conversations None (Some "hello"));
   resumption 0 10; resumption 0 10; resumption 0 10; resumption 0 10;
   resumption 0 10].
Definition assign_reads : list Event :=
  [arrival (env 20 "a") bob (POST_assign "c0"); resumption 1 20].
Definition close_meanwhile : list Event :=
  [arrival (env 21 "x") alice (POST_close "c0");
   resumption 2 21; resumption 2 22; resumption 2 23].
Definition assign_writes : list Event := [resumption 1 24; resumption 1 25].
Definition late_assign : list Event :=
  opened ++ assign_reads ++ close_meanwhile ++ assign_writes.

(** Two attendants take the same pending conversation at once. *)
Definition double_assign : list Event :=
  opened
  ++ [arrival (env 20 "a") bob (POST_assign "c0");
      arrival (env 20 "b") dave (POST_assign "c0");
      resumption 1 20; resumption 2 20;
      resumption 1 21; resumption 2 22;
      resumption 1 23; resumption 2 23].

Definition p0 : Process := mkProcess s0 [].

(** bob has taken "c0"; then dave tries to, and bob closes it. *)
Definition p_assigned : Process :=
  finally (opened
           ++ [arrival (env 20 "a") bob (POST_assign "c0");
               resumption 1 20; resumption 1 20; resumption 1 20]) p0.
Definition dave_tries : list Event :=
  [arrival (env 21 "a") dave (POST_assign "c0");
   resumption 2 21; resumption 2 22;
   arrival (env 30 "x") bob (POST_close "c0");
   resumption 3 30; resumption 3 31; resumption 3 32].
End sample.

(** * Properties *)

(** ** The model at work *)

Example generateProtocol_sample :
  generateProtocol sample.rnd 0 = "0123456789ABC"
  ∧ generateProtocol sample.rnd 13 = "DEF0123456789".
Proof. split; reflexivity. Qed.

(** A conversation from creation to closure: the client opens it with a
    first message, the attendant takes it, both write, the attendant
    closes it, and the client cannot write any more. *)
Example lifecycle_scenario :
  let acts :=
    [sample.create; sample.assign; sample.say 22 sample.alice "thanks";
     sample.say 23 sample.bob "welcome"; sample.close] in
  let s := sample.after acts sample.s0 in
  (λ c, (conv_protocol c, conv_clientId c, conv_attendantId c, conv_status c))
    <$> conversations (db s)
  = [("0123456789ABC", "u-alice", Some "u-bob", closed)]
  ∧ (λ m, (msg_senderId m, msg_content m)) <$> ledger "c0" s
    = [("u-alice", "hello"); ("u-alice", "thanks"); ("u-bob", "welcome")]
  ∧ res_status
      (postMessage (sample.env 31 "m") sample.alice (Some "c0") (Some "?") s).1
    = 400.
Proof. vm_compute. repeat split. Qed.

(** ** Lookups and updates by key *)

Section tables.
Implicit Types (cs : list Conversation) (c : Conversation) (id : uuid).

Lemma where_id_app id cs cs' :
  where_id id (cs ++ cs') = where_id id cs ++ where_id id cs'.
Proof. apply filter_app. Qed.

Lemma where_id_update id id' f cs :
  (∀ c, conv_id (f c) = conv_id c) →
  where_id id (update_where_id id' f cs)
  = update_where_id id' f (where_id id cs).
Proof.
  intros Hf. unfold where_id, update_where_id.
  induction cs as [|c cs IH]; [done|].
  rewrite fmap_cons, !filter_cons.
  destruct (decide (conv_id c = id')) as [Heq|Hne].
  - rewrite Hf. destruct (decide (conv_id c = id)); simpl; [|done].
    rewrite decide_True by done. by f_equal.
  - destruct (decide (conv_id c = id)); simpl; [|done].
    rewrite decide_False by done. by f_equal.
Qed.

Lemma head_where_id_spec id cs c :
  head (where_id id cs) = Some c → c ∈ cs ∧ conv_id c = id.
Proof.
  intros H. apply head_Some_elem_of in H.
  by apply list_elem_of_filter in H as [? ?].
Qed.

(** What [update ... where id = id' ... returning] leaves under key [id]. *)
Lemma head_where_id_update id id' f cs :
  (∀ c, conv_id (f c) = conv_id c) →
  head (where_id id (update_where_id id' f cs))
  = (λ c, if decide (id = id') then f c else c) <$> head (where_id id cs).
Proof.
  intros Hf. rewrite where_id_update by done.
  destruct (where_id id cs) as [|c l] eqn:E; [done|]. simpl.
  assert (conv_id c = id) as Hc.
  { apply (head_where_id_spec id cs). by rewrite E. }
  rewrite Hc. by destruct (decide (id = id')).
Qed.

Lemma head_where_id_snoc id cs c :
  head (where_id id (cs ++ [c]))
  = match head (where_id id cs) with
    | Some c' => Some c'
    | None => if decide (conv_id c = id) then Some c else None
    end.
Proof.
  rewrite where_id_app. destruct (where_id id cs) as [|c' l]; simpl; [|done].
  unfold where_id. rewrite filter_cons. by destruct (decide (conv_id c = id)).
Qed.

Lemma update_where_id_lookup id f cs (i : nat) :
  update_where_id id f cs !! i
  = (λ c, if decide (conv_id c = id) then f c else c) <$> cs !! i.
Proof. unfold update_where_id. apply list_lookup_fmap. Qed.
End tables.

(** The three updates the handlers make keep the key of the row. *)
Ltac keeps_id := intros []; reflexivity.

(** Case analysis along the guards of a handler. *)
Ltac guards :=
  repeat (case_decide || case_match); unfold reply in *; simplify_eq/=;
  try done.

(** Guards that have been decided against the facts in the context. *)
Ltac contradictory_guards :=
  exfalso;
  solve [ match goal with
          | H : ¬ (_ ∧ _) |- _ => apply H; split; congruence
          | H : _ ∧ _ |- _ => destruct H; congruence
          end ].

(** ** Assignment of a conversation that is not pending *)

(** C3: assigning a conversation whose status is not pending, as an
    attendant or an admin, is answered with 400 and the whole state,
    hence the attendant and the status of the conversation, is left as
    it was. *)
Theorem assign_not_pending_rejected fuel env user id s c :
  user_role user = attendant ∨ user_role user = admin →
  find_conversation id s = Some c →
  conv_status c ≠ pending →
  handle fuel env user (POST_assign id) s
  = Some (mkResponse 400 (json_error "Conversation is not pending"), s).
Proof.
  intros Hrole Hfind Hst. simpl. unfold postAssign, find_conversation in *.
  rewrite Hfind.
  rewrite decide_False; [|intros [? ?]; destruct Hrole; congruence].
  by rewrite decide_True.
Qed.

Lemma assign_not_pending_rejected_witness :
  handle 1 (sample.env 40 "a") sample.dave (POST_assign "c0") sample.s_active
  = Some (mkResponse 400 (json_error "Conversation is not pending"),
          sample.s_active).
Proof.
  eapply assign_not_pending_rejected.
  - left. reflexivity.
  - vm_compute. reflexivity.
  - vm_compute. discriminate.
Defined.

(** ** Closing a conversation *)


Lemma postClose_denied env user id s c :
  find_conversation id s = Some c →
  ¬ may_close user c →
  postClose env user id s = (mkResponse 403 (json_error "Access denied"), s).
Proof.
  unfold postClose, find_conversation, may_close. intros -> Hno.
  do 2 (case_decide; [done|]). exfalso. apply Hno. split; intros Hr.
  - destruct (decide (conv_clientId c = user_id user)); [done|]. naive_solver.
  - destruct (decide (conv_attendantId c = Some (user_id user))); [done|].
    naive_solver.
Qed.

Lemma postClose_granted env user id s c :
  find_conversation id s = Some c →
  may_close user c →
  postClose env user id s
  = (mkResponse 200 (json_conversation (closed_at (now env) c)),
     triggerWebhook (conversation_closed id)
       (set_db (set_conversations
                  (update_where_id id (closed_at (now env)))) s)).
Proof.
  unfold postClose, find_conversation, may_close. intros Hc [Hcl Hat].
  rewrite Hc. apply head_where_id_spec in Hc as Hid. destruct Hid as [_ Hid].
  rewrite decide_False by (intros [? Hn]; apply Hn; auto).
  rewrite decide_False by (intros [? Hn]; apply Hn; auto).
  cbn [set_db set_conversations db conversations].
  rewrite head_where_id_update by keeps_id. rewrite Hc. simpl.
  rewrite decide_True by done. simpl. by rewrite Hid.
Qed.

(** C7: on an existing conversation a close request succeeds exactly when
    the requester is the owning client, the assigned attendant or an
    admin; no guard looks at the status, so closing a conversation that is
    already closed writes status closed and the new update time once
    more, emits [conversation.closed] again and answers 200. *)
Theorem close_authorization_and_reclose fuel env user id s c :
  find_conversation id s = Some c →
  ∃ r s',
    handle fuel env user (POST_close id) s = Some (r, s')
    ∧ (res_status r = 200 ↔ may_close user c)
    ∧ (user_role user = client → res_status r = 200 →
       conv_clientId c = user_id user)
    ∧ (user_role user = attendant → res_status r = 200 →
       conv_attendantId c = Some (user_id user))
    ∧ (user_role user = admin → res_status r = 200)
    ∧ (conv_status c = closed → may_close user c →
       r = mkResponse 200 (json_conversation (closed_at (now env) c))
       ∧ find_conversation id s' = Some (closed_at (now env) c)
       ∧ dispatched s' = dispatched s ++ [conversation_closed id]).
Proof.
  intros Hc. destruct (decide (may_close user c)) as [Hyes|Hno].
  - eexists _, _. split; [simpl; by rewrite (postClose_granted _ _ _ _ c)|].
    split; [by split|]. repeat split; try (intros; apply Hyes; done).
    unfold find_conversation in *. simpl.
    rewrite head_where_id_update by keeps_id. rewrite Hc. simpl.
    by rewrite decide_True.
  - eexists _, _. split; [simpl; by rewrite (postClose_denied _ _ _ _ c)|].
    simpl. split; [split; [discriminate|done]|].
    repeat split; try discriminate; try done.
    intros Hadm. exfalso. apply Hno. split; congruence.
Qed.

Lemma close_authorization_and_reclose_witness :
  ∃ r s',
    handle 1 (sample.env 50 "x") sample.bob (POST_close "c0") sample.s_closed
    = Some (r, s')
    ∧ res_status r = 200
    ∧ status_of "c0" s' = Some closed
    ∧ conv_updatedAt <$> find_conversation "c0" s' = Some 50%N.
Proof.
  destruct (close_authorization_and_reclose 1 (sample.env 50 "x") sample.bob
              "c0" sample.s_closed
              (mkConversation "c0" "0123456789ABC" None "u-alice"
                 (Some "u-bob") closed 10 30))
    as (r & s' & Hh & Hiff & _ & _ & _ & Hre); [vm_compute; reflexivity|].
  exists r, s'. destruct Hre as (Hr & Hf & _); [reflexivity| |].
  - split; [intros H; discriminate H | intros; reflexivity].
  - split; [exact Hh|]. unfold status_of. rewrite Hf, Hr. repeat split.
Defined.

(** ** Appending to the message ledger *)


(** C6: a well-formed append into an existing conversation is accepted
    exactly when the requester is the owning client of an active
    conversation, the assigned attendant (whatever the status), or an
    admin.  Another client's conversation is answered with 403, the
    requester's own conversation that is not active with 400, and in both
    cases nothing is written. *)
Theorem append_authorization fuel env user cid text s c :
  cid ≠ "" → text ≠ "" →
  find_conversation cid s = Some c →
  ∃ r s',
    handle fuel env user (POST_messages (Some cid) (Some text)) s = Some (r, s')
    ∧ (res_status r = 201 ↔ may_write user c)
    ∧ (res_status r = 201 →
       ledger cid s'
       = ledger cid s
         ++ [mkMessage (defaultRandom env 0) cid (user_id user) text (now env)])
    ∧ (res_status r ≠ 201 → s' = s)
    ∧ (user_role user = client → conv_clientId c ≠ user_id user →
       res_status r = 403)
    ∧ (user_role user = client → conv_clientId c = user_id user →
       conv_status c ≠ active → res_status r = 400)
    ∧ (user_role user = attendant →
       conv_attendantId c = Some (user_id user) → res_status r = 201)
    ∧ (user_role user = attendant →
       conv_attendantId c ≠ Some (user_id user) → res_status r = 403)
    ∧ (user_role user = admin → res_status r = 201).
Proof.
  intros Hcid Htext Hc. unfold find_conversation in Hc.
  simpl. unfold postMessage. simpl.
  rewrite !bool_decide_eq_false_2 by done. simpl. rewrite Hc.
  destruct (decide (conv_clientId c = user_id user)),
    (decide (conv_status c = active)),
    (decide (conv_attendantId c = Some (user_id user)));
    destruct (user_role user) eqn:Hrole;
    repeat case_decide;
    try contradictory_guards;
    (eexists _, _; split; [reflexivity|]);
    unfold may_write; rewrite ?Hrole; simpl;
    repeat split; intros; try done; try congruence;
    try (destruct_and?; congruence);
    try (unfold ledger; cbn [db triggerWebhook set_db set_conversations
                               insert_message messages];
         rewrite filter_app, filter_cons, decide_True by done; done);
    exfalso; destruct_and?;
    repeat match goal with
           | H : ?a = ?a → _ |- _ => specialize (H eq_refl)
           end;
    destruct_and?; congruence.
Qed.

Lemma append_authorization_witness :
  ∃ r s',
    handle 1 (sample.env 60 "m") sample.bob
      (POST_messages (Some "c0") (Some "bye")) sample.s_closed = Some (r, s')
    ∧ res_status r = 201
    ∧ length (ledger "c0" s') = 2.
Proof.
  destruct (append_authorization 1 (sample.env 60 "m") sample.bob "c0" "bye"
              sample.s_closed
              (mkConversation "c0" "0123456789ABC" None "u-alice"
                 (Some "u-bob") closed 10 30))
    as (r & s' & Hh & _ & Hl & _ & _ & _ & Hatt & _);
    [discriminate | discriminate | vm_compute; reflexivity |].
  exists r, s'. split; [exact Hh|].
  assert (res_status r = 201) as Hr by (apply Hatt; reflexivity).
  split; [exact Hr|]. rewrite (Hl Hr). vm_compute. reflexivity.
Defined.

(** ** Listing conversations *)


#[global] Instance createdAt_desc_trans : Transitive createdAt_desc.
Proof. unfold createdAt_desc. intros a b c. lia. Qed.
#[global] Instance createdAt_desc_total : Total createdAt_desc.
Proof. unfold createdAt_desc. intros a b. lia. Qed.

Lemma listCondition_spec user status c :
  listCondition user status c = true
  ↔ visible_to user c ∧ passes_filter status c.
Proof.
  unfold listCondition, whereCondition, visible_to, passes_filter,
    eq_status, eq_clientId, eq_attendantId.
  destruct status, (user_role user); simpl;
    rewrite ?andb_true_iff, ?orb_true_iff, ?bool_decide_eq_true; tauto.
Qed.

Lemma cwu_conv_withUsers st (l : list Conversation) :
  cwu_conv <$> (withUsers st <$> l) = l.
Proof.
  induction l as [|c l IH]; [done|]. rewrite !fmap_cons. by rewrite IH.
Qed.

(** C8: the list answer holds, once each and newest first, exactly the
    conversations the requester may see (a client their own, an attendant
    the pending ones and those assigned to them, an admin all of them)
    that also pass the optional status filter. *)
Theorem list_visibility_and_order fuel env user status s :
  ∃ result,
    handle fuel env user (GET_conversations status) s
    = Some (mkResponse 200 (json_conversations result), s)
    ∧ cwu_conv <$> result
      ≡ₚ filter (λ c, visible_to user c ∧ passes_filter status c)
           (conversations (db s))
    ∧ (∀ c, c ∈ cwu_conv <$> result
            ↔ c ∈ conversations (db s)
              ∧ visible_to user c ∧ passes_filter status c)
    ∧ StronglySorted createdAt_desc (cwu_conv <$> result).
Proof.
  eexists. split; [reflexivity|]. rewrite cwu_conv_withUsers.
  unfold select_conversations.
  assert (filter (λ c, listCondition user status c = true)
            (conversations (db s))
          = filter (λ c, visible_to user c ∧ passes_filter status c)
              (conversations (db s))) as ->.
  { apply list_filter_iff. intros c. apply listCondition_spec. }
  split; [apply merge_sort_Permutation|]. split.
  - intros c. rewrite merge_sort_Permutation. rewrite list_elem_of_filter. tauto.
  - apply StronglySorted_merge_sort; apply _.
Qed.

(** ** Protocol codes *)

Lemma floor_mul_lt x n : unit_interval x → 0 < n → floor_mul x n < n.
Proof.
  unfold unit_interval, floor_mul. intros Hx Hn.
  apply Nat.Div0.div_lt_upper_bound. nia.
Qed.

Lemma charAt_chars (i : nat) :
  i < 16 →
  ∃ a, charAt chars i = String a "" ∧ is_hex_digit a = true.
Proof.
  intros Hi.
  do 16 (destruct i as [|i]; [eexists; split; reflexivity|]). lia.
Qed.

Lemma length_app_string (s t : string) :
  String.length (s +:+ t) = String.length s + String.length t.
Proof. induction s as [|a s IH]; simpl; [done|]. by rewrite IH. Qed.

Lemma all_chars_app p (s t : string) :
  all_chars p (s +:+ t) = all_chars p s && all_chars p t.
Proof.
  induction s as [|a s IH]; simpl; [done|]. rewrite IH. by rewrite andb_assoc.
Qed.

Lemma generateProtocol_from_spec n rnd pos acc :
  (∀ k, unit_interval (rnd k)) →
  all_chars is_hex_digit acc = true →
  String.length (generateProtocol_from n rnd pos acc) = String.length acc + n
  ∧ all_chars is_hex_digit (generateProtocol_from n rnd pos acc) = true.
Proof.
  intros Hrnd. revert pos acc. induction n as [|n IH]; intros pos acc Hacc.
  - simpl. split; [lia|done].
  - simpl.
    destruct (charAt_chars (floor_mul (rnd pos) 16)) as (a & Ha & Hhex).
    { apply floor_mul_lt; [apply Hrnd | lia]. }
    rewrite Ha.
    destruct (IH (S pos) (acc +:+ String a "")) as [Hlen Hall].
    { rewrite all_chars_app, Hacc. simpl. by rewrite Hhex. }
    split; [|done]. rewrite Hlen, length_app_string. simpl. lia.
Qed.

Lemma generateProtocol_matches rnd pos :
  (∀ k, unit_interval (rnd k)) →
  matches_hex13 (generateProtocol rnd pos) = true.
Proof.
  intros Hrnd. unfold matches_hex13, generateProtocol.
  destruct (generateProtocol_from_spec 13 rnd pos "" Hrnd eq_refl) as [Hl Ha].
  rewrite Ha, andb_true_r. by apply bool_decide_eq_true.
Qed.

(** The loop answers with a code that it has drawn and that no
    conversation carries. *)
Lemma uniqueProtocol_sound fuel rnd pos cs p :
  uniqueProtocol fuel rnd pos cs = Some p →
  (∃ pos', p = generateProtocol rnd pos') ∧ where_protocol p cs = [].
Proof.
  revert pos. induction fuel as [|fuel IH]; intros pos; simpl; [done|].
  case_decide as Hlen.
  - apply IH.
  - intros [= <-]. split; [by eexists|].
    destruct (where_protocol _ cs); [done|]. simpl in Hlen. lia.
Qed.

(** The loop stops at the first free draw, given fuel to reach it. *)
Lemma uniqueProtocol_complete k rnd pos cs fuel :
  where_protocol (generateProtocol rnd (pos + 13 * k)) cs = [] →
  k < fuel →
  is_Some (uniqueProtocol fuel rnd pos cs).
Proof.
  revert pos fuel. induction k as [|k IH]; intros pos fuel Hfree Hk.
  - destruct fuel as [|fuel]; [lia|]. simpl.
    replace (pos + 13 * 0) with pos in Hfree by lia. rewrite Hfree. simpl.
    by eexists.
  - destruct fuel as [|fuel]; [lia|]. simpl. case_decide; [|done].
    apply IH; [|lia].
    by replace (pos + 13 + 13 * k) with (pos + 13 * S k) by lia.
Qed.

Lemma where_protocol_nil p cs c :
  where_protocol p cs = [] → c ∈ cs → conv_protocol c ≠ p.
Proof.
  intros Hnil Hin Heq.
  assert (c ∈ where_protocol p cs) as Hc by (by apply list_elem_of_filter).
  rewrite Hnil in Hc. by apply elem_of_nil in Hc.
Qed.

(** C5: with [Math.random] in [0, 1), a conversation that a client creates
    carries a protocol code of thirteen characters among 0-9A-F that no
    conversation existing at that moment carries; and the handler does
    answer once the loop is given fuel to reach the first draw that is
    free. *)
Theorem protocol_format_and_freshness env user channelId initialMessage s :
  user_role user = client →
  (∀ n, unit_interval (Math_random env n)) →
  (∀ fuel r s',
     handle fuel env user (POST_conversations channelId initialMessage) s
     = Some (r, s') →
     ∃ c,
       r = mkResponse 201 (json_conversation c)
       ∧ conversations (db s') = conversations (db s) ++ [c]
       ∧ matches_hex13 (conv_protocol c) = true
       ∧ ∀ c', c' ∈ conversations (db s) → conv_protocol c' ≠ conv_protocol c)
  ∧ (∀ k fuel,
       where_protocol (generateProtocol (Math_random env) (13 * k))
         (conversations (db s)) = [] →
       k < fuel →
       is_Some
         (handle fuel env user (POST_conversations channelId initialMessage) s)).
Proof.
  intros Hrole Hrnd. split.
  - intros fuel r s' Hh. simpl in Hh. unfold postConversation in Hh.
    rewrite decide_False in Hh by (by intros []).
    destruct (uniqueProtocol fuel (Math_random env) 0 (conversations (db s)))
      as [p|] eqn:Hp; [|done].
    apply uniqueProtocol_sound in Hp as [[pos' ->] Hfree].
    simpl in Hh. injection Hh as <- <-. eexists. split; [reflexivity|].
    split; [by destruct (truthy initialMessage)|].
    split; [by apply generateProtocol_matches|].
    intros c' Hc'. simpl. by apply (where_protocol_nil _ (conversations (db s))).
  - intros k fuel Hfree Hk. simpl. unfold postConversation.
    rewrite decide_False by (by intros []).
    destruct (uniqueProtocol_complete k (Math_random env) 0
                (conversations (db s)) fuel Hfree Hk) as [p ->].
    by eexists.
Qed.

Lemma protocol_format_and_freshness_witness :
  ∃ c s',
    handle 2 (sample.env 70 "d") sample.carol (POST_conversations None None)
      sample.s_pending
    = Some (mkResponse 201 (json_conversation c), s')
    ∧ conv_protocol c = "DEF0123456789"
    ∧ matches_hex13 (conv_protocol c) = true
    ∧ ∀ c', c' ∈ conversations (db sample.s_pending) →
            conv_protocol c' ≠ conv_protocol c.
Proof.
  destruct (protocol_format_and_freshness (sample.env 70 "d") sample.carol
              None None sample.s_pending) as [Hsound Hcomplete].
  - reflexivity.
  - intros n. change (n `mod` 16 < 16). apply Nat.mod_upper_bound. lia.
  - destruct (Hcomplete 1 2) as [[r s'] Hh]; [vm_compute; reflexivity | lia |].
    destruct (Hsound 2 r s' Hh) as (c & -> & _ & Hm & Hfresh).
    exists c, s'. split; [exact Hh|]. split; [|by split].
    vm_compute in Hh. by injection Hh as <- _.
Defined.

(** ** What a request does to the table of conversations *)

Lemma handle_conversations fuel env user req s r s' :
  handle fuel env user req s = Some (r, s') →
  let cs := conversations (db s) in
  let cs' := conversations (db s') in
  match req with
  | GET_conversations _ => cs' = cs
  | POST_conversations channelId _ =>
      cs' = cs
      ∨ ∃ protocol,
          cs' = cs ++ [mkConversation (defaultRandom env 0) protocol channelId
                         (user_id user) None pending (now env) (now env)]
  | POST_assign id =>
      cs' = cs
      ∨ (cs' = update_where_id id (assigned_to (user_id user) (now env)) cs
         ∧ ∃ c, head (where_id id cs) = Some c ∧ conv_status c = pending)
  | POST_close id =>
      cs' = cs ∨ cs' = update_where_id id (closed_at (now env)) cs
  | POST_messages conversationId _ =>
      cs' = cs
      ∨ cs' = update_where_id (default "" conversationId)
                (touched_at (now env)) cs
  end.
Proof.
  destruct req as [status|channelId initialMessage|id|id|cid content]; simpl.
  - by intros [= <- <-].
  - unfold postConversation. case_decide; [intros [= <- <-]; by left|].
    destruct (uniqueProtocol _ _ _ _) as [p|]; [|done]. simpl.
    intros [= <- <-]. right. exists p. by destruct (truthy initialMessage).
  - unfold postAssign. case_decide; [intros [= <- <-]; by left|].
    destruct (head (where_id id (conversations (db s)))) as [c|] eqn:Hc;
      [|intros [= <- <-]; by left].
    case_decide as Hst; [intros [= <- <-]; by left|].
    assert (conv_status c = pending) by (by destruct (conv_status c)).
    case_match; intros [= <- <-]; right; (split; [done|by exists c]).
  - unfold postClose.
    destruct (head (where_id id (conversations (db s)))) as [c|];
      [|intros [= <- <-]; by left].
    do 2 (case_decide; [intros [= <- <-]; by left|]).
    case_match; intros [= <- <-]; by right.
  - unfold postMessage.
    destruct (negb (truthy cid) || negb (truthy content));
      [intros [= <- <-]; by left|].
    destruct (head (where_id _ (conversations (db s)))) as [c|];
      [|intros [= <- <-]; by left].
    do 3 (case_decide; [intros [= <- <-]; by left|]).
    intros [= <- <-]. by right.
Qed.

Lemma connect_db t token s : db (connect t token s) = db s.
Proof.
  unfold connect. destruct (io s); [|done].
  by destruct (socket_auth _ _ _).
Qed.

Lemma socket_on_db t i ev s : db (socket_on t i ev s) = db s.
Proof.
  unfold socket_on. destruct (io s) as [srv|]; [|done].
  destruct (srv !! i) as [sk|]; [|done]. by destruct (sock_connected sk).
Qed.

Lemma perform_effect fuel a s s' :
  perform fuel a s = Some s' →
  ConvEffect (conversations (db s)) (conversations (db s')).
Proof.
  destruct a as [env user req|t token|t i ev]; simpl.
  - destruct (handle fuel env user req s) as [[r s1]|] eqn:Hh; [|done].
    intros [= <-]. apply handle_conversations in Hh. simpl in Hh.
    destruct req; simpl in *;
      repeat match goal with
             | H : _ ∨ _ |- _ => destruct H
             | H : _ ∧ _ |- _ => destruct H
             | H : ∃ _, _ |- _ => destruct H
             | H : conversations (db s1) = _ |- _ => rewrite H; clear H
             end;
      eauto using ConvEffect.
  - intros [= <-]. rewrite connect_db. constructor.
  - intros [= <-]. rewrite socket_on_db. constructor.
Qed.

(** ** The lifecycle of a conversation *)

Lemma allowed_step_refl st : allowed_step st st = true.
Proof. by destruct st. Qed.

Lemma allowed_step_closed st : allowed_step st closed = true.
Proof. by destruct st. Qed.

Lemma effect_status id cs cs' :
  ConvEffect cs cs' →
  match conv_status <$> head (where_id id cs) with
  | Some st =>
      ∃ st', conv_status <$> head (where_id id cs') = Some st'
             ∧ allowed_step st st' = true
  | None =>
      conv_status <$> head (where_id id cs') = None
      ∨ conv_status <$> head (where_id id cs') = Some pending
  end.
Proof.
  intros [|c Hst Hat|id0 a t c Hc Hst|id0 t|id0 t].
  - destruct (head (where_id id cs)) as [c|]; simpl; [|by left].
    eexists. split; [done|apply allowed_step_refl].
  - rewrite head_where_id_snoc.
    destruct (head (where_id id cs)) as [c0|]; simpl.
    + eexists. split; [done|apply allowed_step_refl].
    + case_decide; simpl; [right; by rewrite Hst|by left].
  - rewrite head_where_id_update by keeps_id.
    destruct (head (where_id id cs)) as [c0|] eqn:Hc0; simpl; [|by left].
    case_decide as Hid; simpl.
    + subst id0. rewrite Hc in Hc0. injection Hc0 as <-. rewrite Hst.
      by eexists.
    + eexists. split; [done|apply allowed_step_refl].
  - rewrite head_where_id_update by keeps_id.
    destruct (head (where_id id cs)) as [c0|]; simpl; [|by left].
    case_decide; simpl; eexists; (split; [done|]);
      [apply allowed_step_closed|apply allowed_step_refl].
  - rewrite head_where_id_update by keeps_id.
    destruct (head (where_id id cs)) as [c0|]; simpl; [|by left].
    case_decide; simpl; eexists; (split; [done|]); apply allowed_step_refl.
Qed.

(** One action moves the status of a conversation along an allowed step;
    a conversation appears as pending and does not disappear. *)
Lemma perform_status fuel a s s' id :
  perform fuel a s = Some s' →
  match status_of id s with
  | Some st => ∃ st', status_of id s' = Some st' ∧ allowed_step st st' = true
  | None => status_of id s' = None ∨ status_of id s' = Some pending
  end.
Proof. intros H. apply perform_effect in H. by apply effect_status. Qed.

Lemma history_cons id s tr :
  history id (s :: tr)
  = match status_of id s with
    | Some st => st :: history id tr
    | None => history id tr
    end.
Proof. unfold history. simpl. by destruct (status_of id s). Qed.

Lemma continuations_head st l :
  l ∈ continuations (Some st) → ∃ t, l = st :: t.
Proof.
  destruct st; simpl; rewrite ?elem_of_cons, elem_of_nil; intros H;
    repeat destruct H as [H|H]; subst; try done; by eexists.
Qed.

Lemma continuations_step st st' l :
  allowed_step st st' = true →
  l ∈ continuations (Some st') →
  (if decide (st = st') then l else st :: l) ∈ continuations (Some st).
Proof.
  destruct st, st'; simpl; try done; intros _;
    rewrite ?elem_of_cons, elem_of_nil; intros H;
    repeat destruct H as [H|H]; subst; try done;
    rewrite ?elem_of_cons; tauto.
Qed.

Lemma continuations_created l :
  l ∈ continuations (Some pending) → l ∈ continuations None.
Proof. simpl. rewrite !elem_of_cons. tauto. Qed.

(** The transition sequence of a run continues the status it starts from. *)
Lemma run_transitions fuel acts s tr id :
  run fuel acts s = Some tr →
  transitions (history id (s :: tr)) ∈ continuations (status_of id s).
Proof.
  revert s tr. induction acts as [|a acts IH]; intros s tr Hrun;
    simpl in Hrun.
  - injection Hrun as <-. rewrite history_cons.
    destruct (status_of id s) as [[]|]; simpl; rewrite ?elem_of_cons; tauto.
  - destruct (perform fuel a s) as [s1|] eqn:Hp; simpl in Hrun; [|done].
    destruct (run fuel acts s1) as [tr1|] eqn:Hr; simpl in Hrun; [|done].
    injection Hrun as <-. specialize (IH _ _ Hr).
    apply (perform_status _ _ _ _ id) in Hp.
    rewrite history_cons.
    destruct (status_of id s) as [st|].
    + destruct Hp as (st' & Hs1 & Hstep). rewrite Hs1 in IH.
      destruct (continuations_head _ _ IH) as [t Ht].
      pose proof (continuations_step _ _ _ Hstep IH) as Hc.
      cbn [transitions]. fold (transitions (history id (s1 :: tr1))).
      rewrite Ht in Hc |- *. exact Hc.
    + destruct Hp as [Hs1|Hs1]; rewrite Hs1 in IH; [done|].
      by apply continuations_created.
Qed.

(** ** Handlers resumed query by query *)

Lemma uninterrupted_answered k t r s :
  uninterrupted k t (answered r) s = (answered r, s).
Proof. induction k as [|k IH]; [done|]. exact IH. Qed.

Lemma uninterrupted_add j k t h s :
  uninterrupted (j + k) t h s
  = uninterrupted k t (uninterrupted j t h s).1 (uninterrupted j t h s).2.
Proof.
  revert h s. induction j as [|j IH]; intros h s; [done|].
  cbn [Nat.add uninterrupted]. destruct (resume t h s) as [h' s']. apply IH.
Qed.

Lemma create_select_uninterrupted fuel env user channelId initialMessage pos s
    p t :
  uniqueProtocol fuel (Math_random env) pos (conversations (db s)) = Some p →
  ∃ k,
    uninterrupted k t (create_select env user channelId initialMessage pos) s
    = (create_conversation env user channelId initialMessage p, s).
Proof.
  revert pos. induction fuel as [|fuel IH]; intros pos; [done|].
  cbn [uniqueProtocol]. cbv zeta. case_decide as Hex.
  - intros H. destruct (IH _ H) as [k Hk]. exists (S k).
    cbn [uninterrupted resume]. cbv zeta. by rewrite decide_True.
  - intros [= <-]. exists 1. cbn [uninterrupted resume]. cbv zeta.
    by rewrite decide_False.
Qed.

Lemma handle_uninterrupted fuel env user req s r s' :
  handle fuel env user req s = Some (r, s') →
  ∃ k, uninterrupted k (now env) (arrive env user req) s = (answered r, s').
Proof.
  destruct req as [status|channelId initialMessage|id|id|cid content];
    cbn [handle arrive].
  - intros [= <- <-]. by exists 1.
  - unfold postConversation. case_decide as Hrole.
    { intros [= <- <-]. by exists 0. }
    destruct (uniqueProtocol _ _ _ _) as [p|] eqn:Hp; [|done].
    cbn [mbind option_bind]. intros [= <- <-].
    destruct (create_select_uninterrupted _ _ user channelId initialMessage
                _ _ _ (now env) Hp) as [k Hk].
    apply uniqueProtocol_sound in Hp as [_ Hfree].
    exists (k + 4). rewrite uninterrupted_add, Hk.
    cbn [fst snd uninterrupted resume]. cbv zeta.
    rewrite decide_False by (rewrite Hfree; simpl; lia).
    cbn [resume]. by destruct (truthy initialMessage).
  - unfold postAssign. intros Hh. exists 3. revert Hh. case_decide as Hrole.
    { intros [= <- <-]. apply uninterrupted_answered. }
    cbn [uninterrupted resume].
    destruct (head (where_id id (conversations (db s)))) as [c|];
      [|by intros [= <- <-]].
    case_decide; [by intros [= <- <-]|].
    cbn [resume]. cbv zeta.
    destruct (head (where_id id _)) as [updated|]; by intros [= <- <-].
  - unfold postClose. intros Hh. exists 3. revert Hh.
    cbn [uninterrupted resume].
    destruct (head (where_id id (conversations (db s)))) as [c|];
      [|by intros [= <- <-]].
    do 2 (case_decide; [by intros [= <- <-]|]).
    cbn [resume]. cbv zeta.
    destruct (head (where_id id _)) as [updated|]; by intros [= <- <-].
  - unfold postMessage. intros Hh. exists 4. revert Hh.
    destruct (negb (truthy cid) || negb (truthy content));
      [intros [= <- <-]; apply uninterrupted_answered|].
    cbn [uninterrupted resume]. cbv zeta.
    destruct (head (where_id _ (conversations (db s)))) as [c|];
      [|by intros [= <- <-]].
    do 3 (case_decide; [by intros [= <- <-]|]).
    cbn [resume]. by intros [= <- <-].
Qed.

Lemma finally_cons e evs p : finally (e :: evs) p = finally evs (occur e p).
Proof.
  unfold finally. cbn [overlapped]. cbv zeta.
  destruct (overlapped evs (occur e p)) as [|p1 l] eqn:E; [done|].
  change (last (occur e p :: p1 :: l)) with (last (p1 :: l)).
  destruct (last (p1 :: l)) eqn:El; [done|]. by apply last_None in El.
Qed.

Lemma resumptions_uninterrupted k t hs h s :
  finally (replicate k (resumption (length hs) t)) (mkProcess s (hs ++ [h]))
  = mkProcess (uninterrupted k t h s).2 (hs ++ [(uninterrupted k t h s).1]).
Proof.
  revert h s. induction k as [|k IH]; intros h s; [done|].
  cbn [replicate uninterrupted]. rewrite finally_cons.
  cbn [occur in_flight sys].
  rewrite lookup_app_r, Nat.sub_diag by done. cbn [lookup list_lookup].
  destruct (resume t h s) as [h' s'].
  replace (<[length hs:=h']> (hs ++ [h])) with (hs ++ [h']); [apply IH|].
  rewrite insert_app_r_alt, Nat.sub_diag by done. done.
Qed.

(** [handle] is the overlapped model without overlap: the request arrives
    and its handler is resumed until it has answered. *)
Lemma handle_overlapped fuel env user req s r s' hs :
  handle fuel env user req s = Some (r, s') →
  ∃ k,
    finally (arrival env user req
             :: replicate k (resumption (length hs) (now env)))
      (mkProcess s hs)
    = mkProcess s' (hs ++ [answered r]).
Proof.
  intros Hh. apply handle_uninterrupted in Hh as [k Hk]. exists k.
  rewrite finally_cons. cbn [occur sys in_flight].
  by rewrite resumptions_uninterrupted, Hk.
Qed.

Lemma resume_write t h s :
  ConvWrite (conversations (db s)) (conversations (db (resume t h s).2)).
Proof.
  destruct h; cbn [resume]; cbv zeta;
    repeat (case_decide || case_match); cbn; try by constructor.
Qed.

Lemma occur_write e p :
  ConvWrite (conversations (db (sys p)))
    (conversations (db (sys (occur e p)))).
Proof.
  destruct e as [env user req|i t|t token|t i ev]; cbn [occur sys].
  - constructor.
  - destruct (in_flight p !! i) as [h|]; [|constructor].
    pose proof (resume_write t h (sys p)) as H.
    by destruct (resume t h (sys p)).
  - rewrite connect_db. constructor.
  - rewrite socket_on_db. constructor.
Qed.

Lemma write_status id cs cs' :
  ConvWrite cs cs' →
  match conv_status <$> head (where_id id cs) with
  | Some st =>
      ∃ st', conv_status <$> head (where_id id cs') = Some st'
             ∧ (st' = pending → st = pending)
  | None =>
      conv_status <$> head (where_id id cs') = None
      ∨ conv_status <$> head (where_id id cs') = Some pending
  end.
Proof.
  intros [|c Hst Hat|id0 a t|id0 t|id0 t].
  - destruct (head (where_id id cs)) as [c|]; simpl; [by eexists|by left].
  - rewrite head_where_id_snoc.
    destruct (head (where_id id cs)) as [c0|]; simpl; [by eexists|].
    case_decide; simpl; [right; by rewrite Hst|by left].
  - rewrite head_where_id_update by keeps_id.
    destruct (head (where_id id cs)) as [c0|]; simpl; [|by left].
    case_decide; simpl; eexists; (split; [done|]); done.
  - rewrite head_where_id_update by keeps_id.
    destruct (head (where_id id cs)) as [c0|]; simpl; [|by left].
    case_decide; simpl; eexists; (split; [done|]); done.
  - rewrite head_where_id_update by keeps_id.
    destruct (head (where_id id cs)) as [c0|]; simpl; [|by left].
    case_decide; simpl; eexists; (split; [done|]); done.
Qed.

Lemma occur_status e p id :
  match status_of id (sys p) with
  | Some st =>
      ∃ st', status_of id (sys (occur e p)) = Some st'
             ∧ (st' = pending → st = pending)
  | None =>
      status_of id (sys (occur e p)) = None
      ∨ status_of id (sys (occur e p)) = Some pending
  end.
Proof. apply write_status, occur_write. Qed.

Lemma overlapped_invariant (P : Process → Prop) evs p :
  (∀ e p1, P p1 → P (occur e p1)) →
  P p → Forall P (overlapped evs p).
Proof.
  intros Hstep. revert p. induction evs as [|e evs IH]; intros p HP;
    cbn [overlapped]; [constructor|].
  constructor; [by apply Hstep|]. apply IH. by apply Hstep.
Qed.

Lemma transitions_cons x h :
  transitions (x :: h)
  = match transitions h with
    | y :: t => if decide (x = y) then y :: t else x :: y :: t
    | [] => [x]
    end.
Proof. done. Qed.

Lemma transitions_adjacent h i a b :
  transitions h !! i = Some a → transitions h !! S i = Some b → a ≠ b.
Proof.
  revert i. induction h as [|x h IH]; intros i; [done|].
  rewrite transitions_cons.
  destruct (transitions h) as [|y t] eqn:E; [by destruct i|].
  case_decide as Hxy; [apply IH|].
  destruct i as [|i]; [|apply IH].
  cbn. congruence.
Qed.

Lemma overlapped_transitions evs p id :
  leaves_pending_for_good (status_of id (sys p))
    (transitions (history id (sys p :: (sys <$> overlapped evs p)))).
Proof.
  revert p. induction evs as [|e evs IH]; intros p.
  - cbn [overlapped fmap list_fmap]. rewrite history_cons.
    destruct (status_of id (sys p)) as [st|]; cbn.
    + exists []. split; [done|]. apply not_elem_of_nil.
    + by left.
  - cbn [overlapped]. cbv zeta. rewrite fmap_cons, history_cons.
    specialize (IH (occur e p)).
    pose proof (occur_status e p id) as Hst.
    destruct (status_of id (sys p)) as [st|].
    + destruct Hst as (st' & Hst' & Hback). rewrite Hst' in IH.
      destruct IH as (T' & HT & Hnot).
      rewrite transitions_cons, HT. cbn.
      case_decide as Heq.
      * subst st'. by exists T'.
      * exists (st' :: T'). split; [done|].
        apply not_elem_of_cons. split; [|done].
        intros Hp. symmetry in Hp. specialize (Hback Hp). congruence.
    + destruct Hst as [Hnone|Hpend]; [by rewrite Hnone in IH|].
      rewrite Hpend in IH. by right.
Qed.

(** ** The lifecycle of a conversation, with and without overlap *)

(** C2, as amended: from before its creation on, the status transition
    sequence of a conversation is empty or begins with pending and never
    comes back to pending; a transition goes from pending to active, from
    pending to closed, from active to closed or, when requests overlap,
    from closed to active: the update of an assign is not conditioned on
    the status it has read.  When every request is answered before the
    next is handled, the sequence is empty, pending, pending -> active,
    pending -> closed or pending -> active -> closed, and no transition
    leaves closed. *)
Theorem status_sequence_follows_lifecycle p id :
  status_of id (sys p) = None →
  (∀ evs,
     let T :=
       transitions (history id (sys p :: (sys <$> overlapped evs p))) in
     (T = [] ∨ ∃ T', T = pending :: T' ∧ pending ∉ T')
     ∧ ∀ i a b,
         T !! i = Some a → T !! S i = Some b →
         (a, b) ∈ [(pending, active); (pending, closed); (active, closed);
                   (closed, active)])
  ∧ (∀ fuel acts tr,
       run fuel acts (sys p) = Some tr →
       let T := transitions (history id (sys p :: tr)) in
       T ∈ [[]; [pending]; [pending; active]; [pending; closed];
            [pending; active; closed]]
       ∧ ∀ i a b,
           T !! i = Some a → T !! S i = Some b →
           (a, b) ∈ [(pending, active); (pending, closed); (active, closed)]).
Proof.
  intros Hnone. split.
  - intros evs T.
    pose proof (overlapped_transitions evs p id) as HT.
    rewrite Hnone in HT. fold T in HT. split; [exact HT|].
    intros i a b Ha Hb.
    pose proof (transitions_adjacent _ _ _ _ Ha Hb) as Hab.
    assert (b ≠ pending) as Hb'.
    { destruct HT as [HT|(T' & HT & Hnot)]; rewrite HT in Hb; [done|].
      intros ->. apply Hnot. by eapply list_elem_of_lookup_2. }
    rewrite !elem_of_cons. destruct a, b; intuition congruence.
  - intros fuel acts tr Hrun T.
    assert (T ∈ continuations None) as HT.
    { rewrite <- Hnone. exact (run_transitions fuel acts (sys p) tr id Hrun). }
    split; [exact HT|]. simpl in HT. rewrite !elem_of_cons, elem_of_nil in HT.
    intros i a b Ha Hb. rewrite !elem_of_cons.
    destruct HT as [HT|[HT|[HT|[HT|[HT|[]]]]]]; rewrite HT in Ha, Hb;
      repeat (destruct i as [|i]; simplify_eq/=; auto).
Qed.

Lemma status_sequence_follows_lifecycle_witness :
  status_of "c0" (sys sample.p0) = None
  ∧ transitions
      (history "c0"
         (sys sample.p0 :: (sys <$> overlapped sample.late_assign sample.p0)))
    = [pending; closed; active]
  ∧ (closed, active)
    ∈ [(pending, active); (pending, closed); (active, closed);
       (closed, active)]
  ∧ ∃ tr,
      run 4 [sample.create; sample.assign; sample.close] (sys sample.p0)
      = Some tr
      ∧ transitions (history "c0" (sys sample.p0 :: tr))
        = [pending; active; closed]
      ∧ transitions (history "c0" (sys sample.p0 :: tr))
        ∈ [[]; [pending]; [pending; active]; [pending; closed];
           [pending; active; closed]].
Proof.
  destruct (status_sequence_follows_lifecycle sample.p0 "c0" eq_refl)
    as [Hoverlap Hone].
  split; [reflexivity|]. split; [vm_compute; reflexivity|]. split.
  - apply (proj2 (Hoverlap sample.late_assign) 1 closed active);
      vm_compute; reflexivity.
  - eexists. split; [vm_compute; reflexivity|].
    split; [vm_compute; reflexivity|].
    eapply (proj1 (Hone 4 [sample.create; sample.assign; sample.close] _ _)).
    Unshelve. vm_compute. reflexivity.
Defined.

(** C2, as stated, fails: a client who closes their conversation before
    any attendant has taken it makes the sequence pending -> closed, which
    is no prefix of pending -> active -> closed. *)
Lemma status_sequence_not_a_prefix :
  ∃ tr,
    status_of "c0" sample.s0 = None
    ∧ run 4 [sample.create; sample.close_early] sample.s0 = Some tr
    ∧ transitions (history "c0" (sample.s0 :: tr)) = [pending; closed]
    ∧ ¬ (transitions (history "c0" (sample.s0 :: tr))
         `prefix_of` [pending; active; closed]).
Proof.
  eexists. split; [vm_compute; reflexivity|].
  split; [vm_compute; reflexivity|]. split; [vm_compute; reflexivity|].
  intros [k Hk]. vm_compute in Hk. discriminate Hk.
Qed.

(** ** The invariant: a pending conversation has no attendant *)

Lemma effect_pending_unassigned cs cs' :
  ConvEffect cs cs' →
  Forall (λ c, conv_status c = pending → conv_attendantId c = None) cs →
  Forall (λ c, conv_status c = pending → conv_attendantId c = None) cs'.
Proof.
  intros [|c Hst Hat|id0 a t c Hc Hst|id0 t|id0 t] Hinv; [done|..].
  - apply Forall_app. split; [done|]. by apply Forall_singleton.
  - unfold update_where_id. apply Forall_fmap. eapply Forall_impl; [done|].
    intros x Hx. simpl. by case_decide.
  - unfold update_where_id. apply Forall_fmap. eapply Forall_impl; [done|].
    intros x Hx. simpl. by case_decide.
  - unfold update_where_id. apply Forall_fmap. eapply Forall_impl; [done|].
    intros x Hx. simpl. by case_decide.
Qed.

Lemma perform_pending_unassigned fuel a s s' :
  perform fuel a s = Some s' →
  pending_unassigned (db s) → pending_unassigned (db s').
Proof. intros H. apply effect_pending_unassigned. by eapply perform_effect. Qed.

(** The invariant holds in every state of a run from a state where it
    holds, such as the state after start-up. *)
Lemma run_pending_unassigned fuel acts s tr :
  run fuel acts s = Some tr →
  pending_unassigned (db s) →
  Forall (λ s', pending_unassigned (db s')) tr.
Proof.
  revert s tr. induction acts as [|a acts IH]; intros s tr Hrun Hinv;
    simpl in Hrun.
  - injection Hrun as <-. constructor.
  - destruct (perform fuel a s) as [s1|] eqn:Hp; simpl in Hrun; [|done].
    destruct (run fuel acts s1) as [tr1|] eqn:Hr; simpl in Hrun; [|done].
    injection Hrun as <-.
    pose proof (perform_pending_unassigned _ _ _ _ Hp Hinv). eauto.
Qed.

Lemma startup_pending_unassigned e us : pending_unassigned (db (startup e us)).
Proof. constructor. Qed.

Lemma handle_rows fuel env user req s r s' i c :
  handle fuel env user req s = Some (r, s') →
  conversations (db s) !! i = Some c →
  ∃ c',
    conversations (db s') !! i = Some c'
    ∧ conv_id c' = conv_id c
    ∧ (conv_attendantId c' ≠ conv_attendantId c →
       req = POST_assign (conv_id c)
       ∧ conv_attendantId c' = Some (user_id user)
       ∧ conv_status c' = active).
Proof.
  intros Hh Hi. apply handle_conversations in Hh. simpl in Hh.
  destruct req as [status|channelId initialMessage|id|id|cid content];
    simpl in Hh;
    repeat match goal with
           | H : _ ∨ _ |- _ => destruct H
           | H : _ ∧ _ |- _ => destruct H
           | H : ∃ _, _ |- _ => destruct H
           | H : conversations (db s') = _ |- _ => rewrite H; clear H
           end;
    try (exists c; by repeat split);
    try (rewrite update_where_id_lookup, Hi; simpl;
         case_decide; subst; eexists; by repeat split).
  exists c. rewrite lookup_app_l by (by eapply lookup_lt_Some).
  by repeat split.
Qed.

(** C4: every request keeps the invariant that a pending conversation has
    no attendant.  A created conversation is stored pending and without
    attendant; a row whose attendant changes has been the target of an
    assign request, which sets the requester as attendant and the status
    to active at once; a close request leaves every attendant as it
    was. *)
Theorem pending_has_no_attendant fuel env user req s r s' :
  handle fuel env user req s = Some (r, s') →
  (pending_unassigned (db s) → pending_unassigned (db s'))
  ∧ (∀ channelId initialMessage,
       req = POST_conversations channelId initialMessage →
       res_status r = 201 →
       ∃ c, res_body r = json_conversation c
            ∧ conversations (db s') = conversations (db s) ++ [c]
            ∧ conv_status c = pending ∧ conv_attendantId c = None)
  ∧ (∀ i c,
       conversations (db s) !! i = Some c →
       ∃ c',
         conversations (db s') !! i = Some c'
         ∧ conv_id c' = conv_id c
         ∧ (conv_attendantId c' ≠ conv_attendantId c →
            req = POST_assign (conv_id c)
            ∧ conv_attendantId c' = Some (user_id user)
            ∧ conv_status c' = active))
  ∧ (∀ id,
       req = POST_close id →
       conv_attendantId <$> conversations (db s')
       = conv_attendantId <$> conversations (db s)).
Proof.
  intros Hh. split; [|split; [|split]].
  - apply (perform_pending_unassigned fuel (request env user req)).
    simpl. by rewrite Hh.
  - intros channelId initialMessage -> Hr. simpl in Hh.
    unfold postConversation in Hh.
    case_decide; [injection Hh as <- <-; done|].
    destruct (uniqueProtocol _ _ _ _) as [p|]; [|done]. simpl in Hh.
    injection Hh as <- <-. eexists. split; [reflexivity|].
    split; [by destruct (truthy initialMessage)|done].
  - intros i c Hi. by eapply handle_rows.
  - intros id ->. apply handle_conversations in Hh. simpl in Hh.
    destruct Hh as [-> | ->]; [done|].
    unfold update_where_id. rewrite <- list_fmap_compose.
    apply list_fmap_ext. intros j x _. simpl. by case_decide.
Qed.

Lemma pending_has_no_attendant_witness :
  ∃ r s',
    handle 1 (sample.env 20 "a") sample.bob (POST_assign "c0") sample.s_pending
    = Some (r, s')
    ∧ pending_unassigned (db s')
    ∧ ∃ c', conversations (db s') !! 0 = Some c'
            ∧ conv_attendantId c' = Some "u-bob"
            ∧ conv_status c' = active.
Proof.
  eexists _, _. split; [vm_compute; reflexivity|].
  destruct (pending_has_no_attendant 1 (sample.env 20 "a") sample.bob
              (POST_assign "c0") sample.s_pending _ _ eq_refl)
    as (Hinv & _ & Hrow & _).
  split.
  - apply Hinv. repeat constructor.
  - destruct (Hrow 0 _ eq_refl) as (c' & Hc' & _ & Hset).
    exists c'. split; [exact Hc'|].
    vm_compute in Hc'. injection Hc' as <-. split; reflexivity.
Defined.

(** ** The realtime gateway *)

Lemma emit_to_lookup room except ev (srv : Server) (j : nat) :
  emit_to room except ev srv !! j
  = (λ sk, if decide (room ∈ sock_rooms sk ∧ except ≠ Some j)
           then deliver ev sk else sk) <$> srv !! j.
Proof. unfold emit_to. apply list_lookup_imap. Qed.

Lemma emit_to_length room except ev (srv : Server) :
  length (emit_to room except ev srv) = length srv.
Proof. unfold emit_to. apply length_imap. Qed.

(** C9: a [message:send] event from an open connection is relayed as
    [message:new] to every other connection in the room of the
    conversation, and to nobody else; the store, with the message ledger,
    and the dispatched domain events stay as they were. *)
Theorem message_send_is_relayed_not_stored t i conversationId content s srv sk :
  io s = Some srv →
  srv !! i = Some sk →
  sock_connected sk = true →
  let s' := socket_on t i (on_message_send conversationId content) s in
  let ev :=
    message_new conversationId content (user_id (sock_user sk))
      (user_name (sock_user sk)) t in
  db s' = db s
  ∧ messages (db s') = messages (db s)
  ∧ dispatched s' = dispatched s
  ∧ ∃ srv',
      io s' = Some srv'
      ∧ length srv' = length srv
      ∧ ∀ j skj,
          srv !! j = Some skj →
          srv' !! j
          = Some (if decide (room_conversation conversationId ∈ sock_rooms skj
                             ∧ j ≠ i)
                  then deliver ev skj else skj).
Proof.
  intros Hio Hi Hconn s' ev. subst s'. unfold socket_on.
  rewrite Hio, Hi, Hconn. simpl. repeat split.
  eexists. split; [reflexivity|]. split; [apply emit_to_length|].
  intros j skj Hj. rewrite emit_to_lookup, Hj. simpl. f_equal.
  destruct (decide (j = i)) as [->|Hne].
  - rewrite decide_False by (intros [_ H]; by apply H).
    by rewrite decide_False by (by intros [_ H]).
  - destruct (decide (room_conversation conversationId ∈ sock_rooms skj)).
    + rewrite decide_True by (split; [done|congruence]).
      by rewrite decide_True.
    + rewrite decide_False by (by intros [? _]).
      by rewrite decide_False by (by intros [? _]).
Qed.

Lemma message_send_is_relayed_not_stored_witness :
  let s :=
    sample.after [connection 26 (Some (generateToken sample.penv 0 "u-alice"))]
      sample.s_listening in
  let s' := socket_on 27 1 (on_message_send "c0" "are you there?") s in
  ledger "c0" s' = ledger "c0" s
  ∧ ∃ srv' sk,
      io s' = Some srv' ∧ srv' !! 0 = Some sk
      ∧ sock_received sk
        = [message_new "c0" "are you there?" "u-alice" "" 27].
Proof.
  intros s s'.
  destruct (message_send_is_relayed_not_stored 27 1 "c0" "are you there?" s
              _ _ eq_refl eq_refl eq_refl)
    as (Hdb & _ & _ & srv' & Hio & _ & Hsent).
  split; [unfold ledger, s'; by rewrite Hdb|].
  eexists srv', _. split; [exact Hio|].
  split; [apply (Hsent 0); reflexivity|]. reflexivity.
Defined.

(** Every action of a connection leaves the store alone. *)
Lemma socket_actions_keep_db fuel a s s' :
  (∀ env user req, a ≠ request env user req) →
  perform fuel a s = Some s' → db s' = db s.
Proof.
  destruct a as [env user req|t token|t i ev]; intros Hne; simpl.
  - by destruct (Hne env user req).
  - intros [= <-]. apply connect_db.
  - intros [= <-]. apply socket_on_db.
Qed.

(** ** The principal of a connection *)

Lemma secrets_agree e :
  truthy (JWT_SECRET e) = true → jwtSecret e = socket_JWT_SECRET e.
Proof.
  unfold jwtSecret, socket_JWT_SECRET, or_else. intros H.
  destruct (JWT_SECRET e); [by rewrite H|discriminate H].
Qed.

(** Without [JWT_SECRET] in the environment the two modules fall back to
    different keys, and the gateway refuses the tokens of the
    application. *)
Lemma default_secrets_disagree e t0 t uid :
  truthy (JWT_SECRET e) = false →
  socket_auth e t (Some (generateToken e t0 uid)) = inl "Invalid token".
Proof.
  intros H. unfold socket_auth, jwt_verify, generateToken, jwt_sign,
    jwtSecret, socket_JWT_SECRET, or_else. rewrite H. reflexivity.
Qed.

Lemma generateToken_verified e t0 t uid :
  truthy (JWT_SECRET e) = true →
  (t < t0 + default seven_days (JWT_EXPIRES_IN e))%N →
  jwt_verify (generateToken e t0 uid) (socket_JWT_SECRET e) t
  = Some (mkClaims uid None None None).
Proof.
  intros Hs Ht. unfold jwt_verify, generateToken, jwt_sign. simpl.
  rewrite decide_True; [done|]. split; [by apply secrets_agree|done].
Qed.

Lemma personal_and_role_rooms user :
  sock_rooms
    (join (room_role (user_role user))
       (join (room_user (user_id user)) (mkSocket user true [] [])))
  = [room_user (user_id user); room_role (user_role user)].
Proof.
  reflexivity.
Qed.

(** C10: the gateway takes the principal from the claims of the token
    alone.  A token that is verified and has no role claim gives the role
    client, and a missing email or name gives the empty string; the
    connection is put in the rooms user:<id> and role:client.  A token
    issued by [generateToken] carries the user id only, so a connection
    accepted with it has the principal (id, empty email, client, empty
    name), whatever the store says about that user. *)
Theorem app_token_connects_as_client e t token claims :
  jwt_verify token (socket_JWT_SECRET e) t = Some claims →
  role claims = None →
  let user :=
    mkUser (userId claims) (default "" (email claims)) client
      (default "" (name claims)) in
  socket_auth e t (Some token) = inr user
  ∧ (email claims = None → user_email user = "")
  ∧ (name claims = None → user_name user = "")
  ∧ (∀ s srv,
       process_env s = e → io s = Some srv →
       connect t (Some token) s
       = set_io (λ _, Some (srv ++ [mkSocket user true
                                      [room_user (userId claims);
                                       room_role client] []])) s)
  ∧ (∀ e' t0 uid,
       token = generateToken e' t0 uid → user = mkUser uid "" client "").
Proof.
  intros Hv Hrole user.
  assert (socket_auth e t (Some token) = inr user) as Hauth.
  { unfold socket_auth. rewrite Hv. subst user. by rewrite Hrole. }
  split; [exact Hauth|]. subst user. simpl.
  split; [by intros ->|]. split; [by intros ->|]. split.
  - intros s srv He Hio. unfold connect. by rewrite Hio, He, Hauth.
  - intros e' t0 uid ->. unfold jwt_verify in Hv. case_decide; [|done].
    injection Hv as <-. reflexivity.
Qed.

(** The admin of the sample is an admin for the REST interface and a
    client for the gateway, with one and the same token. *)
Lemma app_token_connects_as_client_witness :
  let token := generateToken sample.penv 0 "u-root" in
  authenticate 5 (Some token) sample.s0 = inr sample.root
  ∧ user_role sample.root = admin
  ∧ connect 5 (Some token) sample.s0
    = set_io (λ _, Some [mkSocket (mkUser "u-root" "" client "") true
                           ["user:u-root"; "role:client"] []]) sample.s0.
Proof.
  intros token. split; [reflexivity|]. split; [reflexivity|].
  destruct (app_token_connects_as_client sample.penv 5 token
              (mkClaims "u-root" None None None))
    as (_ & _ & _ & Hconnect & _).
  - apply generateToken_verified; reflexivity.
  - reflexivity.
  - apply (Hconnect sample.s0 []); reflexivity.
Defined.

(** ** Appending and the realtime broadcast *)

(** No handler of the REST interface reaches the gateway: the connections
    and what they have received are as before the request. *)
Lemma handle_keeps_io fuel env user req s r s' :
  handle fuel env user req s = Some (r, s') → io s' = io s.
Proof.
  destruct req as [status|channelId initialMessage|id|id|cid content]; simpl.
  - by intros [= <- <-].
  - unfold postConversation. case_decide; [by intros [= <- <-]|].
    destruct (uniqueProtocol _ _ _ _); [|done]. simpl.
    intros [= <- <-]. by destruct (truthy initialMessage).
  - unfold postAssign. intros Hh. guards.
  - unfold postClose. intros Hh. guards.
  - unfold postMessage. intros Hh. guards.
Qed.

(** The helper that would do it: [emitToConversation] hands the event once
    to every connection in the room of the conversation. *)
Lemma emitToConversation_delivers conversationId ev s srv j sk :
  io s = Some srv →
  srv !! j = Some sk →
  room_conversation conversationId ∈ sock_rooms sk →
  ∃ srv',
    io (emitToConversation conversationId ev s) = Some srv'
    ∧ srv' !! j = Some (deliver ev sk)
    ∧ db (emitToConversation conversationId ev s) = db s.
Proof.
  intros Hio Hj Hroom. unfold emitToConversation. simpl. rewrite Hio. simpl.
  eexists. split; [reflexivity|]. split; [|done].
  rewrite emit_to_lookup, Hj. simpl. by rewrite decide_True.
Qed.

(** C1 on the code: the owner of an active conversation appends a
    message while the attendant's connection is in the room of that
    conversation.  The message is stored, the conversation is touched and
    [message.created] is dispatched, but the connection has received no
    [message:new] event. *)
Theorem append_sends_no_message_new :
  ∃ r s' m sk,
    handle 1 (sample.env 40 "m") sample.alice
      (POST_messages (Some "c0") (Some "hello again")) sample.s_listening
    = Some (r, s')
    ∧ r = mkResponse 201 (json_message m "u-alice" "Alice")
    ∧ ledger "c0" s' = ledger "c0" sample.s_listening ++ [m]
    ∧ msg_content m = "hello again" ∧ msg_senderId m = "u-alice"
    ∧ conv_updatedAt <$> find_conversation "c0" s' = Some 40%N
    ∧ dispatched s'
      = dispatched sample.s_listening ++ [message_created "m0" "c0" "u-alice"]
    ∧ io s' = Some [sk]
    ∧ sock_connected sk = true
    ∧ room_conversation "c0" ∈ sock_rooms sk
    ∧ received_message_new sk = []
    ∧ length (received_message_new sk) ≠ 1.
Proof.
  eexists _, _, _, _. split; [vm_compute; reflexivity|].
  repeat (split; [vm_compute; reflexivity|]).
  split; [|split; [reflexivity|vm_compute; discriminate]].
  vm_compute.
  apply list_elem_of_further, list_elem_of_further, list_elem_of_here.
Qed.

(** * Further properties *)

(** ** Every request has one of six outcomes *)

Lemma truthy_Some (x : option string) :
  truthy x = true → ∃ v, x = Some v ∧ v ≠ "".
Proof.
  destruct x as [v|]; [|done]. simpl. intros H. exists v. split; [done|].
  intros ->. by rewrite bool_decide_eq_true_2 in H.
Qed.

Lemma not_guard_client user (P : Prop) :
  ¬ (user_role user = client ∧ ¬ P) → Decision P → user_role user = client → P.
Proof. intros H [?|?] Hr; [done|]. destruct H. by split. Qed.

Ltac refused :=
  apply outcome_refused;
  repeat first [apply list_elem_of_here | apply list_elem_of_further].

Lemma handle_outcome fuel env user req s r s' :
  handle fuel env user req s = Some (r, s') → Outcome env user s req r s'.
Proof.
  destruct req as [status|channelId initialMessage|id|id|cid content]; simpl.
  - intros [= <- <-]. constructor.
  - unfold postConversation.
    case_decide as Hrole;
      [intros [= <- <-]; refused|].
    destruct (uniqueProtocol _ _ _ _) as [p|] eqn:Hp; [|done]. simpl.
    apply uniqueProtocol_sound in Hp as [Hpos Hfree].
    intros [= <- <-]. apply outcome_created; try done;
      destruct (truthy initialMessage); simpl; try done.
    by rewrite app_nil_r.
  - unfold postAssign.
    case_decide as Hrole;
      [intros [= <- <-]; refused|].
    destruct (head (where_id id (conversations (db s)))) as [c|] eqn:Hc;
      [|intros [= <- <-]; refused].
    case_decide as Hst;
      [intros [= <- <-]; refused|].
    cbn [set_db set_conversations db conversations].
    rewrite head_where_id_update by keeps_id. rewrite Hc. simpl.
    rewrite decide_True by done.
    apply head_where_id_spec in Hc as Hid. destruct Hid as [_ Hid].
    intros [= <- <-]. simpl. rewrite Hid.
    apply outcome_assigned; try done.
    destruct (user_role user); [|by left|by right].
    destruct Hrole. by split.
  - intros [= Hh].
    destruct (head (where_id id (conversations (db s)))) as [c|] eqn:Hc.
    + destruct (decide (may_close user c)) as [Hyes|Hno].
      * rewrite (postClose_granted env user id s c Hc Hyes) in Hh.
        injection Hh as <- <-. by apply outcome_closed.
      * rewrite (postClose_denied env user id s c Hc Hno) in Hh.
        injection Hh as <- <-. refused.
    + unfold postClose in Hh. rewrite Hc in Hh. injection Hh as <- <-.
      refused.
  - unfold postMessage.
    destruct (truthy cid) eqn:Hcid; simpl;
      [|intros [= <- <-]; refused].
    destruct (truthy content) eqn:Htext; simpl;
      [|intros [= <- <-]; refused].
    apply truthy_Some in Hcid as (cid' & -> & Hcid).
    apply truthy_Some in Htext as (text & -> & Htext). simpl.
    destruct (head (where_id cid' (conversations (db s)))) as [c|] eqn:Hc;
      [|intros [= <- <-]; refused].
    case_decide as H1; [intros [= <- <-]; refused|].
    case_decide as H2; [intros [= <- <-]; refused|].
    case_decide as H3; [intros [= <- <-]; refused|].
    intros [= <- <-]. apply (outcome_appended env user s cid' text c); try done.
    split.
    + intros Hr. split.
      * by apply (not_guard_client user _ H1); [apply _|].
      * by apply (not_guard_client user _ H2); [apply _|].
    + intros Hr.
      destruct (decide (conv_attendantId c = Some (user_id user))); [done|].
      destruct H3. by split.
Qed.

Lemma perform_outcome fuel a s s' :
  perform fuel a s = Some s' →
  (db s' = db s ∧ dispatched s' = dispatched s)
  ∨ ∃ env user req r, a = request env user req ∧ Outcome env user s req r s'.
Proof.
  destruct a as [env user req|t token|t i ev]; simpl.
  - destruct (handle fuel env user req s) as [[r s1]|] eqn:Hh; [|done].
    intros [= <-]. right. exists env, user, req, r. split; [done|].
    by apply handle_outcome in Hh.
  - intros [= <-]. left. split; [apply connect_db|].
    unfold connect. destruct (io s); [|done]. by destruct (socket_auth _ _ _).
  - intros [= <-]. left. split; [apply socket_on_db|].
    unfold socket_on. destruct (io s) as [srv|]; [|done].
    destruct (srv !! i) as [sk|]; [|done]. by destruct (sock_connected sk).
Qed.

(** ** Runs *)

Lemma run_invariant (Q : Action → Prop) (P : System → Prop) fuel acts s tr :
  (∀ a s1 s2, Q a → perform fuel a s1 = Some s2 → P s1 → P s2) →
  Forall Q acts →
  run fuel acts s = Some tr →
  P s → Forall P tr.
Proof.
  intros Hstep. revert s tr.
  induction acts as [|a acts IH]; intros s tr HQ Hrun HP; simpl in Hrun.
  - injection Hrun as <-. constructor.
  - destruct (perform fuel a s) as [s1|] eqn:Hp; simpl in Hrun; [|done].
    destruct (run fuel acts s1) as [tr1|] eqn:Hr; simpl in Hrun; [|done].
    injection Hrun as <-. apply Forall_cons in HQ as [Ha HQ].
    assert (P s1) by eauto. constructor; eauto.
Qed.

Lemma run_invariant_all (P : System → Prop) fuel acts s tr :
  (∀ a s1 s2, perform fuel a s1 = Some s2 → P s1 → P s2) →
  run fuel acts s = Some tr →
  P s → Forall P tr.
Proof.
  intros Hstep. apply (run_invariant (λ _, True)); [by eauto|].
  by apply Forall_true.
Qed.

(** ** Refusals write nothing, accepted writes dispatch one event *)

(** X1: a refusal is decided before the first write.  When the handler
    of a list, create, assign, close or append request answers 400, 403
    or 404, it has written nothing: the state it leaves is the state it
    found, tables, connections and dispatched events alike.  When it
    answers 200 or 201, it has called [triggerWebhook] exactly once,
    except for the list, which leaves the state as it found it. *)
Theorem refusals_change_nothing fuel env user req s r s' :
  handle fuel env user req s = Some (r, s') →
  (res_status r ∈ [400; 403; 404] → s' = s)
  ∧ (res_status r ∈ [200; 201] →
     match req with
     | GET_conversations _ => s' = s
     | _ => ∃ e, dispatched s' = dispatched s ++ [e]
     end).
Proof.
  intros Hh. apply handle_outcome in Hh.
  assert (∀ code : nat, code ∈ [200; 201] → code ∈ [400; 403; 404] → False)
    as Hapart.
  { intros code H1 H2.
    repeat (apply elem_of_cons in H1 as [->|H1]);
      [..|by apply elem_of_nil in H1];
      repeat (apply elem_of_cons in H2 as [H2|H2]); try done;
      by apply elem_of_nil in H2. }
  inversion Hh as [st cs|req' code err Hcode| | | | ]; subst; simpl.
  - by split.
  - split; [done|]. intros Hok. destruct (Hapart code Hok Hcode).
  - split; [intros Hno; destruct (Hapart 201); [|done]|by eexists].
    apply list_elem_of_further, list_elem_of_here.
  - split; [intros Hno; destruct (Hapart 200); [|done]|by eexists].
    apply list_elem_of_here.
  - split; [intros Hno; destruct (Hapart 200); [|done]|by eexists].
    apply list_elem_of_here.
  - split; [intros Hno; destruct (Hapart 201); [|done]|by eexists].
    apply list_elem_of_further, list_elem_of_here.
Qed.

Lemma refusals_change_nothing_witness :
  ∃ r s',
    handle 1 (sample.env 12 "m") sample.alice
      (POST_messages (Some "c0") (Some "anyone?")) sample.s_pending
    = Some (r, s')
    ∧ r = mkResponse 400 (json_error "Conversation is not active yet")
    ∧ s' = sample.s_pending.
Proof.
  eexists _, _. split; [vm_compute; reflexivity|]. split; [reflexivity|].
  apply (refusals_change_nothing 1 (sample.env 12 "m") sample.alice
           (POST_messages (Some "c0") (Some "anyone?")) sample.s_pending
           (mkResponse 400 (json_error "Conversation is not active yet")));
    [vm_compute; reflexivity|].
  apply list_elem_of_here.
Defined.

(** ** What the store keeps along a run *)

Lemma update_where_id_keeps {B} (g : Conversation → B) id f cs :
  (∀ c, g (f c) = g c) →
  g <$> update_where_id id f cs = g <$> cs.
Proof.
  intros Hg. unfold update_where_id. rewrite <- list_fmap_compose.
  apply list_fmap_ext. intros i c _. simpl. by case_decide.
Qed.

Lemma outcome_messages env user s req r s' :
  Outcome env user s req r s' →
  ∃ ms, messages (db s') = messages (db s) ++ ms.
Proof.
  intros H. inversion H; subst;
    try (exists []; by rewrite app_nil_r);
    match goal with Hdb : db s' = _ |- _ => rewrite Hdb end; simpl;
    first [by eexists | exists []; by rewrite app_nil_r].
Qed.

Lemma perform_messages fuel a s s' :
  perform fuel a s = Some s' →
  messages (db s) `prefix_of` messages (db s').
Proof.
  intros H. apply perform_outcome in H as [[-> _]|(env & user & req & r & _ & H)].
  - done.
  - apply outcome_messages in H as [ms ->]. by exists ms.
Qed.

(** X2: the message ledger is append-only.  Whatever requests and socket
    events follow, the messages stored so far stay where they are, in
    the table and in the ledger of each conversation. *)
Theorem ledger_is_append_only fuel acts s tr :
  run fuel acts s = Some tr →
  Forall (λ s', messages (db s) `prefix_of` messages (db s')
                ∧ ∀ id, ledger id s `prefix_of` ledger id s') tr.
Proof.
  intros Hrun.
  eapply Forall_impl;
    [apply (run_invariant_all
              (λ s', messages (db s) `prefix_of` messages (db s'))
              fuel acts s tr); [|done|done]|].
  - intros a s1 s2 Hp Hs1. etrans; [done|]. by eapply perform_messages.
  - intros s' [ms Hms]. split; [by exists ms|].
    intros id. unfold ledger. rewrite Hms, filter_app. by eexists.
Qed.

Lemma ledger_is_append_only_witness :
  Forall (λ s', messages (db sample.s_pending) `prefix_of` messages (db s')
                ∧ ∀ id, ledger id sample.s_pending `prefix_of` ledger id s')
    [sample.after [sample.assign] sample.s_pending;
     sample.after [sample.assign; sample.say 22 sample.alice "thanks"]
       sample.s_pending].
Proof.
  apply (ledger_is_append_only 4
           [sample.assign; sample.say 22 sample.alice "thanks"]).
  vm_compute. reflexivity.
Defined.

Lemma effect_identity cs cs' (i : nat) c :
  ConvEffect cs cs' →
  cs !! i = Some c →
  ∃ c', cs' !! i = Some c' ∧ identity c' = identity c.
Proof.
  intros [|c0 Hst Hat|id0 a t c0 Hc Hst|id0 t|id0 t] Hi.
  - by exists c.
  - exists c. split; [|done]. rewrite lookup_app_l; [done|].
    by eapply lookup_lt_Some.
  - rewrite update_where_id_lookup, Hi. simpl. eexists. split; [done|].
    by case_decide.
  - rewrite update_where_id_lookup, Hi. simpl. eexists. split; [done|].
    by case_decide.
  - rewrite update_where_id_lookup, Hi. simpl. eexists. split; [done|].
    by case_decide.
Qed.

(** X3: a conversation is never deleted or moved, and its id, protocol
    code, channel, owning client and creation time never change: along any
    run the row at a position keeps these columns. *)
Theorem conversation_identity_is_immutable fuel acts s tr (i : nat) c :
  conversations (db s) !! i = Some c →
  run fuel acts s = Some tr →
  Forall (λ s', ∃ c', conversations (db s') !! i = Some c'
                      ∧ conv_id c' = conv_id c
                      ∧ conv_protocol c' = conv_protocol c
                      ∧ conv_channelId c' = conv_channelId c
                      ∧ conv_clientId c' = conv_clientId c
                      ∧ conv_createdAt c' = conv_createdAt c) tr.
Proof.
  intros Hi Hrun.
  eapply Forall_impl;
    [apply (run_invariant_all
              (λ s', ∃ c', conversations (db s') !! i = Some c'
                           ∧ identity c' = identity c)
              fuel acts s tr); [|done|by exists c]|].
  - intros a s1 s2 Hp (c1 & Hc1 & Hid1). apply perform_effect in Hp.
    destruct (effect_identity _ _ i c1 Hp Hc1) as (c2 & Hc2 & Hid2).
    exists c2. split; [done|]. congruence.
  - intros s' (c' & Hc' & Hid). exists c'. split; [done|].
    unfold identity in Hid. by simplify_eq.
Qed.

Lemma conversation_identity_is_immutable_witness :
  Forall (λ s', ∃ c', conversations (db s') !! 0 = Some c'
                      ∧ conv_id c' = "c0"
                      ∧ conv_protocol c' = "0123456789ABC"
                      ∧ conv_channelId c' = None
                      ∧ conv_clientId c' = "u-alice"
                      ∧ conv_createdAt c' = 10%N)
    [sample.s_active; sample.s_closed].
Proof.
  apply (conversation_identity_is_immutable 4 [sample.assign; sample.close]
           sample.s_pending _ 0
           (mkConversation "c0" "0123456789ABC" None "u-alice" None pending
              10 10)).
  - reflexivity.
  - vm_compute. reflexivity.
Defined.

(** ** The attendant of a conversation, with overlap *)

Lemma arrive_not_about_to_assign env user req id :
  about_to_assign id (arrive env user req) = false.
Proof.
  destruct req; cbn [arrive]; repeat (case_decide || case_match); done.
Qed.

(** Once a conversation has left pending, a handler that is not about to
    assign it neither gets there nor does more to the row than close it. *)
Lemma resume_settled t h s id c :
  find_conversation id s = Some c →
  conv_status c ≠ pending →
  about_to_assign id h = false →
  about_to_assign id (resume t h s).1 = false
  ∧ ∃ c',
      find_conversation id (resume t h s).2 = Some c'
      ∧ conv_attendantId c' = conv_attendantId c
      ∧ (conv_status c' = conv_status c ∨ conv_status c' = closed).
Proof.
  unfold find_conversation. intros Hc Hst Hh.
  assert (∀ s1 : System, conversations (db s1) = conversations (db s) →
            ∃ c', head (where_id id (conversations (db s1))) = Some c'
                  ∧ conv_attendantId c' = conv_attendantId c
                  ∧ (conv_status c' = conv_status c
                     ∨ conv_status c' = closed)) as Hsame.
  { intros s1 ->. exists c. auto. }
  destruct h; cbn [resume]; cbv zeta;
    repeat (case_decide || case_match); cbn [fst snd about_to_assign];
    try (split; [done|]); try (apply Hsame; reflexivity).
  all: cbn [db set_db set_conversations conversations].
  all: try (rewrite head_where_id_snoc, Hc; exists c; by auto).
  all: try (rewrite head_where_id_update by keeps_id; rewrite Hc; simpl;
            case_decide; eexists; (split; [done|]); simpl; by auto).
  - split; [|by apply Hsame]. apply bool_decide_eq_false_2. intros ->.
    congruence.
  - cbn [about_to_assign] in Hh. apply bool_decide_eq_false_1 in Hh.
    rewrite head_where_id_update by keeps_id. rewrite Hc. simpl.
    rewrite decide_False by congruence. exists c. auto.
  - cbn [about_to_assign] in Hh. apply bool_decide_eq_false_1 in Hh.
    rewrite head_where_id_update by keeps_id. rewrite Hc. simpl.
    rewrite decide_False by congruence. exists c. auto.
Qed.

Lemma occur_settled e p id c :
  find_conversation id (sys p) = Some c →
  conv_status c ≠ pending →
  Forall (λ h, about_to_assign id h = false) (in_flight p) →
  Forall (λ h, about_to_assign id h = false) (in_flight (occur e p))
  ∧ ∃ c',
      find_conversation id (sys (occur e p)) = Some c'
      ∧ conv_attendantId c' = conv_attendantId c
      ∧ (conv_status c' = conv_status c ∨ conv_status c' = closed).
Proof.
  intros Hc Hst Hall.
  destruct e as [env user req|i t|t token|t i ev]; cbn [occur].
  - cbn [sys in_flight]. split; [|exists c; auto].
    apply Forall_app. split; [done|]. apply Forall_singleton.
    apply arrive_not_about_to_assign.
  - destruct (in_flight p !! i) as [h|] eqn:Hi; [|split; [done|exists c; auto]].
    assert (about_to_assign id h = false) as Hh.
    { by apply (Forall_lookup_1 _ _ _ _ Hall Hi). }
    destruct (resume_settled t h (sys p) id c Hc Hst Hh) as [Hh' Hc'].
    destruct (resume t h (sys p)) as [h' s']. cbn [sys in_flight fst snd] in *.
    split; [|done]. by apply Forall_insert.
  - cbn [sys in_flight]. split; [done|]. exists c.
    unfold find_conversation in *. rewrite connect_db. auto.
  - cbn [sys in_flight]. split; [done|]. exists c.
    unfold find_conversation in *. rewrite socket_on_db. auto.
Qed.

Lemma overlapped_settled evs p id c :
  find_conversation id (sys p) = Some c →
  conv_status c ≠ pending →
  Forall (λ h, about_to_assign id h = false) (in_flight p) →
  Forall (settled id c) (overlapped evs p).
Proof.
  intros Hc Hst Hall. apply overlapped_invariant.
  - intros e p1 (Hall1 & c1 & Hc1 & Hatt1 & Hst1 & Hstep1).
    destruct (occur_settled e p1 id c1 Hc1 Hst1 Hall1)
      as (Hall2 & c2 & Hc2 & Hatt2 & Hst2).
    split; [done|]. exists c2. split; [done|]. split; [congruence|].
    destruct Hst2 as [->| ->]; [done|]. split; [done|].
    apply allowed_step_closed.
  - split; [done|]. exists c. repeat split; try done. apply allowed_step_refl.
Qed.

Lemma write_attendant id cs cs' c :
  ConvWrite cs cs' →
  head (where_id id cs) = Some c →
  is_Some (conv_attendantId c) →
  ∃ c', head (where_id id cs') = Some c' ∧ is_Some (conv_attendantId c').
Proof.
  intros [|c0 Hst Hat|id0 b t|id0 t|id0 t] Hc Ha.
  - by exists c.
  - exists c. by rewrite head_where_id_snoc, Hc.
  - rewrite head_where_id_update by keeps_id. rewrite Hc. simpl.
    eexists. split; [done|]. by case_decide.
  - rewrite head_where_id_update by keeps_id. rewrite Hc. simpl.
    eexists. split; [done|]. by case_decide.
  - rewrite head_where_id_update by keeps_id. rewrite Hc. simpl.
    eexists. split; [done|]. by case_decide.
Qed.

(** X4: the attendant of a conversation is never removed, and it is
    replaced only by an assign that was already past its guard.  Along
    any sequence of arrivals, resumptions, handshakes and socket events,
    overlapping as they may, a conversation that has an attendant keeps
    having one.  If at the start no handler in flight has passed the
    guard of assign for this conversation and awaits its update, the
    attendant stays the same for good: every later assign reads a status
    other than pending and is refused.  (Two assigns that both read the
    conversation as pending do both write; the second replaces the
    attendant of the first.) *)
Theorem attendant_is_never_removed evs p id c a :
  pending_unassigned (db (sys p)) →
  find_conversation id (sys p) = Some c →
  conv_attendantId c = Some a →
  Forall (λ p', ∃ c' a',
            find_conversation id (sys p') = Some c'
            ∧ conv_attendantId c' = Some a'
            ∧ (Forall (λ h, about_to_assign id h = false) (in_flight p) →
               a' = a))
    (overlapped evs p).
Proof.
  intros Hinv Hc Ha.
  assert (conv_status c ≠ pending) as Hst.
  { intros Hp. apply head_where_id_spec in Hc as [Hin _].
    unfold pending_unassigned in Hinv. rewrite Forall_forall in Hinv.
    specialize (Hinv c Hin Hp). congruence. }
  destruct (decide (Forall (λ h, about_to_assign id h = false) (in_flight p)))
    as [Hall|Hnot].
  - eapply Forall_impl; [exact (overlapped_settled evs p id c Hc Hst Hall)|].
    intros p' (_ & c' & Hc' & Hatt & _). exists c', a.
    split; [done|]. split; [congruence|done].
  - eapply Forall_impl;
      [apply (overlapped_invariant
                (λ p', ∃ c', find_conversation id (sys p') = Some c'
                             ∧ is_Some (conv_attendantId c')))|].
    + intros e p1 (c1 & Hc1 & Ha1).
      by apply (write_attendant id _ _ c1 (occur_write e p1)).
    + exists c. split; [done|]. by rewrite Ha.
    + intros p' (c' & Hc' & [a' Ha']). exists c', a'. by repeat split.
Qed.

Lemma attendant_is_never_removed_witness :
  Forall (λ p', ∃ c', find_conversation "c0" (sys p') = Some c'
                      ∧ conv_attendantId c' = Some "u-bob")
    (overlapped sample.dave_tries sample.p_assigned)
  ∧ status_of "c0" (sys (finally sample.dave_tries sample.p_assigned))
    = Some closed.
Proof.
  split; [|vm_compute; reflexivity].
  eapply Forall_impl;
    [apply (attendant_is_never_removed sample.dave_tries sample.p_assigned
              "c0"
              (mkConversation "c0" "0123456789ABC" None "u-alice"
                 (Some "u-bob") active 10 20) "u-bob")|].
  - vm_compute. repeat constructor. discriminate.
  - vm_compute. reflexivity.
  - reflexivity.
  - intros p' (c' & a' & Hc' & Ha' & Hsame). exists c'. split; [done|].
    rewrite Ha'. f_equal. apply Hsame. vm_compute. repeat constructor.
Defined.

(** Two attendants take the same pending conversation at once: both read
    it as pending, both are answered with 200, and the conversation ends
    with the attendant whose update the store performed last. *)
Example overlapping_assigns_overwrite :
  let p := finally sample.double_assign sample.p0 in
  in_flight p
  = [answered
       (mkResponse 201
          (json_conversation
             (mkConversation "c0" "0123456789ABC" None "u-alice" None pending
                10 10)));
     answered
       (mkResponse 200
          (json_conversation
             (mkConversation "c0" "0123456789ABC" None "u-alice"
                (Some "u-bob") active 10 20)));
     answered
       (mkResponse 200
          (json_conversation
             (mkConversation "c0" "0123456789ABC" None "u-alice"
                (Some "u-dave") active 10 20)))]
  ∧ conv_attendantId <$> conversations (db (sys p)) = [Some "u-dave"].
Proof. vm_compute. done. Qed.

(** ** Protocol codes along a run *)




Lemma outcome_codes_distinct env user s req r s' :
  Outcome env user s req r s' →
  NoDup (conv_protocol <$> conversations (db s)) →
  NoDup (conv_protocol <$> conversations (db s')).
Proof.
  intros H Hnd. inversion H; subst; try done;
    match goal with Hdb : db s' = _ |- _ => rewrite Hdb end; simpl.
  - rewrite fmap_app. apply NoDup_app. split; [done|]. split.
    + intros p Hp Hp'. apply list_elem_of_fmap in Hp as (c' & -> & Hc').
      apply list_elem_of_singleton in Hp'. simpl in Hp'.
      by eapply where_protocol_nil.
    + apply NoDup_singleton.
  - rewrite update_where_id_keeps; [done|by intros []].
  - rewrite update_where_id_keeps; [done|by intros []].
  - rewrite update_where_id_keeps; [done|by intros []].
Qed.

(** X6: protocol codes stay unique across the whole table: if no two
    conversations share a code, as at start-up, then no two do after any
    sequence of socket events and requests, each request answered before
    the next is handled: a create draws again until no conversation
    carries the code it has drawn. *)
Theorem protocol_codes_stay_distinct fuel acts s tr :
  NoDup (conv_protocol <$> conversations (db s)) →
  run fuel acts s = Some tr →
  Forall (λ s', NoDup (conv_protocol <$> conversations (db s'))) tr.
Proof.
  intros Hnd Hrun.
  apply (run_invariant_all
           (λ s', NoDup (conv_protocol <$> conversations (db s')))
           fuel acts s tr); [|done|done].
  intros a s1 s2 Hp Hs1.
  apply perform_outcome in Hp as [[-> _]|(env & user & req & r & _ & H)];
    [done|]. by eapply outcome_codes_distinct.
Qed.

Lemma protocol_codes_stay_distinct_witness :
  Forall (λ s', NoDup (conv_protocol <$> conversations (db s')))
    [sample.s_pending;
     sample.after
       [sample.create;
        request (sample.env 70 "d") sample.carol
          (POST_conversations None None)] sample.s0].
Proof.
  apply (protocol_codes_stay_distinct 4
           [sample.create;
            request (sample.env 70 "d") sample.carol
              (POST_conversations None None)] sample.s0).
  - constructor.
  - vm_compute. reflexivity.
Defined.

Lemma outcome_codes_match env user s req r s' :
  (∀ n, unit_interval (Math_random env n)) →
  Outcome env user s req r s' →
  Forall (λ c, matches_hex13 (conv_protocol c) = true) (conversations (db s)) →
  Forall (λ c, matches_hex13 (conv_protocol c) = true)
    (conversations (db s')).
Proof.
  intros Hrnd H Hall. inversion H; subst; try done;
    match goal with Hdb : db s' = _ |- _ => rewrite Hdb end; simpl.
  - apply Forall_app. split; [done|]. apply Forall_singleton. simpl.
    match goal with Hpos : ∃ _, _ = generateProtocol _ _ |- _ =>
      destruct Hpos as [pos ->] end.
    by apply generateProtocol_matches.
  - unfold update_where_id. apply Forall_fmap. eapply Forall_impl; [done|].
    intros c0 Hc0. simpl. by case_decide.
  - unfold update_where_id. apply Forall_fmap. eapply Forall_impl; [done|].
    intros c0 Hc0. simpl. by case_decide.
  - unfold update_where_id. apply Forall_fmap. eapply Forall_impl; [done|].
    intros c0 Hc0. simpl. by case_decide.
Qed.

(** X7: with [Math.random] in [0, 1) at every request, every conversation
    of every state reached from start-up carries a code of thirteen
    characters among 0-9A-F. *)
Theorem protocol_codes_stay_well_formed fuel acts e us tr :
  Forall well_drawn acts →
  run fuel acts (startup e us) = Some tr →
  Forall (λ s', Forall (λ c, matches_hex13 (conv_protocol c) = true)
                  (conversations (db s'))) tr.
Proof.
  intros Hdrawn Hrun.
  apply (run_invariant well_drawn
           (λ s', Forall (λ c, matches_hex13 (conv_protocol c) = true)
                    (conversations (db s')))
           fuel acts (startup e us) tr); [|done|done|constructor].
  intros a s1 s2 Ha Hp Hs1.
  apply perform_outcome in Hp as [[-> _]|(env & user & req & r & -> & H)];
    [done|]. by eapply outcome_codes_match.
Qed.

Lemma sample_well_drawn t key user req :
  well_drawn (request (sample.env t key) user req).
Proof.
  intros n. change (n `mod` 16 < 16). apply Nat.mod_upper_bound. lia.
Qed.

Lemma protocol_codes_stay_well_formed_witness :
  Forall (λ s', Forall (λ c, matches_hex13 (conv_protocol c) = true)
                  (conversations (db s')))
    [sample.s_pending; sample.s_active].
Proof.
  apply (protocol_codes_stay_well_formed 4 [sample.create; sample.assign]
           sample.penv
           [sample.alice; sample.carol; sample.bob; sample.dave; sample.root]).
  - repeat (apply Forall_cons; split; [apply sample_well_drawn|]).
    constructor.
  - vm_compute. reflexivity.
Defined.

(** ** The status of a conversation, with overlap *)

(** X8: the status of a conversation never comes back to pending, and
    it moves backwards only by an assign that was already past its guard.
    Along any sequence of arrivals, resumptions, handshakes and socket
    events, overlapping as they may, a conversation that is active or
    closed is never pending again.  If at the start no handler in flight
    has passed the guard of assign for this conversation and awaits its
    update, the status only moves forward from there: a closed
    conversation stays closed and an active one stays active or becomes
    closed. *)
Theorem status_never_returns_to_pending evs p id st :
  status_of id (sys p) = Some st →
  Forall (λ p', ∃ st',
            status_of id (sys p') = Some st'
            ∧ (st ≠ pending → st' ≠ pending)
            ∧ (Forall (λ h, about_to_assign id h = false) (in_flight p) →
               allowed_step st st' = true))
    (overlapped evs p).
Proof.
  intros Hst.
  assert (Forall (λ p', ∃ st', status_of id (sys p') = Some st'
                               ∧ (st ≠ pending → st' ≠ pending))
            (overlapped evs p)) as Hnever.
  { apply overlapped_invariant; [|by exists st].
    intros e p1 (st1 & Hst1 & Hback1).
    pose proof (occur_status e p1 id) as H. rewrite Hst1 in H.
    destruct H as (st2 & Hst2 & Hback2). exists st2. split; [done|].
    intros Hne Hp. apply (Hback1 Hne). by apply Hback2. }
  destruct (decide (st = pending)) as [->|Hne].
  { eapply Forall_impl; [exact Hnever|].
    intros p' (st' & Hst' & _). exists st'. by repeat split. }
  unfold status_of in Hst.
  destruct (find_conversation id (sys p)) as [c|] eqn:Hc; [|done].
  injection Hst as <-.
  destruct (decide (Forall (λ h, about_to_assign id h = false) (in_flight p)))
    as [Hall|Hnot].
  - eapply Forall_impl; [exact (overlapped_settled evs p id c Hc Hne Hall)|].
    intros p' (_ & c' & Hc' & _ & Hst' & Hstep). exists (conv_status c').
    unfold status_of. rewrite Hc'. by repeat split.
  - eapply Forall_impl; [exact Hnever|].
    intros p' (st' & Hst' & Hback). exists st'. by repeat split.
Qed.

Lemma status_never_returns_to_pending_witness :
  let late :=
    [arrival (sample.env 41 "a") sample.root (POST_assign "c0");
     resumption 0 41; resumption 0 42;
     arrival (sample.env 43 "m") sample.bob
       (POST_messages (Some "c0") (Some "one more thing"));
     resumption 1 43; resumption 1 44; resumption 1 45; resumption 1 46] in
  Forall (λ p', status_of "c0" (sys p') = Some closed)
    (overlapped late (mkProcess sample.s_closed []))
  ∧ length (ledger "c0" (sys (finally late (mkProcess sample.s_closed []))))
    = 2.
Proof.
  intros late. split; [|vm_compute; reflexivity].
  eapply Forall_impl;
    [apply (status_never_returns_to_pending late
              (mkProcess sample.s_closed []) "c0" closed); reflexivity|].
  intros p' (st' & Hst' & _ & Hstep). rewrite Hst'. f_equal.
  specialize (Hstep (Forall_nil_2 _)). by destruct st'.
Defined.

(** ** Rooms and relays *)

Lemma join_rooms room sk : room ∈ sock_rooms (join room sk).
Proof.
  unfold join. simpl. case_decide; [done|]. apply elem_of_app. right.
  apply list_elem_of_here.
Qed.

Lemma leave_rooms room sk : room ∉ sock_rooms (leave room sk).
Proof. unfold leave. simpl. rewrite list_elem_of_filter. by intros [? _]. Qed.

Lemma server_lookup_alter_eq f (srv : Server) (i : nat) :
  alter f i srv !! i = f <$> srv !! i.
Proof. apply list_lookup_alter_eq. Qed.

Lemma server_lookup_alter_ne f (srv : Server) (i j : nat) :
  i ≠ j → alter f i srv !! j = srv !! j.
Proof. apply list_lookup_alter_ne. Qed.

(** X9: joining the room of a conversation is not checked against the
    store.  Once an open connection has sent [join:conversation] for an
    id, a [message:send] for that id from any other open connection is
    delivered to it, once, with the sender's principal and the time of
    the relay, whether or not such a conversation exists or concerns
    either of them; the store is not touched. *)
Theorem joined_connection_receives_relay t1 t2 i j c text s srv ski skj :
  io s = Some srv →
  srv !! i = Some ski → sock_connected ski = true →
  srv !! j = Some skj → sock_connected skj = true →
  i ≠ j →
  let s2 :=
    socket_on t2 i (on_message_send c text)
      (socket_on t1 j (on_join_conversation c) s) in
  db s2 = db s
  ∧ ∃ srv2 skj2,
      io s2 = Some srv2 ∧ srv2 !! j = Some skj2
      ∧ sock_received skj2
        = sock_received skj
          ++ [message_new c text (user_id (sock_user ski))
                (user_name (sock_user ski)) t2].
Proof.
  intros Hio Hi Hci Hj Hcj Hne s2. subst s2. split.
  { by rewrite !socket_on_db. }
  unfold socket_on at 2. rewrite Hio, Hj, Hcj. cbn [socket_handler].
  unfold socket_on. cbn [io set_io].
  rewrite server_lookup_alter_ne, Hi, Hci by congruence.
  cbn [io set_io socket_handler].
  eexists _, _. split; [reflexivity|].
  rewrite emit_to_lookup, server_lookup_alter_eq, Hj. simpl.
  rewrite decide_True; [done|]. split; [apply join_rooms|congruence].
Qed.

Lemma joined_connection_receives_relay_witness :
  let s := sample.after (sample.listen 25 sample.bob
                         ++ [connection 26 (Some (generateToken sample.penv 0
                                                    "u-carol"))]) sample.s0 in
  let s2 :=
    socket_on 28 1 (on_message_send "no-such-id" "psst")
      (socket_on 27 0 (on_join_conversation "no-such-id") s) in
  db s2 = db s
  ∧ ∃ srv2 skj2,
      io s2 = Some srv2 ∧ srv2 !! 0 = Some skj2
      ∧ sock_received skj2 = [] ++ [message_new "no-such-id" "psst" "u-carol" "" 28].
Proof.
  intros s.
  eapply (joined_connection_receives_relay 27 28 1 0 "no-such-id" "psst" s _
            (mkSocket (mkUser "u-carol" "" client "") true
               ["user:u-carol"; "role:client"] [])
            (mkSocket (mkUser "u-bob" "" client "") true
               ["user:u-bob"; "role:client"; "conversation:c0"] []));
    try reflexivity. discriminate.
Defined.

(** X10: after [leave:conversation] a connection is out of the room: a
    later [message:send] for that id from another connection leaves what
    it has received as it was. *)
Theorem left_connection_receives_nothing t1 t2 i j c text s srv ski skj :
  io s = Some srv →
  srv !! i = Some ski → sock_connected ski = true →
  srv !! j = Some skj → sock_connected skj = true →
  i ≠ j →
  let s2 :=
    socket_on t2 i (on_message_send c text)
      (socket_on t1 j (on_leave_conversation c) s) in
  ∃ srv2 skj2,
    io s2 = Some srv2 ∧ srv2 !! j = Some skj2
    ∧ (room_conversation c ∉ sock_rooms skj2)
    ∧ sock_received skj2 = sock_received skj.
Proof.
  intros Hio Hi Hci Hj Hcj Hne s2. subst s2.
  unfold socket_on at 2. rewrite Hio, Hj, Hcj. cbn [socket_handler].
  unfold socket_on. cbn [io set_io].
  rewrite server_lookup_alter_ne, Hi, Hci by congruence.
  cbn [io set_io socket_handler].
  eexists _, _. split; [reflexivity|].
  rewrite emit_to_lookup, server_lookup_alter_eq, Hj. simpl.
  rewrite decide_False by (intros [Hin _]; by apply leave_rooms in Hin).
  split; [done|]. split; [apply leave_rooms|done].
Qed.

Lemma left_connection_receives_nothing_witness :
  let s := sample.after [connection 26 (Some (generateToken sample.penv 0
                                                "u-alice"))]
             sample.s_listening in
  let s2 :=
    socket_on 28 1 (on_message_send "c0" "still there?")
      (socket_on 27 0 (on_leave_conversation "c0") s) in
  ∃ srv2 skj2,
    io s2 = Some srv2 ∧ srv2 !! 0 = Some skj2
    ∧ (room_conversation "c0" ∉ sock_rooms skj2)
    ∧ sock_received skj2 = [].
Proof.
  intros s.
  eapply (left_connection_receives_nothing 27 28 1 0 "c0" "still there?" s _
            (mkSocket (mkUser "u-alice" "" client "") true
               ["user:u-alice"; "role:client"] [])
            (mkSocket (mkUser "u-bob" "" client "") true
               ["user:u-bob"; "role:client"; "conversation:c0"] []));
    try reflexivity. discriminate.
Defined.

(** X11: a relay never comes back to its sender and stays in the room of
    its conversation.  After [message:send], [typing:start] or
    [typing:stop] for a conversation, the sending connection is exactly as
    before, also when it is in the room itself; every other connection in
    the room [conversation:<id>] has received the one event of the relay,
    with the sender's id and name, and every connection outside that room
    is as before. *)
Theorem relay_skips_the_sender t i c text s srv sk ev relayed :
  io s = Some srv →
  srv !! i = Some sk → sock_connected sk = true →
  (ev, relayed)
  ∈ [(on_message_send c text,
      message_new c text (user_id (sock_user sk)) (user_name (sock_user sk))
        t);
     (on_typing_start c,
      typing_user c (user_id (sock_user sk)) (user_name (sock_user sk)));
     (on_typing_stop c, typing_stop c (user_id (sock_user sk)))] →
  ∃ srv',
    io (socket_on t i ev s) = Some srv'
    ∧ length srv' = length srv
    ∧ srv' !! i = Some sk
    ∧ ∀ j skj,
        srv !! j = Some skj →
        srv' !! j
        = Some (if decide (j ≠ i ∧ room_conversation c ∈ sock_rooms skj)
                then deliver relayed skj else skj).
Proof.
  intros Hio Hi Hconn Hev. unfold socket_on. rewrite Hio, Hi, Hconn.
  repeat (apply elem_of_cons in Hev as [[= -> ->]|Hev]);
    [..|by apply elem_of_nil in Hev];
    (eexists; split; [reflexivity|]; cbn [socket_handler];
     split; [apply emit_to_length|];
     split;
     [rewrite emit_to_lookup, Hi; simpl;
      by rewrite decide_False by (by intros [_ H])
     |intros j skj Hj; rewrite emit_to_lookup, Hj; simpl;
      destruct (decide (j = i)) as [->|Hne];
      [rewrite !decide_False; [done|by intros [H _]|by intros [_ H]]
      |destruct (decide (room_conversation c ∈ sock_rooms skj));
       [rewrite !decide_True; [done|done|split; [done|congruence]]
       |rewrite !decide_False; [done|by intros [_ H]|by intros [H _]]]]]).
Qed.

Lemma relay_skips_the_sender_witness :
  let s :=
    sample.after
      (sample.listen 25 sample.bob
       ++ [connection 26 (Some (generateToken sample.penv 0 "u-alice"));
           socket_event 26 1 (on_join_conversation "c0");
           connection 27 (Some (generateToken sample.penv 0 "u-carol"))])
      sample.s0 in
  let bob :=
    mkSocket (mkUser "u-bob" "" client "") true
      ["user:u-bob"; "role:client"; "conversation:c0"] [] in
  let alice :=
    mkSocket (mkUser "u-alice" "" client "") true
      ["user:u-alice"; "role:client"; "conversation:c0"] [] in
  let carol :=
    mkSocket (mkUser "u-carol" "" client "") true
      ["user:u-carol"; "role:client"] [] in
  io s = Some [bob; alice; carol]
  ∧ io (socket_on 30 0 (on_typing_start "c0") s)
    = Some [bob; deliver (typing_user "c0" "u-bob" "") alice; carol].
Proof.
  intros s bob alice carol. split; [vm_compute; reflexivity|].
  destruct (relay_skips_the_sender 30 0 "c0" "" s [bob; alice; carol] bob
              (on_typing_start "c0") (typing_user "c0" "u-bob" ""))
    as (srv' & -> & Hlen & H0 & Hrest);
    [vm_compute; reflexivity|reflexivity|reflexivity
    |apply list_elem_of_further, list_elem_of_here|].
  f_equal.
  pose proof (Hrest 1 alice eq_refl) as H1.
  pose proof (Hrest 2 carol eq_refl) as H2.
  destruct srv' as [|x0 [|x1 [|x2 [|x3 srv']]]]; try discriminate Hlen.
  cbn in H0, H1, H2. by simplify_eq.
Defined.

(** ** The rooms of a connection *)

Lemma room_user_inj a b : room_user a = room_user b → a = b.
Proof. unfold room_user. intros H. by simplify_eq/=. Qed.

Lemma room_role_inj a b : room_role a = room_role b → a = b.
Proof. by destruct a, b. Qed.

Lemma room_user_not_role a r : room_user a ≠ room_role r.
Proof. done. Qed.

Lemma room_conversation_not_user c a : room_conversation c ≠ room_user a.
Proof. done. Qed.

Lemma room_conversation_not_role c r : room_conversation c ≠ room_role r.
Proof. done. Qed.

Lemma socket_wf_deliver ev sk : socket_wf sk → socket_wf (deliver ev sk).
Proof. done. Qed.

Lemma socket_wf_join c sk :
  sock_connected sk = true →
  socket_wf sk → socket_wf (join (room_conversation c) sk).
Proof.
  unfold socket_wf, join. simpl. intros ->.
  - intros (Hu & Hr & Hall). case_decide; [done|].
    repeat split; [apply elem_of_app; by left|apply elem_of_app; by left|].
    intros r Hin.
    apply elem_of_app in Hin as [Hin|Hin%list_elem_of_singleton];
      [by apply Hall|].
    right. right. by exists c.
Qed.

Lemma socket_wf_leave c sk :
  socket_wf sk → socket_wf (leave (room_conversation c) sk).
Proof.
  unfold socket_wf, leave. simpl. destruct (sock_connected sk).
  - intros (Hu & Hr & Hall). rewrite !list_elem_of_filter. repeat split.
    + intros H. symmetry in H. by apply room_conversation_not_user in H.
    + done.
    + intros H. symmetry in H. by apply room_conversation_not_role in H.
    + done.
    + intros r [_ Hin]%list_elem_of_filter. by apply Hall.
  - by intros ->.
Qed.

Lemma Forall_server_alter (P : Socket → Prop) f (srv : Server) (i : nat) :
  (∀ sk, srv !! i = Some sk → P sk → P (f sk)) →
  Forall P srv → Forall P (alter f i srv).
Proof.
  intros Hf. rewrite !Forall_lookup. intros Hall j sk.
  destruct (decide (i = j)) as [->|Hne].
  - rewrite server_lookup_alter_eq.
    destruct (srv !! j) as [sk0|] eqn:Hj; [|done]. simpl. intros [= <-].
    eauto.
  - rewrite server_lookup_alter_ne by done. eauto.
Qed.

Lemma Forall_emit_to (P : Socket → Prop) room except ev (srv : Server) :
  (∀ sk, P sk → P (deliver ev sk)) →
  Forall P srv → Forall P (emit_to room except ev srv).
Proof.
  intros Hd. rewrite !Forall_lookup. intros Hall j sk.
  rewrite emit_to_lookup. destruct (srv !! j) as [sk0|] eqn:Hj; [|done].
  simpl. intros [= <-]. case_decide; eauto.
Qed.

Lemma socket_handler_wf t i user ev (srv : Server) sk :
  srv !! i = Some sk → sock_connected sk = true →
  Forall socket_wf srv → Forall socket_wf (socket_handler t i user ev srv).
Proof.
  intros Hi Hconn Hwf. destruct ev; simpl.
  - apply Forall_server_alter; [|done].
    intros sk0 Hsk0. rewrite Hi in Hsk0. injection Hsk0 as <-.
    by apply socket_wf_join.
  - apply Forall_server_alter; [intros; by apply socket_wf_leave|done].
  - by apply Forall_emit_to.
  - by apply Forall_emit_to.
  - by apply Forall_emit_to.
  - by apply Forall_server_alter.
Qed.

Lemma perform_gateway_wf fuel a s s' :
  perform fuel a s = Some s' → gateway_wf s → gateway_wf s'.
Proof.
  unfold gateway_wf. destruct a as [env user req|t token|t i ev]; simpl.
  - destruct (handle fuel env user req s) as [[r s1]|] eqn:Hh; [|done].
    intros [= <-]. by rewrite (handle_keeps_io _ _ _ _ _ _ _ Hh).
  - intros [= <-]. unfold connect. destruct (io s) as [srv|] eqn:Hio.
    + destruct (socket_auth _ _ _) as [err|user]; [by rewrite Hio|]. simpl.
      intros Hwf. apply Forall_app. split; [done|]. apply Forall_singleton.
      unfold socket_wf. simpl. repeat split.
      * apply list_elem_of_here.
      * apply list_elem_of_further, list_elem_of_here.
      * intros r Hr. rewrite !elem_of_cons, elem_of_nil in Hr. tauto.
    + by rewrite Hio.
  - intros [= <-]. unfold socket_on. destruct (io s) as [srv|] eqn:Hio.
    + destruct (srv !! i) as [sk|] eqn:Hi; [|by rewrite Hio].
      destruct (sock_connected sk) eqn:Hconn; [|by rewrite Hio]. simpl.
      by apply (socket_handler_wf _ _ _ _ _ sk).
    + by rewrite Hio.
Qed.

Lemma reachable_gateway_wf fuel acts e us tr :
  run fuel acts (startup e us) = Some tr → Forall gateway_wf tr.
Proof.
  intros Hrun.
  apply (run_invariant_all gateway_wf fuel acts (startup e us) tr);
    [|done|constructor].
  intros a s1 s2. apply perform_gateway_wf.
Qed.

Lemma in_personal_room sk uid :
  socket_wf sk →
  room_user uid ∈ sock_rooms sk
  ↔ sock_connected sk = true ∧ user_id (sock_user sk) = uid.
Proof.
  unfold socket_wf. destruct (sock_connected sk).
  - intros (Hu & Hr & Hall). split.
    + intros Hin. split; [done|].
      destruct (Hall _ Hin) as [H|[H|[c H]]].
      * symmetry. by apply room_user_inj.
      * by destruct (room_user_not_role uid (user_role (sock_user sk))).
      * by destruct (room_conversation_not_user c uid).
    + by intros [_ <-].
  - intros ->. split; [by intros ?%elem_of_nil|by intros [? _]].
Qed.

Lemma in_role_room sk r :
  socket_wf sk →
  room_role r ∈ sock_rooms sk
  ↔ sock_connected sk = true ∧ user_role (sock_user sk) = r.
Proof.
  unfold socket_wf. destruct (sock_connected sk).
  - intros (Hu & Hr & Hall). split.
    + intros Hin. split; [done|].
      destruct (Hall _ Hin) as [H|[H|[c H]]].
      * by destruct (room_user_not_role (user_id (sock_user sk)) r).
      * symmetry. by apply room_role_inj.
      * by destruct (room_conversation_not_role c r).
    + by intros [_ <-].
  - intros ->. split; [by intros ?%elem_of_nil|by intros [? _]].
Qed.

(** X12: in every state reached from start-up, [emitToUser] hands the
    event once to each open connection whose principal has that id and to
    no other connection: a room of a conversation that a client has
    joined never passes for a personal room. *)
Theorem emitToUser_reaches_the_user fuel acts e us tr s srv uid ev j sk :
  run fuel acts (startup e us) = Some tr →
  s ∈ tr →
  io s = Some srv →
  srv !! j = Some sk →
  ∃ srv',
    io (emitToUser uid ev s) = Some srv'
    ∧ db (emitToUser uid ev s) = db s
    ∧ srv' !! j
      = Some (if decide (sock_connected sk = true
                         ∧ user_id (sock_user sk) = uid)
              then deliver ev sk else sk).
Proof.
  intros Hrun Hs Hio Hj.
  pose proof (reachable_gateway_wf _ _ _ _ _ Hrun) as Hwf.
  rewrite Forall_forall in Hwf. specialize (Hwf s Hs).
  unfold gateway_wf in Hwf. rewrite Hio in Hwf.
  rewrite Forall_lookup in Hwf. specialize (Hwf j sk Hj).
  unfold emitToUser. simpl. rewrite Hio. simpl.
  eexists. split; [reflexivity|]. split; [done|].
  rewrite emit_to_lookup, Hj. simpl. f_equal.
  pose proof (in_personal_room sk uid Hwf) as Hiff.
  destruct (decide (sock_connected sk = true ∧ user_id (sock_user sk) = uid))
    as [Hyes|Hno].
  - rewrite decide_True; [done|]. split; [by apply Hiff|done].
  - rewrite decide_False; [done|]. intros [Hin _]. by apply Hno, Hiff.
Qed.

Lemma emitToUser_reaches_the_user_witness :
  let sk :=
    mkSocket (mkUser "u-bob" "" client "") true
      ["user:u-bob"; "role:client"; "conversation:c0"] [] in
  ∃ srv',
    io (emitToUser "u-bob" (typing_stop "c0" "u-alice") sample.s_listening)
    = Some srv'
    ∧ db (emitToUser "u-bob" (typing_stop "c0" "u-alice") sample.s_listening)
      = db sample.s_listening
    ∧ srv' !! 0
      = Some (if decide (sock_connected sk = true
                         ∧ user_id (sock_user sk) = "u-bob")
              then deliver (typing_stop "c0" "u-alice") sk else sk).
Proof.
  intros sk.
  eapply (emitToUser_reaches_the_user 4
            (sample.create :: sample.assign :: sample.listen 25 sample.bob)
            sample.penv
            [sample.alice; sample.carol; sample.bob; sample.dave; sample.root]
            _ sample.s_listening [sk]).
  - vm_compute. reflexivity.
  - do 3 apply list_elem_of_further. apply list_elem_of_here.
  - reflexivity.
  - reflexivity.
Defined.

(** X13: in every state reached from start-up, [emitToRole] hands the
    event once to each open connection whose principal has that role and
    to no other connection. *)
Theorem emitToRole_reaches_the_role fuel acts e us tr s srv r ev j sk :
  run fuel acts (startup e us) = Some tr →
  s ∈ tr →
  io s = Some srv →
  srv !! j = Some sk →
  ∃ srv',
    io (emitToRole r ev s) = Some srv'
    ∧ db (emitToRole r ev s) = db s
    ∧ srv' !! j
      = Some (if decide (sock_connected sk = true
                         ∧ user_role (sock_user sk) = r)
              then deliver ev sk else sk).
Proof.
  intros Hrun Hs Hio Hj.
  pose proof (reachable_gateway_wf _ _ _ _ _ Hrun) as Hwf.
  rewrite Forall_forall in Hwf. specialize (Hwf s Hs).
  unfold gateway_wf in Hwf. rewrite Hio in Hwf.
  rewrite Forall_lookup in Hwf. specialize (Hwf j sk Hj).
  unfold emitToRole. simpl. rewrite Hio. simpl.
  eexists. split; [reflexivity|]. split; [done|].
  rewrite emit_to_lookup, Hj. simpl. f_equal.
  pose proof (in_role_room sk r Hwf) as Hiff.
  destruct (decide (sock_connected sk = true ∧ user_role (sock_user sk) = r))
    as [Hyes|Hno].
  - rewrite decide_True; [done|]. split; [by apply Hiff|done].
  - rewrite decide_False; [done|]. intros [Hin _]. by apply Hno, Hiff.
Qed.

Lemma emitToRole_reaches_the_role_witness :
  let sk :=
    mkSocket (mkUser "u-bob" "" client "") true
      ["user:u-bob"; "role:client"; "conversation:c0"] [] in
  ∃ srv',
    io (emitToRole attendant (typing_stop "c0" "u-alice") sample.s_listening)
    = Some srv'
    ∧ db (emitToRole attendant (typing_stop "c0" "u-alice")
            sample.s_listening)
      = db sample.s_listening
    ∧ srv' !! 0
      = Some (if decide (sock_connected sk = true
                         ∧ user_role (sock_user sk) = attendant)
              then deliver (typing_stop "c0" "u-alice") sk else sk).
Proof.
  intros sk.
  eapply (emitToRole_reaches_the_role 4
            (sample.create :: sample.assign :: sample.listen 25 sample.bob)
            sample.penv
            [sample.alice; sample.carol; sample.bob; sample.dave; sample.root]
            _ sample.s_listening [sk]).
  - vm_compute. reflexivity.
  - do 3 apply list_elem_of_further. apply list_elem_of_here.
  - reflexivity.
  - reflexivity.
Defined.

(** What an action does to one connection: nothing, a change of its rooms
    or its closing on its own event, or the delivery of one event in a
    room it is in. *)
Lemma perform_socket fuel a s s' srv (i : nat) sk :
  perform fuel a s = Some s' →
  io s = Some srv →
  srv !! i = Some sk →
  ∃ srv' sk',
    io s' = Some srv' ∧ srv' !! i = Some sk'
    ∧ (sk' = sk
       ∨ (sock_connected sk = true
          ∧ sock_user sk' = sock_user sk
          ∧ sock_received sk' = sock_received sk)
       ∨ ∃ room ev, room ∈ sock_rooms sk ∧ sk' = deliver ev sk).
Proof.
  intros Hp Hio Hi. destruct a as [env user req|t token|t j ev]; simpl in Hp.
  - destruct (handle fuel env user req s) as [[r s1]|] eqn:Hh; [|done].
    injection Hp as <-. rewrite (handle_keeps_io _ _ _ _ _ _ _ Hh), Hio.
    exists srv, sk. by repeat split; [..|left].
  - injection Hp as <-. unfold connect. rewrite Hio.
    destruct (socket_auth _ _ _) as [err|user].
    + exists srv, sk. by repeat split; [..|left].
    + eexists _, sk. simpl. split; [reflexivity|]. split; [|by left].
      by apply lookup_app_l_Some.
  - injection Hp as <-. unfold socket_on. rewrite Hio.
    destruct (srv !! j) as [skj|] eqn:Hj;
      [|exists srv, sk; by repeat split; [..|left]].
    destruct (sock_connected skj) eqn:Hcj;
      [|exists srv, sk; by repeat split; [..|left]].
    simpl.
    assert (∀ f, (∀ x, sock_user (f x) = sock_user x
                       ∧ sock_received (f x) = sock_received x) →
                 ∃ sk', alter f j srv !! i = Some sk'
                        ∧ (sk' = sk
                           ∨ (sock_connected sk = true
                              ∧ sock_user sk' = sock_user sk
                              ∧ sock_received sk' = sock_received sk)
                           ∨ ∃ room ev, room ∈ sock_rooms sk
                                        ∧ sk' = deliver ev sk)) as Halter.
    { intros f Hf. destruct (decide (j = i)) as [->|Hne].
      - rewrite server_lookup_alter_eq, Hi. simpl. eexists. split; [done|].
        right. left. rewrite Hi in Hj. injection Hj as <-.
        split; [done|]. apply Hf.
      - rewrite server_lookup_alter_ne, Hi by done. eexists.
        split; [done|by left]. }
    assert (∀ room e,
              ∃ sk', emit_to room (Some j) e srv !! i = Some sk'
                     ∧ (sk' = sk
                        ∨ (sock_connected sk = true
                           ∧ sock_user sk' = sock_user sk
                           ∧ sock_received sk' = sock_received sk)
                        ∨ ∃ room ev, room ∈ sock_rooms sk
                                     ∧ sk' = deliver ev sk)) as Hemit.
    { intros room e. rewrite emit_to_lookup, Hi. simpl. eexists.
      split; [done|]. case_decide as Hd; [|by left].
      right. right. exists room, e. by destruct Hd. }
    destruct ev as [c|c|c text|c|c|]; simpl;
      [destruct (Halter (join (room_conversation c))) as (sk' & ? & ?);
         [done|(eexists _, sk'; split; [reflexivity|by split])]
      |destruct (Halter (leave (room_conversation c))) as (sk' & ? & ?);
         [done|(eexists _, sk'; split; [reflexivity|by split])]
      |edestruct Hemit as (sk' & ? & ?); (eexists _, sk'; split; [reflexivity|by split])
      |edestruct Hemit as (sk' & ? & ?); (eexists _, sk'; split; [reflexivity|by split])
      |edestruct Hemit as (sk' & ? & ?); (eexists _, sk'; split; [reflexivity|by split])
      |edestruct (Halter (λ sk, mkSocket (sock_user sk) false []
                                  (sock_received sk)))
         as (sk' & ? & ?); [done|(eexists _, sk'; split; [reflexivity|by split])]].
Qed.

(** X14: a connection that has disconnected receives nothing any more:
    through every later request, handshake and socket event, including
    events sent under its own number, it stays closed, in no room, with
    what it had received. *)
Theorem disconnected_connection_is_inert t i s srv sk fuel acts tr :
  io s = Some srv →
  srv !! i = Some sk → sock_connected sk = true →
  run fuel acts (socket_on t i on_disconnect s) = Some tr →
  Forall (λ s', ∃ srv',
            io s' = Some srv'
            ∧ srv' !! i
              = Some (mkSocket (sock_user sk) false [] (sock_received sk)))
    tr.
Proof.
  intros Hio Hi Hconn Hrun.
  apply (run_invariant_all
           (λ s', ∃ srv',
              io s' = Some srv'
              ∧ srv' !! i
                = Some (mkSocket (sock_user sk) false [] (sock_received sk)))
           fuel acts (socket_on t i on_disconnect s) tr); [|done|].
  - intros a s1 s2 Hp (srv1 & Hio1 & Hi1).
    destruct (perform_socket _ _ _ _ _ _ _ Hp Hio1 Hi1)
      as (srv2 & sk2 & Hio2 & Hi2 & [->|[[Hc _]|(room & ev & Hin & _)]]).
    + by exists srv2.
    + done.
    + by apply elem_of_nil in Hin.
  - unfold socket_on. rewrite Hio, Hi, Hconn. simpl. eexists.
    split; [reflexivity|]. by rewrite server_lookup_alter_eq, Hi.
Qed.

Lemma disconnected_connection_is_inert_witness :
  Forall (λ s', ∃ srv',
            io s' = Some srv'
            ∧ srv' !! 0
              = Some (mkSocket (mkUser "u-bob" "" client "") false [] []))
    [sample.after
       [socket_event 31 0 on_disconnect;
        socket_event 32 0 (on_join_conversation "c0")] sample.s_listening;
     sample.after
       [socket_event 31 0 on_disconnect;
        socket_event 32 0 (on_join_conversation "c0");
        connection 33 (Some (generateToken sample.penv 0 "u-alice"))]
       sample.s_listening;
     sample.after
       [socket_event 31 0 on_disconnect;
        socket_event 32 0 (on_join_conversation "c0");
        connection 33 (Some (generateToken sample.penv 0 "u-alice"));
        socket_event 34 1 (on_message_send "c0" "hello?")]
       sample.s_listening].
Proof.
  apply (disconnected_connection_is_inert 31 0 sample.s_listening
           [mkSocket (mkUser "u-bob" "" client "") true
              ["user:u-bob"; "role:client"; "conversation:c0"] []]
           (mkSocket (mkUser "u-bob" "" client "") true
              ["user:u-bob"; "role:client"; "conversation:c0"] [])
           4
           [socket_event 32 0 (on_join_conversation "c0");
            connection 33 (Some (generateToken sample.penv 0 "u-alice"));
            socket_event 34 1 (on_message_send "c0" "hello?")]);
    [reflexivity | reflexivity | reflexivity | vm_compute; reflexivity].
Defined.

(** X15: a connection keeps its number and its principal for good, and
    what it has received is never withdrawn: along any run the principal
    at a connection number stays the one of the handshake and the list of
    received events only grows at its end. *)
Theorem connection_keeps_principal fuel acts s tr srv (i : nat) sk :
  io s = Some srv →
  srv !! i = Some sk →
  run fuel acts s = Some tr →
  Forall (λ s', ∃ srv' sk',
            io s' = Some srv' ∧ srv' !! i = Some sk'
            ∧ sock_user sk' = sock_user sk
            ∧ sock_received sk `prefix_of` sock_received sk') tr.
Proof.
  intros Hio Hi Hrun.
  apply (run_invariant_all
           (λ s', ∃ srv' sk',
              io s' = Some srv' ∧ srv' !! i = Some sk'
              ∧ sock_user sk' = sock_user sk
              ∧ sock_received sk `prefix_of` sock_received sk')
           fuel acts s tr); [|done|by exists srv, sk].
  intros a s1 s2 Hp (srv1 & sk1 & Hio1 & Hi1 & Hu1 & Hr1).
  destruct (perform_socket _ _ _ _ _ _ _ Hp Hio1 Hi1)
    as (srv2 & sk2 & Hio2 & Hi2
        & [->|[(_ & Hu2 & Hr2)|(room & ev & _ & ->)]]);
    exists srv2; eexists; (split; [done|]); (split; [done|]).
  - done.
  - split; [congruence|]. by rewrite Hr2.
  - split; [done|]. simpl. by apply prefix_app_r.
Qed.

Lemma connection_keeps_principal_witness :
  Forall (λ s', ∃ srv' sk',
            io s' = Some srv' ∧ srv' !! 0 = Some sk'
            ∧ sock_user sk' = mkUser "u-bob" "" client ""
            ∧ [] `prefix_of` sock_received sk')
    [sample.after
       [connection 33 (Some (generateToken sample.penv 0 "u-alice"))]
       sample.s_listening;
     sample.after
       [connection 33 (Some (generateToken sample.penv 0 "u-alice"));
        socket_event 34 1 (on_message_send "c0" "hello?")]
       sample.s_listening].
Proof.
  apply (connection_keeps_principal 4
           [connection 33 (Some (generateToken sample.penv 0 "u-alice"));
            socket_event 34 1 (on_message_send "c0" "hello?")]
           sample.s_listening _
           [mkSocket (mkUser "u-bob" "" client "") true
              ["user:u-bob"; "role:client"; "conversation:c0"] []] 0
           (mkSocket (mkUser "u-bob" "" client "") true
              ["user:u-bob"; "role:client"; "conversation:c0"] []));
    [reflexivity | reflexivity | vm_compute; reflexivity].
Defined.

Lemma perform_client_principals fuel a s s' :
  app_issued a →
  perform fuel a s = Some s' →
  (∀ srv, io s = Some srv →
          Forall (λ sk, user_role (sock_user sk) = client) srv) →
  ∀ srv', io s' = Some srv' →
          Forall (λ sk, user_role (sock_user sk) = client) srv'.
Proof.
  intros Happ Hp Hall srv' Hio'.
  destruct a as [env user req|t token|t i ev]; simpl in Hp.
  - destruct (handle fuel env user req s) as [[r s1]|] eqn:Hh; [|done].
    injection Hp as <-. apply Hall.
    by rewrite <- (handle_keeps_io _ _ _ _ _ _ _ Hh).
  - injection Hp as <-. unfold connect in Hio'.
    destruct (io s) as [srv|] eqn:Hio; [|by rewrite Hio in Hio'].
    destruct (socket_auth (process_env s) t token) as [err|user] eqn:Hauth.
    + rewrite Hio in Hio'. injection Hio' as <-. by apply Hall.
    + simpl in Hio'. injection Hio' as <-. apply Forall_app.
      split; [by apply Hall|]. apply Forall_singleton. simpl.
      destruct token as [token|]; [|done]. simpl in Happ.
      destruct Happ as (e & t0 & uid & ->). unfold socket_auth in Hauth.
      destruct (jwt_verify _ _ _) as [claims|] eqn:Hv; [|done].
      unfold jwt_verify in Hv. case_decide; [|done].
      injection Hv as <-. by injection Hauth as <-.
  - injection Hp as <-. unfold socket_on in Hio'.
    destruct (io s) as [srv|] eqn:Hio; [|by rewrite Hio in Hio'].
    destruct (srv !! i) as [sk|];
      [|rewrite Hio in Hio'; injection Hio' as <-; by apply Hall].
    destruct (sock_connected sk);
      [|rewrite Hio in Hio'; injection Hio' as <-; by apply Hall].
    simpl in Hio'. injection Hio' as <-. specialize (Hall srv eq_refl).
    destruct ev; simpl;
      first [by apply Forall_server_alter | by apply Forall_emit_to].
Qed.

(** X16: the gateway knows staff only through role claims, and the tokens
    of the application carry none.  If every handshake since start-up came
    with such a token (or none), then [emitToRole] for attendants or for
    admins reaches nobody: it leaves the whole state as it is, whoever is
    connected. *)
Theorem emitToRole_misses_staff fuel acts e us tr s r ev :
  Forall app_issued acts →
  run fuel acts (startup e us) = Some tr →
  s ∈ tr →
  r ≠ client →
  emitToRole r ev s = s.
Proof.
  intros Happ Hrun Hs Hr.
  pose proof (reachable_gateway_wf _ _ _ _ _ Hrun) as Hwf.
  rewrite Forall_forall in Hwf. specialize (Hwf s Hs).
  assert (∀ srv, io s = Some srv →
                 Forall (λ sk, user_role (sock_user sk) = client) srv)
    as Hroles.
  { assert (Forall (λ s', ∀ srv, io s' = Some srv →
                      Forall (λ sk, user_role (sock_user sk) = client) srv)
              tr) as Hinv.
    { apply (run_invariant app_issued
               (λ s', ∀ srv, io s' = Some srv →
                  Forall (λ sk, user_role (sock_user sk) = client) srv)
               fuel acts (startup e us) tr); [|done|done|].
      - intros a s1 s2. apply perform_client_principals.
      - simpl. intros srv [= <-]. constructor. }
    rewrite Forall_forall in Hinv. exact (Hinv s Hs). }
  unfold emitToRole, gateway_wf in *.
  destruct s as [pe d [srv|] disp]; simpl in *; [|done].
  unfold set_io. simpl. do 2 f_equal.
  specialize (Hroles srv eq_refl).
  apply list_eq. intros i. rewrite emit_to_lookup.
  destruct (srv !! i) as [sk|] eqn:Hi; [|done]. simpl. f_equal.
  rewrite decide_False; [done|]. intros [Hin _].
  rewrite Forall_lookup in Hwf, Hroles.
  apply (in_role_room sk r (Hwf i sk Hi)) in Hin as [_ Hrole].
  rewrite (Hroles i sk Hi) in Hrole. by destruct Hr.
Qed.

Lemma emitToRole_misses_staff_witness :
  emitToRole attendant (typing_stop "c0" "u-alice") sample.s_listening
  = sample.s_listening.
Proof.
  apply (emitToRole_misses_staff 4
           (sample.create :: sample.assign :: sample.listen 25 sample.bob)
           sample.penv
           [sample.alice; sample.carol; sample.bob; sample.dave; sample.root]
           (default [] (run 4 (sample.create :: sample.assign
                               :: sample.listen 25 sample.bob) sample.s0))).
  - repeat (apply Forall_cons; split; [try exact I|]); [|constructor].
    by exists sample.penv, 0%N, "u-bob".
  - vm_compute. reflexivity.
  - vm_compute. do 3 apply list_elem_of_further. apply list_elem_of_here.
  - discriminate.
Defined.

(** ** Reading a conversation *)

#[global] Instance createdAt_asc_trans : Transitive createdAt_asc.
Proof. unfold createdAt_asc. intros a b c. lia. Qed.
#[global] Instance createdAt_asc_total : Total createdAt_asc.
Proof. unfold createdAt_asc. intros a b. lia. Qed.

Lemma read_guard user c :
  visible_to user c
  ↔ ¬ (user_role user = client ∧ conv_clientId c ≠ user_id user)
    ∧ ¬ (user_role user = attendant
         ∧ conv_attendantId c ≠ Some (user_id user)
         ∧ conv_status c ≠ pending).
Proof.
  unfold visible_to.
  destruct (decide (conv_clientId c = user_id user)),
    (decide (conv_attendantId c = Some (user_id user))),
    (decide (conv_status c = pending)),
    (user_role user); split; try tauto; try (intros [? ?]; tauto);
    intros; split; intros [? ?]; try done; tauto.
Qed.

Lemma getConversation_status user id s c :
  find_conversation id s = Some c →
  read_status (getConversation user id s)
  = if decide (visible_to user c) then 200 else 403.
Proof.
  unfold find_conversation, getConversation. intros ->.
  pose proof (read_guard user c) as Hg.
  repeat case_decide; simpl; try done; tauto.
Qed.

Lemma getMessages_status user id s c :
  find_conversation id s = Some c →
  read_status (getMessages user id s)
  = if decide (visible_to user c) then 200 else 403.
Proof.
  unfold find_conversation, getMessages. intros ->.
  pose proof (read_guard user c) as Hg.
  repeat case_decide; simpl; try done; tauto.
Qed.

(** X17: the two read routes of a conversation and the list apply one
    visibility rule.  For an existing conversation both routes answer 200
    exactly when the requester is its client, its attendant, an attendant
    looking at a pending conversation, or an admin, and 403 otherwise; and
    that is exactly when the unfiltered list of the requester shows the
    conversation. *)
Theorem read_access_matches_list user id s c :
  find_conversation id s = Some c →
  (read_status (getConversation user id s) = 200 ↔ visible_to user c)
  ∧ (read_status (getConversation user id s) = 403 ↔ ¬ visible_to user c)
  ∧ read_status (getMessages user id s)
    = read_status (getConversation user id s)
  ∧ (read_status (getConversation user id s) = 200
     ↔ c ∈ select_conversations (listCondition user None) (db s)).
Proof.
  intros Hc. rewrite (getMessages_status user id s c Hc).
  rewrite (getConversation_status user id s c Hc).
  apply head_where_id_spec in Hc as [Hin _].
  assert (c ∈ select_conversations (listCondition user None) (db s)
          ↔ visible_to user c) as Hlist.
  { unfold select_conversations. rewrite merge_sort_Permutation.
    rewrite list_elem_of_filter, listCondition_spec. simpl. tauto. }
  rewrite Hlist. case_decide; repeat split; try done; tauto.
Qed.

Lemma read_access_matches_list_witness :
  let c :=
    mkConversation "c0" "0123456789ABC" None "u-alice" (Some "u-bob") active
      10 20 in
  (read_status (getConversation sample.dave "c0" sample.s_active) = 200
   ↔ visible_to sample.dave c)
  ∧ (read_status (getConversation sample.dave "c0" sample.s_active) = 403
     ↔ ¬ visible_to sample.dave c)
  ∧ read_status (getMessages sample.dave "c0" sample.s_active)
    = read_status (getConversation sample.dave "c0" sample.s_active)
  ∧ (read_status (getConversation sample.dave "c0" sample.s_active) = 200
     ↔ c ∈ select_conversations (listCondition sample.dave None)
             (db sample.s_active)).
Proof.
  intros c. apply (read_access_matches_list sample.dave "c0" sample.s_active c).
  reflexivity.
Defined.

Lemma fst_withSender st (l : list Message) : (withSender st <$> l).*1 = l.
Proof. induction l as [|m l IH]; [done|]. rewrite !fmap_cons. by f_equal. Qed.

(** X18: an answered read of the messages of a conversation returns the
    ledger of that conversation, every message once, oldest first, each
    with the id and name of its sender as the users table has them; and
    [GET /conversations/:id] embeds the same messages in the same order,
    without their conversation id. *)
Theorem read_returns_the_ledger user id s :
  read_status (getMessages user id s) = 200 →
  ∃ ms c,
    read_body (getMessages user id s) = read_messages ms
    ∧ ms.*1 ≡ₚ ledger id s
    ∧ StronglySorted createdAt_asc ms.*1
    ∧ (∀ m sender, (m, sender) ∈ ms →
                   sender = select_sender (msg_senderId m) (db s))
    ∧ read_body (getConversation user id s)
      = read_conversation
          (mkConversationDetail c
             (select_userInfo (conv_clientId c) (db s))
             (conv_attendantId c ≫= λ a, select_userInfo a (db s))
             ((λ x, (message_row x.1, x.2)) <$> ms)).
Proof.
  unfold getMessages, getConversation.
  destruct (head (where_id id (conversations (db s)))) as [c|]; [|done].
  do 2 (case_decide; [done|]). simpl. intros _.
  eexists _, c. split; [reflexivity|]. rewrite fst_withSender.
  split; [apply merge_sort_Permutation|].
  split; [apply StronglySorted_merge_sort; apply _|]. split.
  - intros m sender Hin. apply list_elem_of_fmap in Hin as (m' & Heq & _).
    unfold withSender in Heq. by simplify_eq.
  - do 2 f_equal. by rewrite <- list_fmap_compose.
Qed.

Lemma read_returns_the_ledger_witness :
  let s :=
    sample.after [sample.say 22 sample.alice "thanks";
                  sample.say 23 sample.bob "welcome"] sample.s_active in
  ∃ ms c,
    read_body (getMessages sample.root "c0" s) = read_messages ms
    ∧ ms.*1 ≡ₚ ledger "c0" s
    ∧ StronglySorted createdAt_asc ms.*1
    ∧ (∀ m sender, (m, sender) ∈ ms →
                   sender = select_sender (msg_senderId m) (db s))
    ∧ read_body (getConversation sample.root "c0" s)
      = read_conversation
          (mkConversationDetail c
             (select_userInfo (conv_clientId c) (db s))
             (conv_attendantId c ≫= λ a, select_userInfo a (db s))
             ((λ x, (message_row x.1, x.2)) <$> ms)).
Proof.
  intros s. apply (read_returns_the_ledger sample.root "c0" s). reflexivity.
Defined.




(** ** Bearer tokens *)

Lemma generateToken_authenticated e t0 t uid :
  jwt_verify (generateToken e t0 uid) (jwtSecret e) t
  = if decide (t < t0 + default seven_days (JWT_EXPIRES_IN e))%N
    then Some (mkClaims uid None None None) else None.
Proof.
  unfold jwt_verify, generateToken, jwt_sign. simpl.
  repeat case_decide; try done; tauto.
Qed.

(** X20: a token of [generateToken] and [authenticate] fit together.
    Until it expires, the token of a user id is accepted and yields the
    first row of the users table with that id, with the email, role and
    name the table has at the time of the request; 401 User not found
    if there is no such row; and from its expiry on 401 Invalid token,
    whoever the user is. *)
Theorem issued_token_authenticates s t0 t uid :
  authenticate t (Some (generateToken (process_env s) t0 uid)) s
  = (if decide (t < t0 + default seven_days (JWT_EXPIRES_IN (process_env s)))%N
     then match head (where_user uid (users (db s))) with
          | Some user => inr user
          | None => inl (mkResponse 401 (json_error "User not found"))
          end
     else inl (mkResponse 401 (json_error "Invalid token")))
  ∧ ∀ user,
      authenticate t (Some (generateToken (process_env s) t0 uid)) s
      = inr user →
      user ∈ users (db s) ∧ user_id user = uid.
Proof.
  assert (authenticate t (Some (generateToken (process_env s) t0 uid)) s
          = (if decide (t < t0 + default seven_days
                                   (JWT_EXPIRES_IN (process_env s)))%N
             then match head (where_user uid (users (db s))) with
                  | Some user => inr user
                  | None => inl (mkResponse 401 (json_error "User not found"))
                  end
             else inl (mkResponse 401 (json_error "Invalid token")))) as H.
  { unfold authenticate. rewrite generateToken_authenticated.
    by case_decide. }
  split; [exact H|]. intros user. rewrite H. case_decide; [|done].
  destruct (head (where_user uid (users (db s)))) as [u|] eqn:Hu; [|done].
  intros [= <-]. apply head_Some_elem_of in Hu.
  apply list_elem_of_filter in Hu. tauto.
Qed.

(** X21: without [JWT_SECRET] in the environment the middleware of the
    REST interface and the gateway verify with different fallback keys.
    A token of the application that the REST interface accepts is then
    refused by the handshake of the gateway as an invalid token, and the
    attempt to connect leaves the server without the connection. *)
Theorem unset_secret_locks_the_gateway s t0 t uid user :
  truthy (JWT_SECRET (process_env s)) = false →
  (t < t0 + default seven_days (JWT_EXPIRES_IN (process_env s)))%N →
  head (where_user uid (users (db s))) = Some user →
  let token := generateToken (process_env s) t0 uid in
  authenticate t (Some token) s = inr user
  ∧ socket_auth (process_env s) t (Some token) = inl "Invalid token"
  ∧ connect t (Some token) s = s.
Proof.
  intros Hsecret Ht Hu token. subst token. split; [|split].
  - unfold authenticate. rewrite generateToken_authenticated.
    rewrite decide_True by done. simpl. by rewrite Hu.
  - by apply default_secrets_disagree.
  - unfold connect. destruct (io s); [|done].
    by rewrite default_secrets_disagree.
Qed.

Lemma unset_secret_locks_the_gateway_witness :
  let s :=
    startup (mkProcessEnv None None) [sample.alice; sample.bob; sample.root] in
  let token := generateToken (process_env s) 0 "u-bob" in
  authenticate 5 (Some token) s = inr sample.bob
  ∧ socket_auth (process_env s) 5 (Some token) = inl "Invalid token"
  ∧ connect 5 (Some token) s = s.
Proof.
  intros s.
  apply (unset_secret_locks_the_gateway s 0 5 "u-bob" sample.bob);
    reflexivity.
Defined.

(** ** Random strings *)

Lemma charAt_chars62 (i : nat) :
  i < 62 →
  ∃ a, charAt chars62 i = String a "" ∧ is_alphanumeric a = true.
Proof.
  intros Hi.
  do 62 (destruct i as [|i]; [eexists; split; reflexivity|]). lia.
Qed.

Lemma generateRandomString_from_spec n rnd pos acc :
  (∀ k, unit_interval (rnd k)) →
  all_chars is_alphanumeric acc = true →
  String.length (generateRandomString_from n rnd pos acc)
  = String.length acc + n
  ∧ all_chars is_alphanumeric (generateRandomString_from n rnd pos acc) = true.
Proof.
  intros Hrnd. revert pos acc. induction n as [|n IH]; intros pos acc Hacc.
  - simpl. split; [lia|done].
  - simpl.
    destruct (charAt_chars62 (floor_mul (rnd pos) 62)) as (a & Ha & Hal).
    { apply floor_mul_lt; [apply Hrnd | lia]. }
    rewrite Ha.
    destruct (IH (S pos) (acc +:+ String a "")) as [Hlen Hall].
    { rewrite all_chars_app, Hacc. simpl. by rewrite Hal. }
    split; [|done]. rewrite Hlen, length_app_string. simpl. lia.
Qed.

(** X22: with [Math.random] in [0, 1), [generateRandomString] returns a
    string of exactly the requested length, 32 when none is given, made of
    letters and digits only; for length 0 it is the empty string. *)
Theorem generateRandomString_length_and_alphabet length rnd pos :
  (∀ k, unit_interval (rnd k)) →
  String.length (generateRandomString length rnd pos) = default 32 length
  ∧ all_chars is_alphanumeric (generateRandomString length rnd pos) = true
  ∧ (length = Some 0 → generateRandomString length rnd pos = "").
Proof.
  intros Hrnd. unfold generateRandomString.
  destruct (generateRandomString_from_spec (default 32 length) rnd pos ""
              Hrnd eq_refl) as [Hlen Hall].
  split; [exact Hlen|]. split; [exact Hall|]. by intros ->.
Qed.

Lemma generateRandomString_length_and_alphabet_witness :
  String.length (generateRandomString None (λ n, mkFraction ((7 * n) `mod` 62) 62) 0)
  = 32
  ∧ all_chars is_alphanumeric
      (generateRandomString None (λ n, mkFraction ((7 * n) `mod` 62) 62) 0)
    = true
  ∧ (None = Some 0 →
     generateRandomString None (λ n, mkFraction ((7 * n) `mod` 62) 62) 0 = "").
Proof.
  apply (generateRandomString_length_and_alphabet None
           (λ n, mkFraction ((7 * n) `mod` 62) 62) 0).
  intros k. change ((7 * k) `mod` 62 < 62). apply Nat.mod_upper_bound. lia.
Defined.

(** ** Escaping *)

Lemma replace_char_app c b (s t : code_units) :
  replace_char c b (s ++ t) = replace_char c b s ++ replace_char c b t.
Proof.
  induction s as [|x s IH]; [done|]. simpl. by rewrite IH, app_assoc.
Qed.

Lemma escape_sequence (x : N) :
  replace_char 39 (units "&#039;")
    (replace_char 34 (units "&quot;")
       (replace_char 62 (units "&gt;")
          (replace_char 60 (units "&lt;")
             (replace_char 38 (units "&amp;") [x]))))
  = escape x.
Proof.
  unfold escape. simpl.
  destruct (decide (x = 38%N)) as [->|H38]; [reflexivity|].
  destruct (decide (x = 60%N)) as [->|H60]; [reflexivity|].
  destruct (decide (x = 62%N)) as [->|H62]; [reflexivity|].
  destruct (decide (x = 34%N)) as [->|H34]; [reflexivity|].
  destruct (decide (x = 39%N)) as [->|H39]; [reflexivity|].
  simpl. rewrite !decide_False by done. simpl.
  rewrite !decide_False by done. simpl.
  rewrite !decide_False by done. simpl.
  by rewrite !decide_False by done.
Qed.

Lemma escape_clean (x : N) :
  Forall (λ c, c ∉ [60; 62; 34; 39]%N) (escape x).
Proof.
  unfold escape. repeat case_decide; subst;
    try (apply (bool_decide_unpack _); vm_compute; exact I).
  constructor; [|constructor].
  rewrite !elem_of_cons, elem_of_nil. intros Hin.
  repeat destruct Hin as [Hin|Hin]; done.
Qed.

(** X23: the five replacements of the escaping [sanitizeInput] amount to
    one pass that puts an entity for each of the characters ampersand,
    less-than, greater-than and the two quotes of the trimmed input:
    the ampersands of an entity written by one replacement are not
    escaped again by a later one.  The result holds no less-than,
    greater-than or quote character. *)
Theorem sanitizeInput_escapes_once (input : code_units) :
  escaping.sanitizeInput input = trim input ≫= escape
  ∧ Forall (λ c, c ∉ [60; 62; 34; 39]%N) (escaping.sanitizeInput input).
Proof.
  assert (escaping.sanitizeInput input = trim input ≫= escape) as H.
  { unfold escaping.sanitizeInput. induction (trim input) as [|x l IH];
      [done|].
    change (x :: l) with ([x] ++ l). rewrite !replace_char_app, IH.
    rewrite escape_sequence. by rewrite bind_app, bind_cons, app_nil_r. }
  split; [exact H|]. rewrite H. apply Forall_bind. apply Forall_forall.
  intros x _. apply escape_clean.
Qed.

(** ** The send box of the client and the server *)

Lemma append_accepted fuel env user cid text s c :
  cid ≠ "" → text ≠ "" →
  find_conversation cid s = Some c →
  may_write user c →
  ∃ r s',
    handle fuel env user (POST_messages (Some cid) (Some text)) s = Some (r, s')
    ∧ res_status r = 201.
Proof.
  intros Hcid Htext Hc [Hcl Hat]. unfold find_conversation in Hc.
  simpl. unfold postMessage. simpl.
  rewrite !bool_decide_eq_false_2 by done. simpl. rewrite Hc.
  rewrite decide_False by (intros [Hr Hn]; apply Hn; by apply Hcl).
  rewrite decide_False by (intros [Hr Hn]; apply Hn; by apply Hcl).
  rewrite decide_False by (intros [Hr Hn]; apply Hn; by apply Hat).
  by eexists _, _.
Qed.

Lemma append_refused fuel env user cid text s c :
  find_conversation cid s = Some c →
  ¬ may_write user c →
  ∃ r,
    handle fuel env user (POST_messages (Some cid) (Some text)) s = Some (r, s)
    ∧ 400 ≤ res_status r.
Proof.
  intros Hc Hno.
  destruct (postMessage env user (Some cid) (Some text) s) as [r s'] eqn:Hp.
  assert (handle fuel env user (POST_messages (Some cid) (Some text)) s
          = Some (r, s')) as Hh by (simpl; by rewrite Hp).
  pose proof (handle_outcome _ _ _ _ _ _ _ Hh) as Hout.
  inversion Hout as [|? ? ? Hcode| | | |]; subst.
  - eexists. split; [done|]. simpl.
    repeat (apply elem_of_cons in Hcode as [->|Hcode]); try lia.
    by apply elem_of_nil in Hcode.
  - match goal with
    | H1 : find_conversation cid s = Some ?c0, H2 : may_write user ?c0 |- _ =>
        rewrite Hc in H1; injection H1 as <-; by destruct Hno
    end.
Qed.

(** X24: the send box of the conversation page agrees with the server
    wherever it is shown.  For a conversation the user may see and a
    non-empty text: when [canSendMessage] holds the server accepts the
    message with 201; when it fails for a conversation that is not closed
    the server refuses the message too and changes nothing; on a closed
    conversation the page never offers the box. *)
Theorem send_box_agrees_with_server fuel env user cid text s c :
  find_conversation cid s = Some c →
  visible_to user c →
  cid ≠ "" → text ≠ "" →
  (canSendMessage (Some user) (Some c) = true →
   ∃ r s',
     handle fuel env user (POST_messages (Some cid) (Some text)) s
     = Some (r, s')
     ∧ res_status r = 201)
  ∧ (canSendMessage (Some user) (Some c) = false →
     conv_status c ≠ closed →
     ∃ r,
       handle fuel env user (POST_messages (Some cid) (Some text)) s
       = Some (r, s)
       ∧ 400 ≤ res_status r)
  ∧ (conv_status c = closed → canSendMessage (Some user) (Some c) = false).
Proof.
  intros Hc Hvis Hcid Htext. unfold canSendMessage, visible_to in *. simpl.
  split; [|split].
  - intros Hcan.
    apply (append_accepted fuel env user cid text s c); [done|done|exact Hc|].
    unfold may_write.
    destruct (user_role user) eqn:Hrole, (conv_status c) eqn:Hst;
      repeat case_decide; try done; split; intros; try done;
      try (split; [done|]); try done;
      destruct (decide (conv_attendantId c = Some (user_id user)));
      try done;
      match goal with
      | H : ¬ (_ ∧ _) |- _ => destruct H; split; congruence
      end.
  - intros Hcan Hopen.
    apply (append_refused fuel env user cid text s c); [exact Hc|].
    unfold may_write. intros [Hcl Hat].
    destruct (user_role user) eqn:Hrole, (conv_status c) eqn:Hst;
      repeat case_decide; try done;
      try (destruct_and?; congruence);
      try (destruct (Hcl eq_refl); congruence);
      try (destruct_and?; specialize (Hat eq_refl); congruence).
  - intros ->. by rewrite decide_True.
Qed.

Lemma send_box_agrees_with_server_witness :
  let c :=
    mkConversation "c0" "0123456789ABC" None "u-alice" None pending 10 10 in
  (canSendMessage (Some sample.alice) (Some c) = true →
   ∃ r s',
     handle 1 (sample.env 12 "m") sample.alice
       (POST_messages (Some "c0") (Some "anyone?")) sample.s_pending
     = Some (r, s')
     ∧ res_status r = 201)
  ∧ (canSendMessage (Some sample.alice) (Some c) = false →
     conv_status c ≠ closed →
     ∃ r,
       handle 1 (sample.env 12 "m") sample.alice
         (POST_messages (Some "c0") (Some "anyone?")) sample.s_pending
       = Some (r, sample.s_pending)
       ∧ 400 ≤ res_status r)
  ∧ (conv_status c = closed →
     canSendMessage (Some sample.alice) (Some c) = false).
Proof.
  intros c.
  apply (send_box_agrees_with_server 1 (sample.env 12 "m") sample.alice "c0"
           "anyone?" sample.s_pending c); [reflexivity|reflexivity|done|done].
Defined.

(** ** The socket module of the client *)

Lemma emit_if_socket_wf ev m : module_wf m → module_wf (emit_if_socket ev m).
Proof.
  unfold module_wf, emit_if_socket. intros Hwf.
  destruct (socket m) as [j|] eqn:Hj; [|by rewrite Hj]. simpl.
  intros i sk. destruct (decide (j = i)) as [->|Hne].
  - rewrite list_lookup_alter_eq.
    destruct (created m !! i) as [sk0|] eqn:Hi; [|done]. simpl.
    intros [= <-]. simpl. by apply Hwf.
  - rewrite list_lookup_alter_ne by done. intros Hi. by apply Hwf.
Qed.

Lemma module_call_wf c m : module_wf m → module_wf (module_call c m).
Proof.
  intros Hwf. destruct c; simpl; try by apply emit_if_socket_wf.
  - unfold module_wf in *. simpl. intros i sk Hi.
    destruct (socket m) as [j|] eqn:Hj.
    + rewrite length_alter in *.
      apply lookup_app_Some in Hi as [Hi|[Hlen Hi]].
      * assert (i < length (created m)) as Hlt.
        { apply lookup_lt_Some in Hi. by rewrite length_alter in Hi. }
        destruct (decide (j = i)) as [->|Hne].
        -- rewrite list_lookup_alter_eq in Hi.
           destruct (created m !! i) as [sk0|]; [|done]. simpl in Hi.
           injection Hi as <-. simpl. split; [done|]. intros [= Heq]. lia.
        -- rewrite list_lookup_alter_ne in Hi by done.
           split; [|intros [= Heq]; lia]. intros Hopen.
           apply (Hwf i sk Hi) in Hopen. congruence.
      * rewrite length_alter in *.
        destruct (i - length (created m)) as [|k] eqn:Hk; [|done].
        simpl in Hi. injection Hi as <-. simpl.
        split; [intros _; f_equal; lia|done].
    + apply lookup_app_Some in Hi as [Hi|[Hlen Hi]].
      * assert (i < length (created m)) as Hlt by (by eapply lookup_lt_Some).
        split; [|intros [= Heq]; lia]. intros Hopen.
        by apply (Hwf i sk Hi) in Hopen.
      * destruct (i - length (created m)) as [|k] eqn:Hk; [|done].
        simpl in Hi. injection Hi as <-. simpl.
        split; [intros _; f_equal; lia|done].
  - unfold module_wf in *. destruct (socket m) as [j|] eqn:Hj;
      [|by rewrite Hj]. simpl. intros i sk.
    destruct (decide (j = i)) as [->|Hne].
    + rewrite list_lookup_alter_eq.
      destruct (created m !! i) as [sk0|]; [|done]. simpl.
      by intros [= <-].
    + rewrite list_lookup_alter_ne by done. intros Hi.
      split; [|done]. intros Hopen. apply (Hwf i sk Hi) in Hopen. congruence.
Qed.

(** X25: the socket module of the client never leaves a socket behind:
    after any sequence of calls from the loaded module, a socket it has
    created is open exactly if it is the current one, so at most one
    socket is open; and while there is no current socket the emitting
    calls do nothing. *)
Theorem client_keeps_one_socket (calls : list ModuleCall) :
  let m := module_calls calls module_loaded in
  (∀ i sk, created m !! i = Some sk →
           (cs_open sk = true ↔ socket m = Some i))
  ∧ (∀ i j ski skj,
       created m !! i = Some ski → created m !! j = Some skj →
       cs_open ski = true → cs_open skj = true → i = j)
  ∧ (socket m = None →
     ∀ c, c ≠ call_initializeSocket → module_call c m = m).
Proof.
  intros m.
  assert (module_wf m) as Hwf.
  { subst m. unfold module_calls.
    assert (∀ m0, module_wf m0 →
                  module_wf (foldl (λ m c, module_call c m) m0 calls)) as H.
    { induction calls as [|c calls IH]; intros m0 Hm0; [done|]. simpl.
      apply IH. by apply module_call_wf. }
    apply H. intros i sk Hi. done. }
  split; [exact Hwf|]. split.
  - intros i j ski skj Hi Hj Hoi Hoj.
    apply (Hwf i ski Hi) in Hoi. apply (Hwf j skj Hj) in Hoj. congruence.
  - intros Hnone c Hc. destruct c; simpl; try done;
      unfold emit_if_socket; by rewrite Hnone.
Qed.

(** ** Registration and login *)

Lemma where_email_snoc em accounts a :
  where_email em accounts = [] →
  user_email (acc_user a) = em →
  where_email em (accounts ++ [a]) = [a].
Proof.
  intros Hnone Hem. unfold where_email in *. rewrite filter_app, Hnone.
  simpl. rewrite filter_cons, decide_True by done. done.
Qed.

Lemma postRegister_created hash e env salt n em pw role accounts :
  n ≠ "" → em ≠ "" → pw ≠ "" →
  where_email em accounts = [] →
  postRegister hash e env salt (Some n) (Some em) (Some pw) role accounts
  = (mkAuthResponse 201
       (auth_ok (mkUser (defaultRandom env 0) em (default client role) n)
          (generateToken e (now env) (defaultRandom env 0))),
     accounts
     ++ [mkAccount (mkUser (defaultRandom env 0) em (default client role) n)
           (hash pw salt)],
     [auth_register (defaultRandom env 0) em]).
Proof.
  intros Hn Hem Hpw Hfree. unfold postRegister. simpl.
  rewrite !bool_decide_eq_false_2 by done. simpl. by rewrite Hfree.
Qed.

(** X26: registration asks for no credentials and takes the role from
    the body.  With a non-empty name, email and password and an email
    not yet in the table, it stores the account with the requested role
    (client when none is given) and answers 201 with a token; if the
    generated id is new to the table, that token authenticates as the new
    user and passes [requireRole] for the requested role, admin included.
    A second registration with the same email is answered with 400 and
    leaves the table as it is. *)
Theorem registration_grants_the_requested_role
    hash e env salt n em pw role accounts :
  n ≠ "" → em ≠ "" → pw ≠ "" →
  where_email em accounts = [] →
  let user := mkUser (defaultRandom env 0) em (default client role) n in
  let token := generateToken e (now env) (defaultRandom env 0) in
  let accounts' := accounts ++ [mkAccount user (hash pw salt)] in
  postRegister hash e env salt (Some n) (Some em) (Some pw) role accounts
  = (mkAuthResponse 201 (auth_ok user token), accounts',
     [auth_register (defaultRandom env 0) em])
  ∧ (∀ s t,
       process_env s = e →
       users (db s) = acc_user <$> accounts' →
       where_user (defaultRandom env 0) (acc_user <$> accounts) = [] →
       (t < now env + default seven_days (JWT_EXPIRES_IN e))%N →
       authenticate t (Some token) s = inr user
       ∧ requireRole [default client role] (Some user) = None)
  ∧ (∀ env2 salt2 n2 pw2 role2,
       (postRegister hash e env2 salt2 n2 (Some em) pw2 role2 accounts').1.1
       = mkAuthResponse 400
           (auth_error
              (if truthy n2 && truthy pw2 then "Email already registered"
               else "Name, email and password are required"))
       ∧ (postRegister hash e env2 salt2 n2 (Some em) pw2 role2 accounts').1.2
         = accounts').
Proof.
  intros Hn Hem Hpw Hfree user token accounts'. split; [|split].
  - by apply postRegister_created.
  - intros s t <- Husers Hid Ht. split.
    + unfold authenticate. subst token.
      rewrite generateToken_authenticated, decide_True by done. simpl.
      rewrite Husers. subst accounts'. rewrite fmap_app.
      unfold where_user in *. rewrite filter_app, Hid. simpl.
      rewrite filter_cons, decide_True by done. done.
    + unfold requireRole. simpl.
      rewrite decide_True; [done|]. apply list_elem_of_here.
  - intros env2 salt2 n2 pw2 role2. unfold postRegister.
    assert (truthy (Some em) = true) as ->.
    { simpl. by rewrite bool_decide_eq_false_2. }
    destruct (truthy n2), (truthy pw2); simpl; try done.
    subst accounts'.
    rewrite (where_email_snoc em accounts (mkAccount user (hash pw salt))
               Hfree eq_refl).
    done.
Qed.

Lemma registration_grants_the_requested_role_witness :
  let user := mkUser "x0" "eve@example.org" admin "Eve" in
  let token := generateToken sample.penv 90 "x0" in
  let accounts' := [mkAccount user ("pw" +:+ "salt")] in
  postRegister (λ p s, p +:+ s) sample.penv (sample.env 90 "x") "salt"
    (Some "Eve") (Some "eve@example.org") (Some "pw") (Some admin) []
  = (mkAuthResponse 201 (auth_ok user token), accounts',
     [auth_register "x0" "eve@example.org"])
  ∧ authenticate 91 (Some token)
      (startup sample.penv [user]) = inr user
  ∧ requireRole [admin] (Some user) = None.
Proof.
  intros user token accounts'.
  destruct (registration_grants_the_requested_role (λ p s, p +:+ s)
              sample.penv (sample.env 90 "x") "salt" "Eve" "eve@example.org"
              "pw" (Some admin) [])
    as (Hreg & Hauth & _); [done|done|done|reflexivity|].
  split; [exact Hreg|].
  apply (Hauth (startup sample.penv [user]) 91%N); reflexivity.
Defined.

(** X27: a registered user can log in, and failed logins look alike.
    If [bcrypt.compare] accepts a password against its own hash, then
    after a registration the login with the same email and password is
    answered with 200, the stored user and a fresh token for its id.  On
    any table, a login with an email that no account has and a login with
    a password that [bcrypt.compare] rejects for the account of the email
    are both answered with 401 and the same body, and dispatch nothing. *)
Theorem registered_user_logs_in
    hash compare e env env2 salt n em pw role accounts :
  (∀ p sl, compare p (hash p sl) = true) →
  n ≠ "" → em ≠ "" → pw ≠ "" →
  where_email em accounts = [] →
  let user := mkUser (defaultRandom env 0) em (default client role) n in
  let accounts' :=
    (postRegister hash e env salt (Some n) (Some em) (Some pw) role
       accounts).1.2 in
  postLogin compare e env2 (Some em) (Some pw) accounts'
  = (mkAuthResponse 200
       (auth_ok user (generateToken e (now env2) (defaultRandom env 0))),
     [auth_login (defaultRandom env 0) em])
  ∧ ∀ table em2 pw2,
      em2 ≠ "" → pw2 ≠ "" →
      (where_email em2 table = []
       ∨ ∃ account,
           head (where_email em2 table) = Some account
           ∧ compare pw2 (acc_password account) = false) →
      postLogin compare e env2 (Some em2) (Some pw2) table
      = (mkAuthResponse 401 (auth_error "Invalid credentials"), []).
Proof.
  intros Hcmp Hn Hem Hpw Hfree user accounts'. split.
  - subst accounts' user. rewrite postRegister_created by done.
    cbn [fst snd]. unfold postLogin.
    assert (truthy (Some em) = true) as ->
      by (simpl; by rewrite bool_decide_eq_false_2).
    assert (truthy (Some pw) = true) as ->
      by (simpl; by rewrite bool_decide_eq_false_2).
    cbn [negb orb default from_option]. unfold id.
    erewrite where_email_snoc; [|exact Hfree|reflexivity].
    cbn [head acc_password acc_user]. by rewrite Hcmp.
  - intros table em2 pw2 Hem2 Hpw2 Hwrong. unfold postLogin.
    assert (truthy (Some em2) = true) as ->
      by (simpl; by rewrite bool_decide_eq_false_2).
    assert (truthy (Some pw2) = true) as ->
      by (simpl; by rewrite bool_decide_eq_false_2).
    cbn [negb orb default from_option]. unfold id.
    destruct Hwrong as [->|(account & -> & ->)]; done.
Qed.

Lemma registered_user_logs_in_witness :
  let compare := λ p h, bool_decide (h = p +:+ "salt") in
  let table := [mkAccount (mkUser "x0" "eve@example.org" client "Eve") "pwsalt"] in
  postLogin compare sample.penv (sample.env 95 "y") (Some "eve@example.org")
    (Some "pw") table
  = (mkAuthResponse 200
       (auth_ok (mkUser "x0" "eve@example.org" client "Eve")
          (generateToken sample.penv 95 "x0")),
     [auth_login "x0" "eve@example.org"])
  ∧ postLogin compare sample.penv (sample.env 95 "y")
      (Some "eve@example.org") (Some "guess") table
    = (mkAuthResponse 401 (auth_error "Invalid credentials"), [])
  ∧ postLogin compare sample.penv (sample.env 95 "y")
      (Some "mallory@example.org") (Some "pw") table
    = (mkAuthResponse 401 (auth_error "Invalid credentials"), []).
Proof.
  intros compare table.
  destruct (registered_user_logs_in (λ p _, p +:+ "salt") compare sample.penv
              (sample.env 90 "x") (sample.env 95 "y") "salt" "Eve"
              "eve@example.org" "pw" None [])
    as [Hlogin Hfail]; [|done|done|done|reflexivity|].
  { intros p sl. by apply bool_decide_eq_true_2. }
  split; [exact Hlogin|]. split.
  - apply Hfail; [done|done|]. right. by eexists.
  - apply Hfail; [done|done|]. by left.
Defined.
